(** * Offset reconciliation of the Stake provider scraper

    A shallow embedding of [parallel_provider_completion.js] (the offset
    tracker, the per-offset request handler, the merge step, the checkpoint
    writer and the driver loop), of [data_parser.js] (the response
    parser), of [enhanced_provider_completion.js] (the scan of the
    checkpoints and the sequential driver), of the hardcoded providers
    module, of the selection and order of [completeAllProvidersParallel]
    and of the GraphQL fetcher (validation, extraction and the attempts),
    followed by the properties checked against them.

    Conventions.
    - A JavaScript [Set] of offsets is the list of its elements in insertion
      order: that is the order [for ... of] visits them.
    - A JavaScript [Map] is a [gmap]: the program reads its maps with
      [get]/[set], sums over [values()] and sorts [keys()] before use, so
      the insertion order of a map is never observed.
    - Offsets and counters are integers, kept in [Z].
    - A [while] loop is a [Fixpoint] on a fuel argument that answers [None]
      when the fuel runs out. The loops of the tracker and of the loader
      are called with a bound, and the lemmas named [*_total] show that the
      bound is never exhausted; the loop of the driver, which may wait for
      ever, takes its fuel from the caller. *)

From Stdlib Require Import ZArith Lia.
From stdpp Require Import base option list sorting strings gmap.

Local Open Scope Z_scope.

(** ** Configuration (the [CONFIG] constant) *)

Record Config := {
  GAMES_PER_REQUEST : Z;
  MAX_CONCURRENT_REQUESTS : Z;
  MAX_RETRIES : Z;
  SKIP_MISSING_GAMES : bool;
  MAX_EMPTY_ATTEMPTS : Z
}.

Definition CONFIG : Config := {|
  GAMES_PER_REQUEST := 39;
  MAX_CONCURRENT_REQUESTS := 3;
  MAX_RETRIES := 20;
  SKIP_MISSING_GAMES := true;
  MAX_EMPTY_ATTEMPTS := 10
|}.

(** ** JavaScript sets of offsets, in insertion order *)

Module JsSet.

Definition has (s : list Z) (x : Z) : bool := bool_decide (x ∈ s).

Definition add (s : list Z) (x : Z) : list Z :=
  if has s x then s else s ++ [x].

Definition delete (s : list Z) (x : Z) : list Z :=
  filter (λ y, y ≠ x) s.

Definition size (s : list Z) : Z := Z.of_nat (length s).

End JsSet.

(** ** The offset tracker (class [OffsetTracker]) *)

Record OffsetTracker := {
  completed : list Z;
  failed : list Z;
  inProgress : list Z;
  retryCount : gmap Z Z
}.

(** [constructor()] *)
Definition newTracker : OffsetTracker := {|
  completed := [];
  failed := [];
  inProgress := [];
  retryCount := ∅
|}.

Definition markInProgress (t : OffsetTracker) (offset : Z) : OffsetTracker :=
  {| completed := completed t;
     failed := failed t;
     inProgress := JsSet.add (inProgress t) offset;
     retryCount := retryCount t |}.

(** [gameCount] is only logged. *)
Definition markCompleted (t : OffsetTracker) (offset gameCount : Z)
  : OffsetTracker :=
  {| completed := JsSet.add (completed t) offset;
     failed := failed t;
     inProgress := JsSet.delete (inProgress t) offset;
     retryCount := retryCount t |}.

(** [this.retryCount.get(offset) || 0]: a missing entry and a stored [0]
    both read as [0]. *)
Definition retriesOf (t : OffsetTracker) (offset : Z) : Z :=
  default 0 (retryCount t !! offset).

(** Returns the updated tracker and the method's result ([true]: the offset
    can be retried). *)
Definition markFailed (t : OffsetTracker) (offset : Z)
  : OffsetTracker * bool :=
  let retries := retriesOf t offset + 1 in
  let t1 := {| completed := completed t;
               failed := failed t;
               inProgress := JsSet.delete (inProgress t) offset;
               retryCount := <[offset := retries]> (retryCount t) |} in
  if MAX_RETRIES CONFIG <=? retries then
    ({| completed := completed t1;
        failed := JsSet.add (failed t1) offset;
        inProgress := inProgress t1;
        retryCount := retryCount t1 |}, false)
  else (t1, true).

Definition isCompleted (t : OffsetTracker) (offset : Z) : bool :=
  JsSet.has (completed t) offset.

Definition isFailed (t : OffsetTracker) (offset : Z) : bool :=
  JsSet.has (failed t) offset.

Definition isInProgress (t : OffsetTracker) (offset : Z) : bool :=
  JsSet.has (inProgress t) offset.

Definition canFetch (t : OffsetTracker) (offset : Z) : bool :=
  negb (isCompleted t offset) && negb (isFailed t offset)
  && negb (isInProgress t offset).

(** The loop of [getNextSequentialOffset], entered at [offset]. *)
Fixpoint nextSequentialFrom (fuel : nat) (t : OffsetTracker) (offset : Z)
  : option Z :=
  if isCompleted t offset then
    match fuel with
    | O => None
    | S fuel' =>
        nextSequentialFrom fuel' t (offset + GAMES_PER_REQUEST CONFIG)
    end
  else Some offset.

(** The loop leaves a distinct element of [completed] behind at every turn,
    so the size of that set bounds the number of turns. *)
Definition getNextSequentialOffset (t : OffsetTracker) : option Z :=
  nextSequentialFrom (length (completed t)) t 0.

(** One turn of the first loop of [getNextOffsets], over the failed offsets.
    [break] is rendered by leaving the accumulator alone: once
    [offsets.length >= maxOffsets] holds it holds for the rest of the
    iteration. *)
Definition retryFailedStep (maxOffsets : Z)
    (acc : OffsetTracker * list Z) (failedOffset : Z)
  : OffsetTracker * list Z :=
  let '(t, offsets) := acc in
  if maxOffsets <=? Z.of_nat (length offsets) then acc
  else
    let retries := retriesOf t failedOffset in
    if (retries <? MAX_RETRIES CONFIG) && canFetch t failedOffset then
      ({| completed := completed t;
          failed := JsSet.delete (failed t) failedOffset;
          inProgress := inProgress t;
          retryCount := retryCount t |}, offsets ++ [failedOffset])
    else acc.

(** The second loop of [getNextOffsets]. *)
Fixpoint sequentialLoop (fuel : nat) (t : OffsetTracker)
    (totalGames maxOffsets : Z) (offsets : list Z) (offset : Z)
  : option (list Z) :=
  if (Z.of_nat (length offsets) <? maxOffsets) && (offset <? totalGames) then
    match fuel with
    | O => None
    | S fuel' =>
        sequentialLoop fuel' t totalGames maxOffsets
          (if canFetch t offset then offsets ++ [offset] else offsets)
          (offset + GAMES_PER_REQUEST CONFIG)
    end
  else Some offsets.

(** [getNextOffsets(currentGames, totalGames, maxOffsets)]. The first loop
    visits the members of [this.failed] in insertion order; the only member
    it may delete is the one being visited, so it is a fold over the set as
    it was on entry. The second loop runs at most once per offset below
    [totalGames]. *)
Definition getNextOffsets (t : OffsetTracker)
    (currentGames totalGames maxOffsets : Z)
  : option (OffsetTracker * list Z) :=
  let '(t1, offsets) :=
    foldl (retryFailedStep maxOffsets) (t, []) (failed t) in
  offset ← getNextSequentialOffset t1;
  offsets' ← sequentialLoop (Z.to_nat (totalGames - offset)) t1
                totalGames maxOffsets offsets offset;
  Some (t1, offsets').

(** [Array.prototype.sort((a, b) => a - b)] *)
Definition sortAscending (l : list Z) : list Z := merge_sort Z.le l.

Record TrackerStatus := {
  status_completed : list Z;
  status_failed : list Z;
  status_inProgress : list Z
}.

Definition getStatus (t : OffsetTracker) : TrackerStatus := {|
  status_completed := sortAscending (completed t);
  status_failed := sortAscending (failed t);
  status_inProgress := sortAscending (inProgress t)
|}.


(** ** JavaScript strings

    A string is the list of its UTF-16 code units; [length] is the
    JavaScript [length]. *)

Definition lit (s : string) : list N :=
  (λ c, Ascii.N_of_ascii c) <$> String.list_ascii_of_string s.

(** The double quote, which the literals below splice in. *)
Definition dquote : list N := [34%N].

(** WhiteSpace and LineTerminator code units of ECMAScript, the ones
    [String.prototype.trim] strips. *)
Definition isWhiteSpace (c : N) : bool :=
  bool_decide (c ∈ [9; 10; 11; 12; 13; 32; 160; 5760; 8192; 8193; 8194;
                    8195; 8196; 8197; 8198; 8199; 8200; 8201; 8202; 8232;
                    8233; 8239; 8287; 12288; 65279]%N).

Fixpoint trimStart (s : list N) : list N :=
  match s with
  | [] => []
  | c :: s' => if isWhiteSpace c then trimStart s' else s
  end.

Definition trimEnd (s : list N) : list N :=
  reverse (trimStart (reverse s)).

Definition trim (s : list N) : list N := trimEnd (trimStart s).

Fixpoint startsWith (s sub : list N) : bool :=
  match sub, s with
  | [], _ => true
  | _ :: _, [] => false
  | c :: sub', d :: s' => bool_decide (c = d) && startsWith s' sub'
  end.

(** [String.prototype.includes] *)
Fixpoint includes (s sub : list N) : bool :=
  startsWith s sub ||
  match s with
  | [] => false
  | _ :: s' => includes s' sub
  end.

(** ** Exceptions *)

Inductive Thrown :=
| TypeError
| SyntaxError
| ErrorMessage (message : string).

Inductive Result (A : Type) :=
| Ok (a : A)
| Throw (e : Thrown).
Arguments Ok {A} a.
Arguments Throw {A} e.

#[global] Instance Result_ret : MRet Result := λ A a, Ok a.
#[global] Instance Result_bind : MBind Result := λ A B f m,
  match m with
  | Ok a => f a
  | Throw e => Throw e
  end.

(** ** The outside world *)

(** What the world hands to [executeSingleRequest]: how the spawned
    fetcher process, the scan for its response file and the 90 s timer
    turned out. *)
Inductive FetchOutcome :=
| ExitNonZero
| NoResponseFile
| ReadFailed
| RequestTimeout
| ResponseFile (responseData : list N).

(** A settled promise. *)
Inductive Settled (A : Type) :=
| Fulfilled (value : A)
| Rejected.
Arguments Fulfilled {A} value.
Arguments Rejected {A}.

(** ** Providers *)

(** The fields of a provider that the driver reads. *)
Record Provider := {
  name : string;
  slug : string;
  totalGames : Z;
  outputDir : string
}.

(** [Math.min(CONFIG.GAMES_PER_REQUEST, provider.totalGames - offset)] *)
Definition requestLimit (provider : Provider) (offset : Z) : Z :=
  Z.min (GAMES_PER_REQUEST CONFIG) (totalGames provider - offset).

(** ** JSON values and the response parser ([data_parser.js]) *)

Section Pipeline.

(** JavaScript numbers are IEEE doubles. The parser copies them and tests
    them for truthiness ([x || 0]); nothing else is observed, so the type
    is left open, with [ToBoolean] on it and the constant [0]. *)
Context {number : Type} (numberTruthy : number → bool) (zero : number).

#[warnings="-register-all"]
Inductive jsvalue :=
| JUndefined
| JNull
| JBool (b : bool)
| JNumber (n : number)
| JString (s : list N)
| JArray (items : list jsvalue)
| JObject (fields : list (list N * jsvalue)).

(** [ToBoolean] *)
Definition truthy (v : jsvalue) : bool :=
  match v with
  | JUndefined | JNull => false
  | JBool b => b
  | JNumber n => numberTruthy n
  | JString s => negb (bool_decide (s = []))
  | JArray _ | JObject _ => true
  end.

Fixpoint lookupField (fields : list (list N * jsvalue)) (key : list N)
  : jsvalue :=
  match fields with
  | [] => JUndefined
  | (k, v) :: rest =>
      if bool_decide (k = key) then v else lookupField rest key
  end.

(** [v.key] for the property names the parser reads, none of which is
    defined on the prototypes of strings, numbers, booleans or arrays. *)
Definition getProp (v : jsvalue) (key : string) : Result jsvalue :=
  match v with
  | JUndefined | JNull => Throw TypeError
  | JObject fields => Ok (lookupField fields (lit key))
  | _ => Ok JUndefined
  end.

(** [v?.key] *)
Definition getPropOpt (v : jsvalue) (key : string) : Result jsvalue :=
  match v with
  | JUndefined | JNull => Ok JUndefined
  | _ => getProp v key
  end.

(** [a || b] *)
Definition orElse (a b : jsvalue) : jsvalue := if truthy a then a else b.

(** Whether [ToString] (the conversion of [`${v}`]) and [ToNumber] return
    for [v]. Both go through [toString] for an object: an object read from
    JSON has the inherited method unless a field of that name, never
    callable, hides it, and then the conversion throws a [TypeError]. An
    array converts its items one by one, but for [null]. *)
Fixpoint convertible (v : jsvalue) : bool :=
  match v with
  | JArray items => forallb convertible items
  | JObject fields =>
      negb (bool_decide (lit "toString" ∈ fields.*1))
  | _ => true
  end.

(** The receiver of [forEach] / [map]: anything but an array has no such
    method. *)
Definition arrayItems (v : jsvalue) : Result (list jsvalue) :=
  match v with
  | JArray items => Ok items
  | _ => Throw TypeError
  end.

Record GroupGame := {
  groupId : jsvalue;
  groupSlug : jsvalue;
  groupTranslation : jsvalue;
  groupType : jsvalue
}.

Record Game := {
  gameId : jsvalue;
  gameName : jsvalue;
  gameSlug : jsvalue;
  thumbnailUrl : jsvalue;
  thumbnailBlurHash : jsvalue;
  isBlocked : jsvalue;
  isWidgetEnabled : jsvalue;
  playerCount : jsvalue;
  groupGames : list GroupGame
}.

Inductive ErrorInfo :=
| InvalidResponse (trimmedResponse : list N)
| Caught (e : Thrown)
| OtherError (message : list N).

(** The object every branch of the parser returns. [metadata] and
    [remainingGames] are left out: they are computed by floating-point
    arithmetic on payload values and no caller in the pipeline reads them.
    What is kept of them is whether computing and logging them throws. *)
Record ParseResult := {
  success : bool;
  error : option ErrorInfo;
  games : list Game
}.

Definition parseFailure (e : ErrorInfo) : ParseResult :=
  {| success := false; error := Some e; games := [] |}.

Definition parseGroupGame (gg : jsvalue) : Result GroupGame :=
  group ← getProp gg "group";
  gid ← getPropOpt group "id";
  gslug ← getPropOpt group "slug";
  gtranslation ← getPropOpt group "translation";
  gtype ← getPropOpt group "type";
  mret {| groupId := gid; groupSlug := gslug;
          groupTranslation := gtranslation; groupType := gtype |}.

(** The body of [gamesList.forEach]: [None] when [gameItem.game] is falsy
    and nothing is pushed. *)
Definition parseGameItem (gameItem : jsvalue) : Result (option Game) :=
  game ← getProp gameItem "game";
  if truthy game then
    gid ← getProp game "id";
    gname ← getProp game "name";
    gslug ← getProp game "slug";
    gthumbnailUrl ← getProp game "thumbnailUrl";
    gthumbnailBlurHash ← getProp game "thumbnailBlurHash";
    gisBlocked ← getProp game "isBlocked";
    gisWidgetEnabled ← getProp game "isWidgetEnabled";
    gplayerCount ← getProp game "playerCount";
    ggroupGames ← getProp game "groupGames";
    ggs ← arrayItems (orElse ggroupGames (JArray []));
    groups ← mapM parseGroupGame ggs;
    mret (Some {| gameId := gid; gameName := gname; gameSlug := gslug;
                  thumbnailUrl := gthumbnailUrl;
                  thumbnailBlurHash := gthumbnailBlurHash;
                  isBlocked := gisBlocked;
                  isWidgetEnabled := gisWidgetEnabled;
                  playerCount := orElse gplayerCount (JNumber zero);
                  groupGames := groups |})
  else mret None.

(** [games.push] over the items of [gamesList], in order. *)
Fixpoint parseGameItems (items : list jsvalue) : Result (list Game) :=
  match items with
  | [] => mret []
  | gameItem :: rest =>
      parsed ← parseGameItem gameItem;
      games ← parseGameItems rest;
      mret (match parsed with
            | Some game => game :: games
            | None => games
            end)
  end.

Definition extractDataFromJson (jsonData : jsvalue) : Result ParseResult :=
  data ← getProp jsonData "data";
  providerData ← getPropOpt data "slugKuratorGroup";
  if negb (truthy providerData) then
    Throw (ErrorMessage "No slugKuratorGroup data found in response")
  else
    groupGamesList ← getProp providerData "groupGamesList";
    gamesList ← arrayItems (orElse groupGamesList (JArray []));
    games ← parseGameItems gamesList;
    providerName ← getProp providerData "translation";
    totalGameCount ← getProp providerData "gameCount";
    (* console.log(`... ${metadata.providerName}`),
       console.log(`... ${metadata.totalGameCount}`),
       Math.max(0, metadata.totalGameCount - games.length) *)
    if convertible providerName && convertible totalGameCount then
      mret {| success := true; error := None; games := games |}
    else Throw TypeError.

(** The JavaScript runtime's [JSON.parse], and [parseWithRegex], whose
    regular-expression matching is left to the runtime; [parseWithRegex]
    catches its own exceptions and always returns a result object. *)
Context (JSON_parse : list N → Result jsvalue)
        (parseWithRegex : list N → ParseResult).

Definition resultContainerTag : list N :=
  lit "<div id=" ++ dquote ++ lit "resultContainer" ++ dquote ++ lit ">".

Definition parseStakeResponse (responseData : list N) : ParseResult :=
  let trimmedResponse := trim responseData in
  if bool_decide (trimmedResponse = lit "error")
     || (Z.of_nat (length trimmedResponse) <? 50) then
    parseFailure (InvalidResponse trimmedResponse)
  else if includes responseData resultContainerTag
          || includes responseData (lit "<div>") then
    parseWithRegex responseData
  else
    match JSON_parse responseData ≫= extractDataFromJson with
    | Ok result => result
    | Throw e => parseFailure (Caught e)
    end.


(** ** The driver ([parallel_provider_completion.js]) *)

Record RequestResult := {
  result_success : bool;
  result_games : list Game;
  result_error : option ErrorInfo
}.

(** The external fetch of one page, by offset, limit and request number
    (the [n] of the request id [Rn]). *)
Context (fetch : Z → Z → Z → FetchOutcome).

Definition executeSingleRequest (offset limit requestId : Z)
  : Settled RequestResult :=
  match fetch offset limit requestId with
  | ResponseFile responseData =>
      let parsed := parseStakeResponse responseData in
      Fulfilled {| result_success := success parsed;
                   result_games := games parsed;
                   result_error := error parsed |}
  | ExitNonZero | NoResponseFile | ReadFailed | RequestTimeout => Rejected
  end.

Inductive CheckpointStatus := StatusCompleted | StatusInProgress.

(** [initial_games.json] *)
Record GamesData := {
  games_provider_slug : string;
  games_provider_name : string;
  games_total_games : Z;
  games_games_fetched : Z;
  games_games : list Game
}.

(** [checkpoints/provider_<slug>_initial.json]. The timestamp and the
    constant fields are left out. The keys of the [retry_counts] object
    are the decimal renderings of the offsets, read back with [parseInt];
    the object is kept as the map from the offsets themselves. *)
Record CheckpointData := {
  provider_slug : string;
  provider_name : string;
  status : CheckpointStatus;
  total_games : Z;
  games_fetched : Z;
  is_complete : bool;
  needs_pagination : bool;
  completed_offsets : list Z;
  failed_offsets : list Z;
  retry_counts : gmap Z Z;
  last_successful_offset : Z
}.

(** The two files of the provider of a run; [None]: the file does not
    exist or cannot be read. *)
Record Files := {
  gamesFile : option GamesData;
  checkpointFile : option CheckpointData
}.

(** [saveProviderData(provider, allGames, tracker)] with a defined tracker
    and writes that succeed. *)
Definition saveProviderData (provider : Provider) (allGames : list Game)
    (tracker : OffsetTracker) (files : Files) : Files * bool :=
  let fetched := Z.of_nat (length allGames) in
  let gamesData := {|
    games_provider_slug := slug provider;
    games_provider_name := name provider;
    games_total_games := totalGames provider;
    games_games_fetched := fetched;
    games_games := allGames |} in
  let st := getStatus tracker in
  let checkpointData := {|
    provider_slug := slug provider;
    provider_name := name provider;
    status := if totalGames provider <=? fetched
              then StatusCompleted else StatusInProgress;
    total_games := totalGames provider;
    games_fetched := fetched;
    is_complete := totalGames provider <=? fetched;
    needs_pagination := fetched <? totalGames provider;
    completed_offsets := status_completed st;
    failed_offsets := status_failed st;
    retry_counts := retryCount tracker;
    last_successful_offset := foldr Z.max (-1) (status_completed st) |} in
  ({| gamesFile := Some gamesData; checkpointFile := Some checkpointData |},
   true).

(** The locals of [completeProviderParallel] that its loop updates, and the
    files. *)
Record DriverState := {
  tracker : OffsetTracker;
  gamesByOffset : gmap Z (list Game);
  totalExistingGames : Z;
  emptyResponseCount : Z;
  requestCount : Z;
  files : Files
}.

(** What a request lambda returns. *)
Record OffsetResult := {
  offset_of : Z;
  offset_games : list Game;
  offset_success : bool
}.

(** The lambda of [offsets.map(async (offset) => ...)], run to completion
    on the state [(tracker, requestCount, emptyResponseCount)]. It catches
    every rejection, so its own promise is always fulfilled. *)
Definition requestLambda (provider : Provider)
    (st : OffsetTracker * Z * Z) (offset : Z)
  : (OffsetTracker * Z * Z) * Settled OffsetResult :=
  let '(tr, requests, empties) := st in
  let limit := requestLimit provider offset in
  let requests := requests + 1 in
  match executeSingleRequest offset limit requests with
  | Fulfilled result =>
      if result_success result
         && (0 <? Z.of_nat (length (result_games result))) then
        ((markCompleted tr offset (Z.of_nat (length (result_games result))),
          requests, empties),
         Fulfilled {| offset_of := offset;
                      offset_games := result_games result;
                      offset_success := true |})
      else
        let empties := empties + 1 in
        if SKIP_MISSING_GAMES CONFIG then
          ((markCompleted tr offset 0, requests, empties),
           Fulfilled {| offset_of := offset; offset_games := [];
                        offset_success := true |})
        else
          (((markFailed tr offset).1, requests, empties),
           Fulfilled {| offset_of := offset; offset_games := [];
                        offset_success := false |})
  | Rejected =>
      (((markFailed tr offset).1, requests, empties),
       Fulfilled {| offset_of := offset; offset_games := [];
                    offset_success := false |})
  end.

(** [Promise.allSettled(offsets.map(...))]. The lambdas of a batch touch
    disjoint offsets and commute on the counters, so they are run one
    after the other, in the order of [offsets]. *)
Fixpoint runRequests (provider : Provider) (st : OffsetTracker * Z * Z)
    (offsets : list Z)
  : (OffsetTracker * Z * Z) * list (Settled OffsetResult) :=
  match offsets with
  | [] => (st, [])
  | offset :: rest =>
      let '(st1, r) := requestLambda provider st offset in
      let '(st2, rs) := runRequests provider st1 rest in
      (st2, r :: rs)
  end.

(** One turn of [results.forEach((result, index) => ...)], on
    [(gamesByOffset, newGamesAdded, emptyResponseCount)]; [offset] is
    [offsets[index]]. *)
Definition processResult (acc : gmap Z (list Game) * Z * Z)
    (entry : Z * Settled OffsetResult) : gmap Z (list Game) * Z * Z :=
  let '(byOffset, newGamesAdded, empties) := acc in
  let '(offset, result) := entry in
  match result with
  | Fulfilled requestResult =>
      if offset_success requestResult
         && (0 <? Z.of_nat (length (offset_games requestResult))) then
        (<[offset := offset_games requestResult]> byOffset,
         newGamesAdded + Z.of_nat (length (offset_games requestResult)),
         0)
      else acc
  | Rejected => acc
  end.

Definition processResults (byOffset : gmap Z (list Game)) (empties : Z)
    (offsets : list Z) (results : list (Settled OffsetResult))
  : gmap Z (list Game) * Z * Z :=
  foldl processResult (byOffset, 0, empties) (zip offsets results).

(** [for (const games of gamesByOffset.values()) total += games.length] *)
Definition countGames (byOffset : gmap Z (list Game)) : Z :=
  map_fold (λ _ games total, total + Z.of_nat (length games)) 0 byOffset.

(** The games of all offsets, by ascending offset. *)
Definition gamesInOrder (byOffset : gmap Z (list Game)) : list Game :=
  let sortedOffsets := sortAscending (map_to_list byOffset).*1 in
  concat ((λ offset, default [] (byOffset !! offset)) <$> sortedOffsets).

(** [Array.from(tracker.failed).some(...)] *)
Definition hasRetryableFailures (t : OffsetTracker) : bool :=
  existsb (λ offset, retriesOf t offset <? MAX_RETRIES CONFIG) (failed t).

Inductive LoopControl := Continue | Break.

(** The body of the [while] loop of [completeProviderParallel]. The waits
    ([setTimeout]) change nothing and are not shown. *)
Definition loopBody (provider : Provider) (st : DriverState)
  : option (DriverState * LoopControl) :=
  if 3 <=? JsSet.size (failed (tracker st)) then Some (st, Break)
  else
    '(t1, offsets) ← getNextOffsets (tracker st) (totalExistingGames st)
                       (totalGames provider) (MAX_CONCURRENT_REQUESTS CONFIG);
    if bool_decide (length offsets = 0%nat) then
      let st1 := {| tracker := t1;
                    gamesByOffset := gamesByOffset st;
                    totalExistingGames := totalExistingGames st;
                    emptyResponseCount := emptyResponseCount st;
                    requestCount := requestCount st;
                    files := files st |} in
      if hasRetryableFailures t1 then Some (st1, Continue)
      else if 0 <? JsSet.size (inProgress t1) then Some (st1, Continue)
      else Some (st1, Break)
    else
      let t2 := foldl markInProgress t1 offsets in
      let '((t3, requests, empties), results) :=
        runRequests provider (t2, requestCount st, emptyResponseCount st)
          offsets in
      let '(byOffset, newGamesAdded, empties') :=
        processResults (gamesByOffset st) empties offsets results in
      if 0 <? newGamesAdded then
        let total := countGames byOffset in
        let files' :=
          (saveProviderData provider (gamesInOrder byOffset) t3 (files st)).1 in
        Some ({| tracker := t3;
                 gamesByOffset := byOffset;
                 totalExistingGames := total;
                 emptyResponseCount := empties';
                 requestCount := requests;
                 files := files' |},
              if totalGames provider <=? total then Break else Continue)
      else
        Some ({| tracker := t3;
                 gamesByOffset := byOffset;
                 totalExistingGames := totalExistingGames st;
                 emptyResponseCount := empties';
                 requestCount := requests;
                 files := files st |}, Continue).

(** The [while] loop itself. A run may wait for ever, so the fuel is the
    caller's. *)
Fixpoint driverLoop (fuel : nat) (provider : Provider) (st : DriverState)
  : option DriverState :=
  if (totalExistingGames st <? totalGames provider)
     && (emptyResponseCount st <? MAX_EMPTY_ATTEMPTS CONFIG) then
    match fuel with
    | O => None
    | S fuel' =>
        match loopBody provider st with
        | None => None
        | Some (st', Break) => Some st'
        | Some (st', Continue) => driverLoop fuel' provider st'
        end
    end
  else Some st.

(** The loop that cuts the saved games into pages:
    [for (let i = 0; i < existingGames.length; i += 39)]. *)
Fixpoint pagesFrom (fuel : nat) (existingGames : list Game) (i : Z)
  : option (list (Z * list Game)) :=
  if i <? Z.of_nat (length existingGames) then
    match fuel with
    | O => None
    | S fuel' =>
        rest ← pagesFrom fuel' existingGames (i + GAMES_PER_REQUEST CONFIG);
        Some ((i, take (Z.to_nat (GAMES_PER_REQUEST CONFIG))
                    (drop (Z.to_nat i) existingGames)) :: rest)
    end
  else Some [].

(** The entries of [gamesByOffset] after loading [initial_games.json], in
    insertion order. *)
Definition loadExistingGames (fs : Files) : option (list (Z * list Game)) :=
  match gamesFile fs with
  | Some data => pagesFrom (length (games_games data)) (games_games data) 0
  | None => Some []
  end.

(** Restoring the failed offsets and the retry counts of a checkpoint. *)
Definition restoreCheckpoint (t : OffsetTracker) (checkpointData : CheckpointData)
  : OffsetTracker :=
  {| completed := completed t;
     failed := foldl JsSet.add (failed t) (failed_offsets checkpointData);
     inProgress := inProgress t;
     retryCount :=
       foldl (λ counts entry, <[entry.1 := entry.2]> counts) (retryCount t)
         (map_to_list (retry_counts checkpointData)) |}.

(** The tracker as [completeProviderParallel] sets it up before its loop:
    a new tracker, the checkpoint restored into it, then every loaded page
    marked completed. *)
Definition restoreTracker (fs : Files) (entries : list (Z * list Game))
  : OffsetTracker :=
  let restored :=
    match checkpointFile fs with
    | Some checkpointData => restoreCheckpoint newTracker checkpointData
    | None => newTracker
    end in
  foldl (λ t entry, markCompleted t entry.1 (Z.of_nat (length entry.2)))
    restored entries.

Record CompletionResult := {
  completion_totalGames : Z;
  requestsMade : Z;
  isComplete : bool
}.

Definition completeProviderParallel (fuel : nat) (provider : Provider)
    (fs : Files) : option (CompletionResult * Files) :=
  entries ← loadExistingGames fs;
  let byOffset : gmap Z (list Game) :=
    foldl (λ m entry, <[entry.1 := entry.2]> m) ∅ entries in
  let total := countGames byOffset in
  if totalGames provider <=? total then
    Some ({| completion_totalGames := total; requestsMade := 0;
             isComplete := true |}, fs)
  else
    st ← driverLoop fuel provider
           {| tracker := restoreTracker fs entries;
              gamesByOffset := byOffset;
              totalExistingGames := total;
              emptyResponseCount := 0;
              requestCount := 0;
              files := fs |};
    let finalGames := gamesInOrder (gamesByOffset st) in
    let fetched := Z.of_nat (length finalGames) in
    Some ({| completion_totalGames := fetched;
             requestsMade := requestCount st;
             isComplete := totalGames provider <=? fetched |},
          (saveProviderData provider finalGames (tracker st) (files st)).1).

End Pipeline.

(** ** The provider table (the hardcoded providers module) *)

Record ProviderEntry := {
  entry_slug : list N;
  entry_name : list N
}.

Definition entry (slug name : string) : ProviderEntry :=
  {| entry_slug := lit slug; entry_name := lit name |}.

Definition STAKE_PROVIDERS : list ProviderEntry := [
  entry "pragmatic-play" "Pragmatic Play";
  entry "stake-originals" "Stake Originals";
  entry "hacksaw-gaming" "Hacksaw Gaming";
  entry "evolution-gaming" "Evolution Gaming";
  entry "no-limit-city" "No Limit City";
  entry "massive-studios" "Massive Studios";
  entry "twist-gaming" "Twist Gaming";
  entry "titan-gaming" "Titan Gaming";
  entry "backseat-gaming" "Backseat Gaming";
  entry "b-gaming" "B Gaming";
  entry "push-gaming" "Push Gaming";
  entry "hacksaw-openrgs" "Hacksaw OpenRGS";
  entry "stake-engine" "Stake Engine";
  entry "shady-lady" "Shady Lady";
  entry "relax-gaming" "Relax Gaming";
  entry "avatarux" "Avatarux";
  entry "thunderkick" "Thunderkick";
  entry "penguin-king" "Penguin King";
  entry "fat-panda" "Fat Panda";
  entry "peter-sons" "Peter & Sons";
  entry "playn-go" "Play'n GO";
  entry "popiplay" "Popiplay";
  entry "paperclip-gaming" "Paperclip Gaming";
  entry "elk-studios" "Elk Studios";
  entry "print-studios" "Print Studios";
  entry "bullshark-games" "Bullshark Games";
  entry "netent" "NetEnt";
  entry "big-time-gaming" "Big Time Gaming";
  entry "red-tiger" "Red Tiger";
  entry "pg-soft" "PG Soft";
  entry "onetouch" "OneTouch";
  entry "slotmill" "Slotmill";
  entry "live88" "Live88";
  entry "gamomat" "Gamomat";
  entry "3-oaks-gaming" "3 Oaks Gaming";
  entry "games-global" "Games Global";
  entry "endorphina" "Endorphina";
  entry "voltent" "VoltEnt";
  entry "just-slots" "Just Slots";
  entry "fantasma-games" "Fantasma Games";
  entry "blueprint" "Blueprint";
  entry "belatra" "Belatra";
  entry "playson" "Playson";
  entry "novomatic" "Novomatic";
  entry "skywind" "Skywind";
  entry "quickspin" "Quickspin";
  entry "red-rake-gaming" "Red Rake Gaming";
  entry "game-art" "Game Art";
  entry "spinomenal" "Spinomenal"
].

(** [new Set(array)] of strings: the members in insertion order. *)
Definition addString (s : list (list N)) (x : list N) : list (list N) :=
  if bool_decide (x ∈ s) then s else s ++ [x].

Definition GAME_CATEGORIES : list (list N) :=
  foldl addString [] (lit <$> [
    "slots"; "table-games"; "live-casino"; "blackjack"; "baccarat";
    "roulette"; "video-poker"; "cards"; "dice"; "game-shows";
    "scratch-cards"; "bonus-buy"; "megaways"; "new-releases";
    "enhanced-rtp"; "jackpot-slots"
  ]%string).

Definition REAL_PROVIDER_SLUGS : list (list N) :=
  foldl addString [] (entry_slug <$> STAKE_PROVIDERS).

(** [new Map(pairs)]: a later pair overwrites an earlier one. *)
Definition PROVIDER_NAME_MAP : gmap (list N) (list N) :=
  foldl (λ m p, <[entry_slug p := entry_name p]> m) ∅ STAKE_PROVIDERS.

Definition getAllProviders : list ProviderEntry := STAKE_PROVIDERS.

Definition isRealProvider (slug : list N) : bool :=
  bool_decide (slug ∈ REAL_PROVIDER_SLUGS).

Definition isGameCategory (slug : list N) : bool :=
  bool_decide (slug ∈ GAME_CATEGORIES).

(** [PROVIDER_NAME_MAP.get(slug) || null]; [None] is [null]. *)
Definition getProviderName (slug : list N) : option (list N) :=
  match PROVIDER_NAME_MAP !! slug with
  | Some providerName =>
      if bool_decide (providerName = []) then None else Some providerName
  | None => None
  end.

(** An item of the list given to [filterRealProviders]: a slug, or an
    object with a [slug]. *)
Inductive ProviderRef :=
| BySlug (providerSlug : list N)
| ByEntry (providerEntry : ProviderEntry).

Definition filterRealProviders (providers : list ProviderRef)
  : list ProviderRef :=
  filter (λ provider,
            isRealProvider match provider with
                           | BySlug providerSlug => providerSlug
                           | ByEntry providerEntry => entry_slug providerEntry
                           end = true) providers.

Definition validateProvider (slug : list N) : bool :=
  if isRealProvider slug then true
  else if isGameCategory slug then false
  else false.

Record ProviderStats := {
  totalRealProviders : Z;
  totalGameCategories : Z;
  realProviderSlugs : list (list N);
  gameCategories : list (list N)
}.

Definition getProviderStats : ProviderStats := {|
  totalRealProviders := Z.of_nat (length STAKE_PROVIDERS);
  totalGameCategories := Z.of_nat (length GAME_CATEGORIES);
  realProviderSlugs := REAL_PROVIDER_SLUGS;
  gameCategories := GAME_CATEGORIES
|}.

(** ** Scanning the checkpoints ([scanAllProviders]) and the order of the
    runs ([completeAllProvidersParallel]) *)

(** [String.prototype.endsWith] *)
Definition endsWith (s sub : list N) : bool :=
  startsWith (reverse s) (reverse sub).

(** A checkpoint file as [JSON.parse] returns it: the fields of
    [CheckpointData] and the two paths that [saveProviderData] writes
    beside them. *)
Record StoredCheckpoint := {
  checkpoint_fields : CheckpointData;
  output_dir : string;
  games_data_file : string
}.

(** An element of the array that [scanAllProviders] returns. The fields
    [slug], [name], [totalGames] and [outputDir] are the provider that the
    drivers read. *)
Record ScannedProvider := {
  scanned : Provider;
  fetchedGames : Z;
  remainingGames : Z;
  scanned_isComplete : bool;
  needsPagination : bool;
  needsCompletion : bool;
  gamesDataFile : string;
  scanned_checkpointFile : string;
  scanned_status : CheckpointStatus
}.

(** [path.join(dir, file)] for a directory name and a file name that need
    no normalisation. *)
Definition pathJoin (dir file : string) : string :=
  (dir ++ "/" ++ file)%string.

(** The body of [files.forEach] for a file that parses. *)
Definition scanFile (file : string) (data : StoredCheckpoint)
  : ScannedProvider :=
  let fields := checkpoint_fields data in
  let remaining := total_games fields - games_fetched fields in
  {| scanned := {| name := provider_name fields;
                   slug := provider_slug fields;
                   totalGames := total_games fields;
                   outputDir := output_dir data |};
     fetchedGames := games_fetched fields;
     remainingGames := remaining;
     scanned_isComplete := is_complete fields;
     needsPagination := needs_pagination fields;
     needsCompletion := negb (is_complete fields)
                        && needs_pagination fields && (0 <? remaining);
     gamesDataFile := games_data_file data;
     scanned_checkpointFile := pathJoin "checkpoints" file;
     scanned_status := status fields |}.

Definition isCheckpointFile (file : string) : bool :=
  startsWith (lit file) (lit "provider_") && endsWith (lit file) (lit ".json").

(** The directory [./checkpoints/]: [None] when it does not exist, else
    its files in the order of [readdirSync], each with what [JSON.parse]
    makes of it ([None]: it throws, and the file is skipped). *)
Definition scanAllProviders
    (directory : option (list (string * option StoredCheckpoint)))
  : list ScannedProvider :=
  match directory with
  | None => []
  | Some files =>
      omap (λ f, scanFile f.1 <$> f.2)
        (filter (λ f, isCheckpointFile f.1 = true) files)
  end.

(** [Array.prototype.sort] with the comparator
    [(a, b) => a.remainingGames - b.remainingGames]: the sort is stable,
    so an element goes before the first one with as many or more
    remaining games that followed it in the array. *)
Fixpoint insertByRemaining (p : ScannedProvider)
    (sorted : list ScannedProvider) : list ScannedProvider :=
  match sorted with
  | [] => [p]
  | q :: rest =>
      if remainingGames p <=? remainingGames q then p :: q :: rest
      else q :: insertByRemaining p rest
  end.

Definition sortByRemaining (providers : list ScannedProvider)
  : list ScannedProvider :=
  foldr insertByRemaining [] providers.

(** The providers that [completeAllProvidersParallel] runs, in the order
    in which it runs them. *)
Definition incompleteProviders (allProviders : list ScannedProvider)
  : list ScannedProvider :=
  sortByRemaining (filter (λ p, 0 < remainingGames p) allProviders).

(** The providers that the sequential [completeAllProviders] runs. *)
Definition providersNeedingCompletion (allProviders : list ScannedProvider)
  : list ScannedProvider :=
  filter (λ p, needsCompletion p = true) allProviders.

(** The name of the checkpoint file that the parallel [saveProviderData]
    writes, and the object it writes there, with the two paths. *)
Definition checkpointFileName (provider : Provider) : string :=
  ("provider_" ++ slug provider ++ "_initial.json")%string.

Definition storedCheckpoint (provider : Provider)
    (checkpointData : CheckpointData) : StoredCheckpoint :=
  {| checkpoint_fields := checkpointData;
     output_dir := outputDir provider;
     games_data_file := pathJoin (outputDir provider) "initial_games.json" |}.

(** ** The GraphQL fetcher ([validateGraphQLResponse], [extractGameData],
    [fetchGamesWithGraphQL]) *)

Section Fetcher.

Context {number : Type} (numberTruthy : number → bool) (zero : number).

(** [process.env.X || fallback] *)
Definition envOr (value : option (list N)) (fallback : string) : list N :=
  match value with
  | Some s => if bool_decide (s = []) then lit fallback else s
  | None => lit fallback
  end.

(** The environment variables [PROVIDER_SLUG] and [PROVIDER_NAME]. *)
Context (env_PROVIDER_SLUG env_PROVIDER_NAME : option (list N)).

Definition PROVIDER_SLUG : list N := envOr env_PROVIDER_SLUG "stake-originals".
Definition PROVIDER_NAME : list N := envOr env_PROVIDER_NAME "Stake Originals".

(** [typeof v === 'object'] *)
Definition isObjectType (v : @jsvalue number) : bool :=
  match v with
  | JNull | JArray _ | JObject _ => true
  | _ => false
  end.

Definition isArray (v : @jsvalue number) : bool :=
  match v with
  | JArray _ => true
  | _ => false
  end.

(** [v === 'literal'] *)
Definition isString (v : @jsvalue number) (literal : string) : bool :=
  match v with
  | JString s => bool_decide (s = lit literal)
  | _ => false
  end.

Definition validateGraphQLResponse (response : @jsvalue number) : bool :=
  let checked : Result bool :=
    if negb (truthy numberTruthy response) || negb (isObjectType response)
    then Ok false
    else
      data ← getProp response "data";
      if negb (truthy numberTruthy data) then Ok false
      else
        group ← getProp data "slugKuratorGroup";
        if negb (truthy numberTruthy group) then Ok false
        else
          gamesList ← getProp group "groupGamesList";
          if negb (truthy numberTruthy gamesList) || negb (isArray gamesList)
          then Ok false
          else Ok true in
  match checked with
  | Ok valid => valid
  | Throw _ => false
  end.

Record GameData := {
  game_id : @jsvalue number;
  title : @jsvalue number;
  game_slug : @jsvalue number;
  game_provider : @jsvalue number;
  game_provider_slug : @jsvalue number;
  thumbnail_url : @jsvalue number;
  thumbnail_blur_hash : @jsvalue number;
  player_count : @jsvalue number;
  is_blocked : @jsvalue number;
  is_widget_enabled : @jsvalue number;
  categories : list (@jsvalue number);
  themes : list (@jsvalue number)
}.

(** The first loop over [game.groupGames], which ends at the first group
    of type [provider]. *)
Fixpoint providerOf (groups : list (@jsvalue number))
    (provider providerSlug : @jsvalue number)
  : Result (@jsvalue number * @jsvalue number) :=
  match groups with
  | [] => Ok (provider, providerSlug)
  | group :: rest =>
      g ← getProp group "group";
      if truthy numberTruthy g then
        gtype ← getProp g "type";
        if isString gtype "provider" then
          translation ← getProp g "translation";
          gslug ← getProp g "slug";
          Ok (orElse numberTruthy translation provider,
              orElse numberTruthy gslug providerSlug)
        else providerOf rest provider providerSlug
      else providerOf rest provider providerSlug
  end.

(** The second loop over [game.groupGames]. *)
Fixpoint categoriesAndThemes (groups : list (@jsvalue number))
    (categories themes : list (@jsvalue number))
  : Result (list (@jsvalue number) * list (@jsvalue number)) :=
  match groups with
  | [] => Ok (categories, themes)
  | group :: rest =>
      g ← getProp group "group";
      if truthy numberTruthy g then
        gtype ← getProp g "type";
        if isString gtype "category" then
          translation ← getProp g "translation";
          categoriesAndThemes rest (categories ++ [translation]) themes
        else if isString gtype "theme" then
          translation ← getProp g "translation";
          categoriesAndThemes rest categories (themes ++ [translation])
        else categoriesAndThemes rest categories themes
      else categoriesAndThemes rest categories themes
  end.

(** The body of the [try] of [extractGameData]: [None] at [continue]. *)
Definition extractGame (item : @jsvalue number) : Result (option GameData) :=
  game ← getProp item "game";
  if negb (truthy numberTruthy game) then Ok None
  else
    groupGames ← getProp game "groupGames";
    let groups :=
      match groupGames with
      | JArray groups => groups
      | _ => []
      end in
    '(provider, providerSlug) ←
      providerOf groups (JString PROVIDER_NAME) (JString PROVIDER_SLUG);
    '(categories, themes) ← categoriesAndThemes groups [] [];
    gid ← getProp game "id";
    gname ← getProp game "name";
    gslug ← getProp game "slug";
    gthumbnailUrl ← getProp game "thumbnailUrl";
    gthumbnailBlurHash ← getProp game "thumbnailBlurHash";
    gplayerCount ← getProp game "playerCount";
    gisBlocked ← getProp game "isBlocked";
    gisWidgetEnabled ← getProp game "isWidgetEnabled";
    Ok (Some {|
      game_id := gid;
      title := gname;
      game_slug := gslug;
      game_provider := provider;
      game_provider_slug := providerSlug;
      thumbnail_url := gthumbnailUrl;
      thumbnail_blur_hash := orElse numberTruthy gthumbnailBlurHash JNull;
      player_count := orElse numberTruthy gplayerCount (JNumber zero);
      is_blocked := orElse numberTruthy gisBlocked (JBool false);
      is_widget_enabled := orElse numberTruthy gisWidgetEnabled (JBool true);
      categories := categories;
      themes := themes |}).

(** [extractGameData(gamesList)]: an item whose extraction throws is
    logged and left out. *)
Fixpoint extractGameData (gamesList : list (@jsvalue number))
  : list GameData :=
  match gamesList with
  | [] => []
  | item :: rest =>
      match extractGame item with
      | Ok (Some gameData) => gameData :: extractGameData rest
      | Ok None | Throw _ => extractGameData rest
      end
  end.

(** What [fetchGamesWithGraphQL] returns. *)
Record FetchResult := {
  fetch_games : list GameData;
  fetch_total_games : Z;
  fetch_games_fetched : Z
}.

(** One attempt from the parsed response on: validation, extraction and
    the estimate of the total. The writes of the two files are taken to
    succeed. *)
Definition handleResponse (limit offset : Z) (jsonResponse : @jsvalue number)
  : Result FetchResult :=
  if negb (validateGraphQLResponse jsonResponse) then
    Throw (ErrorMessage "Invalid GraphQL response structure")
  else
    data ← getProp jsonResponse "data";
    group ← getProp data "slugKuratorGroup";
    groupGamesList ← getProp group "groupGamesList";
    gamesList ← arrayItems groupGamesList;
    let extractedGames := extractGameData gamesList in
    let listed := Z.of_nat (length gamesList) in
    Ok {| fetch_games := extractedGames;
          fetch_total_games := if listed <? limit then offset + listed
                               else offset + limit + 1;
          fetch_games_fetched := Z.of_nat (length extractedGames) |}.

(** What the session, the request and [JSON.parse] make of attempt number
    [attempt]: the parsed response, or the exception thrown on the way. *)
Context (post : Z → Result (@jsvalue number)).

(** The [for] loop over the attempts, [remaining] turns from [attempt]
    on. [Ok None]: the loop ends without a [return] and the function
    returns [undefined]. *)
Fixpoint attemptsFrom (remaining : nat) (attempt limit offset maxRetries : Z)
  : Result (option FetchResult) :=
  match remaining with
  | O => Ok None
  | S remaining' =>
      match post attempt ≫= handleResponse limit offset with
      | Ok result => Ok (Some result)
      | Throw e =>
          if bool_decide (attempt = maxRetries) then Throw e
          else attemptsFrom remaining' (attempt + 1) limit offset maxRetries
      end
  end.

Definition fetchGamesWithGraphQL (limit offset maxRetries : Z)
  : Result (option FetchResult) :=
  attemptsFrom (Z.to_nat maxRetries) 1 limit offset maxRetries.

End Fetcher.

(** ** The sequential driver ([enhanced_provider_completion.js]) *)

Module Sequential.

(** The [CONFIG] of this file; the delays, the paths and the timeout are
    left out. *)
Record Config := {
  GAMES_PER_REQUEST : Z;
  MIN_OFFSET : Z;
  MAX_RETRIES : Z
}.

Definition CONFIG : Config := {|
  GAMES_PER_REQUEST := 39;
  MIN_OFFSET := 39;
  MAX_RETRIES := 6
|}.

(** [Math.ceil(a / b)] for integers [a] and [b > 0] in the range in which
    doubles are exact. *)
Definition ceilDiv (a b : Z) : Z := - ((- a) / b).

Section Driver.

Context {number : Type} (numberTruthy : number → bool) (zero : number)
        (JSON_parse : list N → Result (@jsvalue number))
        (parseWithRegex : list N → @ParseResult number).

(** SameValueZero on numbers, the comparison of [Set.prototype.has]. *)
Context (sameNumber : number → number → bool).

(** The external fetch of one page, by offset, limit and the number of
    the call within the run. *)
Context (fetch : Z → Z → Z → FetchOutcome).

(** SameValueZero. An object or an array is the same value only as
    itself, and the ids compared come from different parses. *)
Definition sameValueZero (a b : @jsvalue number) : bool :=
  match a, b with
  | JUndefined, JUndefined => true
  | JNull, JNull => true
  | JBool x, JBool y => bool_decide (x = y)
  | JNumber x, JNumber y => sameNumber x y
  | JString x, JString y => bool_decide (x = y)
  | _, _ => false
  end.

(** [existingIds.has(id)] *)
Definition hasId (existingIds : list (@jsvalue number))
    (id : @jsvalue number) : bool :=
  existsb (sameValueZero id) existingIds.

(** The promise of [executeSingleRequest]: rejected also when the parser
    finds no game. *)
Definition executeSingleRequest (offset limit call : Z)
  : Settled (@ParseResult number) :=
  match fetch offset limit call with
  | ResponseFile responseData =>
      let parsed := parseStakeResponse numberTruthy zero JSON_parse
                      parseWithRegex responseData in
      if success parsed && (0 <? Z.of_nat (length (games parsed)))
      then Fulfilled parsed
      else Rejected
  | ExitNonZero | NoResponseFile | ReadFailed | RequestTimeout => Rejected
  end.

(** The games file as this driver writes it. *)
Record GamesFile := {
  file_provider_id : string;
  file_provider_name : string;
  file_provider_slug : string;
  summary_totalGames : Z;
  summary_fetchedGames : Z;
  summary_remainingGames : Z;
  summary_isComplete : bool;
  summary_currentOffset : Z;
  file_games : list (@Game number)
}.

(** What [provider.gamesDataFile] may hold: a file of this driver, or the
    [initial_games.json] of the parallel one. *)
Inductive StoredGames :=
| BySequential (data : GamesFile)
| ByParallel (data : @GamesData number).

(** The files at [provider.gamesDataFile] and [provider.checkpointFile];
    [None]: the file does not exist or does not parse. *)
Record Files := {
  gamesData : option StoredGames;
  checkpoint : option StoredCheckpoint
}.

(** [data.games || []], and [[]] without a file *)
Definition loadExistingGames (fs : Files) : list (@Game number) :=
  match gamesData fs with
  | Some (BySequential data) => file_games data
  | Some (ByParallel data) => games_games data
  | None => []
  end.

(** [saveProviderData(provider, allGames, currentOffset)], with writes
    that succeed. The games file is written first; without a checkpoint
    file to read and update, the function then returns [false]. *)
Definition saveProviderData (provider : ScannedProvider)
    (allGames : list (@Game number)) (currentOffset : Z) (fs : Files)
  : Files * bool :=
  let total := totalGames (scanned provider) in
  let fetched := Z.of_nat (length allGames) in
  let gameData := {|
    file_provider_id := slug (scanned provider);
    file_provider_name := name (scanned provider);
    file_provider_slug := slug (scanned provider);
    summary_totalGames := total;
    summary_fetchedGames := fetched;
    summary_remainingGames := Z.max 0 (total - fetched);
    summary_isComplete := total <=? fetched;
    summary_currentOffset := currentOffset;
    file_games := allGames |} in
  match checkpoint fs with
  | Some checkpointData =>
      let fields := checkpoint_fields checkpointData in
      ({| gamesData := Some (BySequential gameData);
          checkpoint := Some {|
            checkpoint_fields := {|
              provider_slug := provider_slug fields;
              provider_name := provider_name fields;
              status := if total <=? fetched
                        then StatusCompleted else StatusInProgress;
              total_games := total_games fields;
              games_fetched := fetched;
              is_complete := total <=? fetched;
              needs_pagination := needs_pagination fields;
              completed_offsets := completed_offsets fields;
              failed_offsets := failed_offsets fields;
              retry_counts := retry_counts fields;
              last_successful_offset := last_successful_offset fields |};
            output_dir := output_dir checkpointData;
            games_data_file := games_data_file checkpointData |} |},
       true)
  | None =>
      ({| gamesData := Some (BySequential gameData); checkpoint := None |},
       false)
  end.

(** The locals of [completeProvider] that its loops update, the number of
    calls of [executeSingleRequest] so far, and the files. *)
Record State := {
  allGames : list (@Game number);
  currentOffset : Z;
  requestCount : Z;
  calls : Z;
  files : Files
}.

(** The retry loop [while (!success && attempt < CONFIG.MAX_RETRIES)],
    [remaining] turns from [attempt] on; it returns when [success] is
    set. *)
Fixpoint retryLoop (remaining : nat) (attempt : Z)
    (provider : ScannedProvider) (gamesThisRequest : Z) (st : State)
  : State :=
  match remaining with
  | O => st
  | S remaining' =>
      let attempt := attempt + 1 in
      let call := calls st + 1 in
      (* the [catch] block *)
      let caught :=
        if bool_decide (attempt = MAX_RETRIES CONFIG) then
          {| allGames := allGames st;
             currentOffset := currentOffset st + GAMES_PER_REQUEST CONFIG;
             requestCount := requestCount st;
             calls := call;
             files := files st |}
        else
          retryLoop remaining' attempt provider gamesThisRequest
            {| allGames := allGames st;
               currentOffset := currentOffset st;
               requestCount := requestCount st;
               calls := call;
               files := files st |} in
      match executeSingleRequest (currentOffset st) gamesThisRequest call with
      | Fulfilled result =>
          if success result && (0 <? Z.of_nat (length (games result))) then
            let existingIds := gameId <$> allGames st in
            let newGames :=
              filter (λ g, hasId existingIds (gameId g) = false)
                (games result) in
            if 0 <? Z.of_nat (length newGames) then
              let allGames' := allGames st ++ newGames in
              let currentOffset' :=
                currentOffset st + Z.of_nat (length (games result)) in
              {| allGames := allGames';
                 currentOffset := currentOffset';
                 requestCount := requestCount st;
                 calls := call;
                 files := (saveProviderData provider allGames'
                             currentOffset' (files st)).1 |}
            else
              {| allGames := allGames st;
                 currentOffset := currentOffset st + GAMES_PER_REQUEST CONFIG;
                 requestCount := requestCount st;
                 calls := call;
                 files := files st |}
          else caught
      | Rejected => caught
      end
  end.

(** The loop [while (allGames.length < provider.totalGames)]. *)
Fixpoint requestLoop (fuel : nat) (provider : ScannedProvider)
    (maxRequests : Z) (st : State) : option State :=
  if Z.of_nat (length (allGames st)) <? totalGames (scanned provider) then
    match fuel with
    | O => None
    | S fuel' =>
        let remainingGames :=
          totalGames (scanned provider) - Z.of_nat (length (allGames st)) in
        let gamesThisRequest :=
          Z.min (GAMES_PER_REQUEST CONFIG) remainingGames in
        let st' :=
          retryLoop (Z.to_nat (MAX_RETRIES CONFIG)) 0 provider
            gamesThisRequest
            {| allGames := allGames st;
               currentOffset := currentOffset st;
               requestCount := requestCount st + 1;
               calls := calls st;
               files := files st |} in
        if maxRequests * 2 <? requestCount st' then Some st'
        else requestLoop fuel' provider maxRequests st'
    end
  else Some st.

Definition maxRequestsOf (provider : ScannedProvider) : Z :=
  ceilDiv (remainingGames provider) (GAMES_PER_REQUEST CONFIG).

(** The state in which [completeProvider] enters its loop. *)
Definition initialState (fs : Files) : State :=
  {| allGames := loadExistingGames fs;
     currentOffset := Z.of_nat (length (loadExistingGames fs));
     requestCount := 0;
     calls := 0;
     files := fs |}.

Definition completeProvider (fuel : nat) (provider : ScannedProvider)
    (fs : Files) : option (CompletionResult * Files) :=
  st ← requestLoop fuel provider (maxRequestsOf provider) (initialState fs);
  let fetched := Z.of_nat (length (allGames st)) in
  Some ({| completion_totalGames := fetched;
           requestsMade := requestCount st;
           isComplete := totalGames (scanned provider) <=? fetched |},
        (saveProviderData provider (allGames st) (currentOffset st)
           (files st)).1).

End Driver.

End Sequential.

(** ** Vocabulary of the properties *)

(** Members of [s] at or above [x]: what [getNextSequentialOffset] may
    still run into. *)
Definition above (s : list Z) (x : Z) : list Z := filter (λ y, x ≤ y) s.

(** The states of the specification. [Pending]: in none of the sets. *)
Inductive OffsetState := Pending | InProgress | Completed | Failed.

(** The states that hold of an offset, by the tracker's own tests. *)
Definition statesOf (t : OffsetTracker) (o : Z) : list OffsetState :=
  (if canFetch t o then [Pending] else [])
  ++ (if isInProgress t o then [InProgress] else [])
  ++ (if isCompleted t o then [Completed] else [])
  ++ (if isFailed t o then [Failed] else []).

Definition disjointSets (a b : list Z) : Prop := ∀ x, x ∈ a → x ∈ b → False.

Definition exclusive (t : OffsetTracker) : Prop :=
  disjointSets (completed t) (failed t)
  ∧ disjointSets (completed t) (inProgress t)
  ∧ disjointSets (failed t) (inProgress t).

(** The tracker's operations, each with the condition under which the
    driver calls it. *)
Inductive trackerStep : OffsetTracker → OffsetTracker → Prop :=
| step_markInProgress t o :
    o ∉ completed t → o ∉ failed t → trackerStep t (markInProgress t o)
| step_markCompleted t o gameCount :
    o ∉ failed t → trackerStep t (markCompleted t o gameCount)
| step_markFailed t o :
    o ∉ completed t → trackerStep t (markFailed t o).1
| step_getNextOffsets t currentGames totalGames maxOffsets t' offsets :
    getNextOffsets t currentGames totalGames maxOffsets = Some (t', offsets) →
    trackerStep t t'
| step_restoreCheckpoint t checkpointData :
    disjointSets (failed_offsets checkpointData) (completed t) →
    disjointSets (failed_offsets checkpointData) (inProgress t) →
    trackerStep t (restoreCheckpoint t checkpointData).

Inductive reachable : OffsetTracker → Prop :=
| reachable_new : reachable newTracker
| reachable_step t t' : reachable t → trackerStep t t' → reachable t'.

(** The provider of the test at the end of the driver's file. *)
Definition testProvider : Provider := {|
  name := "Test Provider";
  slug := "test-provider";
  totalGames := 100;
  outputDir := "stake_thumbnails/Test_Provider"
|}.

(** No file on disk yet. *)
Definition noFiles {number : Type} : @Files number :=
  {| gamesFile := None; checkpointFile := None |}.

(** The guard under which the merge step records a result. *)
Definition recorded {number : Type} (r : @OffsetResult number) : bool :=
  offset_success r && (0 <? Z.of_nat (length (offset_games r))).

(** A direct JSON payload of a provider without games:
    [{"data": {"slugKuratorGroup": {"groupGamesList": []}}}]. *)
Definition emptyProviderPayload {number : Type} : @jsvalue number :=
  JObject [(lit "data",
            JObject [(lit "slugKuratorGroup",
                      JObject [(lit "groupGamesList", JArray [])])])].

(** A concrete runtime for the examples: integers for numbers, a
    [JSON.parse] that accepts every text as the provider payload without
    games, a [parseWithRegex] that finds nothing, and a fetch that always
    times out. *)
Definition intTruthy (n : Z) : bool := negb (n =? 0).

Definition parseAnything (text : list N) : Result (@jsvalue Z) :=
  Ok emptyProviderPayload.

Definition regexFindsNothing (text : list N) : @ParseResult Z :=
  parseFailure (OtherError (lit "Could not find provider metadata")).

Definition alwaysTimeout (offset limit requestId : Z) : FetchOutcome :=
  RequestTimeout.

Definition sampleGame (gameName : string) : @Game Z := {|
  gameId := JString (lit gameName);
  gameName := JString (lit gameName);
  gameSlug := JString (lit gameName);
  thumbnailUrl := JString [];
  thumbnailBlurHash := JNull;
  isBlocked := JBool false;
  isWidgetEnabled := JBool true;
  playerCount := JNumber 0;
  groupGames := []
|}.

(** [markFailed(o)], [n] times over. *)
Definition failTimes (n : nat) (t : OffsetTracker) (o : Z) : OffsetTracker :=
  Nat.iter n (λ t, (markFailed t o).1) t.

(** A checkpoint that lists offset 39 as failed after 5 attempts, as a run
    with a lower retry ceiling leaves it, and the files that hold it. *)
Definition oldCheckpoint : CheckpointData := {|
  provider_slug := "test-provider";
  provider_name := "Test Provider";
  status := StatusInProgress;
  total_games := 100;
  games_fetched := 0;
  is_complete := false;
  needs_pagination := true;
  completed_offsets := [];
  failed_offsets := [39];
  retry_counts := {[ 39 := 5 ]};
  last_successful_offset := -1
|}.

Definition oldFiles : @Files Z :=
  {| gamesFile := None; checkpointFile := Some oldCheckpoint |}.

(** The files after a run in which offset 0 was completed without games. *)
Definition emptyRunFiles : @Files Z :=
  (saveProviderData testProvider [] (markCompleted newTracker 0 0) noFiles).1.

(** A driver state after offsets 0, 39 and 78 failed 20 times each. *)
Definition threeFailures : @DriverState Z := {|
  tracker := failTimes 20 (failTimes 20 (failTimes 20 newTracker 0) 39) 78;
  gamesByOffset := ∅;
  totalExistingGames := 0;
  emptyResponseCount := 0;
  requestCount := 60;
  files := noFiles
|}.

(** A driver state in which pages 0 and 78 are in and offset 39 is in the
    failed set with retries left. *)
Definition waitingState : @DriverState Z := {|
  tracker := {| completed := [0; 78]; failed := [39]; inProgress := [];
                retryCount := {[ 39 := 5 ]} |};
  gamesByOffset := {[ 0 := replicate 39 (sampleGame "a");
                      78 := replicate 22 (sampleGame "b") ]};
  totalExistingGames := 61;
  emptyResponseCount := 0;
  requestCount := 2;
  files := oldFiles
|}.

(** A driver state at the start of a first run, and one that holds the
    first page. *)
Definition freshState : @DriverState Z := {|
  tracker := newTracker;
  gamesByOffset := ∅;
  totalExistingGames := 0;
  emptyResponseCount := 0;
  requestCount := 0;
  files := noFiles
|}.

Definition firstPageState : @DriverState Z := {|
  tracker := markCompleted newTracker 0 39;
  gamesByOffset := {[ 0 := replicate 39 (sampleGame "a") ]};
  totalExistingGames := 39;
  emptyResponseCount := 0;
  requestCount := 0;
  files := noFiles
|}.

(** Two results for offset 39. *)
Definition firstResult : @OffsetResult Z :=
  {| offset_of := 39; offset_games := [sampleGame "a"];
     offset_success := true |}.

Definition secondResult : @OffsetResult Z :=
  {| offset_of := 39; offset_games := [sampleGame "b"; sampleGame "c"];
     offset_success := true |}.

(** The text [{"data":{"slugKuratorGroup":{}}}], 32 code units. *)
Definition shortPayload : list N :=
  lit "{" ++ dquote ++ lit "data" ++ dquote ++ lit ":{" ++ dquote
  ++ lit "slugKuratorGroup" ++ dquote ++ lit ":{}}}".

(** Every fetch delivers a response file, and the parser finds no game in
    it or rejects it. *)
Definition nothingToFetch {number : Type} (numberTruthy : number → bool)
    (zero : number) (JSON_parse : list N → Result (@jsvalue number))
    (parseWithRegex : list N → @ParseResult number)
    (fetch : Z → Z → Z → FetchOutcome) : Prop :=
  ∀ offset limit requestId,
    ∃ responseData,
      fetch offset limit requestId = ResponseFile responseData
      ∧ success (parseStakeResponse numberTruthy zero JSON_parse
                   parseWithRegex responseData)
        && (0 <? Z.of_nat (length (games (parseStakeResponse numberTruthy
                                            zero JSON_parse parseWithRegex
                                            responseData))))
        = false.

(** A fetch that always brings the text [error]. *)
Definition alwaysError (offset limit requestId : Z) : FetchOutcome :=
  ResponseFile (lit "error").

(** A game as the parser returns it and a game as the fetcher extracts
    it carry the same identifying fields. *)
Definition sameGame {number : Type} (g : @Game number)
    (d : @GameData number) : Prop :=
  game_id d = gameId g ∧ title d = gameName g ∧ game_slug d = gameSlug g
  ∧ thumbnail_url d = thumbnailUrl g ∧ player_count d = playerCount g.

(** The response with one game whose [isWidgetEnabled] is [false]:
    [{"data": {"slugKuratorGroup": {"groupGamesList":
       [{"game": {"id": "g1", "isWidgetEnabled": false,
                  "groupGames": []}}]}}}]. *)
Definition widgetOffPayload : @jsvalue Z :=
  JObject [(lit "data",
            JObject [(lit "slugKuratorGroup",
                      JObject [(lit "groupGamesList",
                                JArray [JObject [(lit "game",
                                  JObject [(lit "id", JString (lit "g1"));
                                           (lit "isWidgetEnabled", JBool false);
                                           (lit "groupGames", JArray [])])]])])])].

(** A world in which the first two attempts throw and the third brings
    [widgetOffPayload]. *)
Definition thirdTimeLucky (attempt : Z) : Result (@jsvalue Z) :=
  if attempt <? 3 then Throw (ErrorMessage "No response content found")
  else Ok widgetOffPayload.

(** The state in which the loop leaves [firstPageState] when every fetch
    brings the text [error]: offsets 39 and 78 are completed without
    games, and no offset below the total is left. *)
Definition firstPageEnd : @DriverState Z := {|
  tracker := markCompleted (markCompleted (markCompleted newTracker 0 39) 39 0)
               78 0;
  gamesByOffset := {[ 0 := replicate 39 (sampleGame "a") ]};
  totalExistingGames := 39;
  emptyResponseCount := 2;
  requestCount := 2;
  files := noFiles
|}.

(** The games file of a provider whose 100 games are all saved, and the
    files that hold it. *)
Definition fullGamesData : @GamesData Z := {|
  games_provider_slug := "test-provider";
  games_provider_name := "Test Provider";
  games_total_games := 100;
  games_games_fetched := 100;
  games_games := replicate 100 (sampleGame "a")
|}.

Definition fullFiles : @Files Z :=
  {| gamesFile := Some fullGamesData; checkpointFile := None |}.

(** The test provider as [scanAllProviders] finds it in [oldCheckpoint],
    with neither file of the sequential driver on disk. *)
Definition scannedTest : ScannedProvider :=
  scanFile (checkpointFileName testProvider)
    (storedCheckpoint testProvider oldCheckpoint).

Definition noSequentialFiles : @Sequential.Files Z :=
  {| Sequential.gamesData := None; Sequential.checkpoint := None |}.

(** A [JSON.parse] that reads every text as [widgetOffPayload], and a
    fetch that always brings a text of 50 letters [x]. *)
Definition parseWidgetOff (text : list N) : Result (@jsvalue Z) :=
  Ok widgetOffPayload.

Definition alwaysText (offset limit call : Z) : FetchOutcome :=
  ResponseFile (replicate 50 120%N).




(** What the request lambda returns for offset 39 when the response holds
    no game. *)
Definition emptyResult : @OffsetResult Z :=
  {| offset_of := 39; offset_games := []; offset_success := true |}.

(** * Properties *)

(** ** Sets of offsets *)

Lemma has_true (s : list Z) (x : Z) : JsSet.has s x = true ↔ x ∈ s.
Proof. unfold JsSet.has. apply bool_decide_eq_true. Qed.

Lemma has_false (s : list Z) (x : Z) : JsSet.has s x = false ↔ x ∉ s.
Proof. unfold JsSet.has. apply bool_decide_eq_false. Qed.

Lemma elem_of_add (s : list Z) (x y : Z) :
  y ∈ JsSet.add s x ↔ y ∈ s ∨ y = x.
Proof.
  unfold JsSet.add. destruct (JsSet.has s x) eqn:Hx.
  - apply has_true in Hx. split; [auto|]. intros [H| ->]; assumption.
  - rewrite elem_of_app, list_elem_of_singleton. reflexivity.
Qed.

Lemma elem_of_delete (s : list Z) (x y : Z) :
  y ∈ JsSet.delete s x ↔ y ∈ s ∧ y ≠ x.
Proof. unfold JsSet.delete. rewrite list_elem_of_filter. tauto. Qed.

Lemma canFetch_true (t : OffsetTracker) (o : Z) :
  canFetch t o = true ↔
    (o ∉ completed t) ∧ (o ∉ failed t) ∧ (o ∉ inProgress t).
Proof.
  unfold canFetch, isCompleted, isFailed, isInProgress.
  rewrite !andb_true_iff, !negb_true_iff, !has_false. tauto.
Qed.

Lemma canFetch_failed (t : OffsetTracker) (o : Z) :
  o ∈ failed t → canFetch t o = false.
Proof.
  intros Ho. destruct (canFetch t o) eqn:E; [|reflexivity].
  apply canFetch_true in E. tauto.
Qed.

(** ** The loops of the tracker end within their bounds *)

Lemma GAMES_PER_REQUEST_pos : 0 < GAMES_PER_REQUEST CONFIG.
Proof. reflexivity. Qed.

Lemma above_mono (s : list Z) (x d : Z) :
  0 < d → (length (above s (x + d)) ≤ length (above s x))%nat.
Proof.
  intros Hd. unfold above. induction s as [|z s IH]; [done|].
  rewrite !filter_cons.
  destruct (decide (x + d ≤ z)), (decide (x ≤ z)); simpl; lia.
Qed.

Lemma above_step (s : list Z) (x d : Z) :
  0 < d → x ∈ s → (length (above s (x + d)) < length (above s x))%nat.
Proof.
  intros Hd Hx. induction s as [|y s IH]; [by apply elem_of_nil in Hx|].
  pose proof (above_mono s x d Hd) as Hmono. unfold above in *.
  rewrite !filter_cons. apply elem_of_cons in Hx as [<-|Hx].
  - destruct (decide (x + d ≤ x)); [lia|].
    destruct (decide (x ≤ x)); [|lia]. simpl. lia.
  - specialize (IH Hx).
    destruct (decide (x + d ≤ y)), (decide (x ≤ y)); simpl; lia.
Qed.

Lemma nextSequentialFrom_total (t : OffsetTracker) (fuel : nat) (offset : Z) :
  (length (above (completed t) offset) ≤ fuel)%nat →
  ∃ next, nextSequentialFrom fuel t offset = Some next
          ∧ offset ≤ next ∧ isCompleted t next = false.
Proof.
  revert offset. induction fuel as [|fuel IH]; intros offset Hfuel; simpl.
  - destruct (isCompleted t offset) eqn:E; [|eauto with lia].
    apply has_true in E.
    assert (offset ∈ above (completed t) offset) as Hin
      by (apply list_elem_of_filter; split; [lia|done]).
    destruct (above (completed t) offset); [by apply elem_of_nil in Hin|].
    simpl in Hfuel. lia.
  - destruct (isCompleted t offset) eqn:E; [|eauto with lia].
    apply has_true in E.
    pose proof (above_step _ _ _ GAMES_PER_REQUEST_pos E) as Hlt.
    destruct (IH (offset + GAMES_PER_REQUEST CONFIG)) as (next & ? & ? & ?);
      [lia|].
    pose proof GAMES_PER_REQUEST_pos. exists next. split_and!; [done|lia|done].
Qed.

Lemma getNextSequentialOffset_total (t : OffsetTracker) :
  ∃ next, getNextSequentialOffset t = Some next
          ∧ 0 ≤ next ∧ isCompleted t next = false.
Proof.
  apply nextSequentialFrom_total. unfold above. apply length_filter.
Qed.

(** What the second loop of [getNextOffsets] adds to [offsets]. *)
Lemma sequentialLoop_total (t : OffsetTracker) (totalGames maxOffsets : Z)
    (fuel : nat) (offsets : list Z) (offset : Z) :
  totalGames - offset ≤ Z.of_nat fuel →
  ∃ added,
    sequentialLoop fuel t totalGames maxOffsets offsets offset
      = Some (offsets ++ added)
    ∧ Forall (λ o, canFetch t o = true ∧ offset ≤ o < totalGames) added
    ∧ StronglySorted Z.lt added
    ∧ (added = [] ∨ Z.of_nat (length (offsets ++ added)) ≤ maxOffsets).
Proof.
  revert offsets offset.
  induction fuel as [|fuel IH]; intros offsets offset Hfuel; simpl.
  - destruct (Z.ltb_spec (Z.of_nat (length offsets)) maxOffsets),
      (Z.ltb_spec offset totalGames); simpl; try lia;
      exists []; rewrite app_nil_r; split_and!; auto; constructor.
  - destruct (Z.ltb_spec (Z.of_nat (length offsets)) maxOffsets) as [Hlen|],
      (Z.ltb_spec offset totalGames) as [Hoff|]; simpl;
      try (exists []; rewrite app_nil_r; split_and!; auto; constructor).
    destruct (canFetch t offset) eqn:Hcan.
    + destruct (IH (offsets ++ [offset]) (offset + 39))
        as (added & Heq & Hall & Hsorted & Hlen'); [lia|].
      exists (offset :: added). rewrite Heq, <- app_assoc. split_and!.
      * done.
      * constructor; [split; [done|lia]|].
        eapply Forall_impl; [exact Hall|]. simpl. intros o [? ?].
        split; [done|lia].
      * constructor; [done|].
        eapply Forall_impl; [exact Hall|]. simpl. intros o [? ?]. lia.
      * right. destruct Hlen' as [->|Hlen'].
        -- rewrite length_app. simpl. lia.
        -- rewrite <- app_assoc in Hlen'. exact Hlen'.
    + destruct (IH offsets (offset + 39))
        as (added & Heq & Hall & Hsorted & Hlen'); [lia|].
      exists added. split_and!; [done| |done|done].
      eapply Forall_impl; [exact Hall|]. simpl. intros o [? ?].
      split; [done|lia].
Qed.

(** The first loop of [getNextOffsets] never takes an offset: the offset it
    visits is in [failed], and [canFetch] refuses every member of
    [failed]. *)
Lemma retryFailed_inert (maxOffsets : Z) (t : OffsetTracker)
    (offsets visited : list Z) :
  (∀ o, o ∈ visited → o ∈ failed t) →
  foldl (retryFailedStep maxOffsets) (t, offsets) visited = (t, offsets).
Proof.
  induction visited as [|o visited IH]; intros Hin; [done|]. cbn [foldl].
  assert (retryFailedStep maxOffsets (t, offsets) o = (t, offsets)) as ->.
  { unfold retryFailedStep.
    destruct (maxOffsets <=? Z.of_nat (length offsets)); [done|].
    rewrite (canFetch_failed t o), andb_false_r; [done|].
    apply Hin, elem_of_cons. by left. }
  apply IH. intros o' Ho'. apply Hin, elem_of_cons. by right.
Qed.

Lemma getNextOffsets_unfold (t : OffsetTracker)
    (currentGames totalGames maxOffsets : Z) :
  getNextOffsets t currentGames totalGames maxOffsets =
    (offset ← getNextSequentialOffset t;
     offsets ← sequentialLoop (Z.to_nat (totalGames - offset)) t
                 totalGames maxOffsets [] offset;
     Some (t, offsets)).
Proof.
  unfold getNextOffsets. by rewrite retryFailed_inert.
Qed.

(** [getNextOffsets] always returns, leaves the tracker as it was, and
    returns fetchable offsets only, in ascending order. *)
Lemma getNextOffsets_total (t : OffsetTracker)
    (currentGames totalGames maxOffsets : Z) :
  ∃ offsets,
    getNextOffsets t currentGames totalGames maxOffsets = Some (t, offsets)
    ∧ Forall (λ o, canFetch t o = true ∧ 0 ≤ o < totalGames) offsets
    ∧ StronglySorted Z.lt offsets
    ∧ (offsets = [] ∨ Z.of_nat (length offsets) ≤ maxOffsets).
Proof.
  rewrite getNextOffsets_unfold.
  destruct (getNextSequentialOffset_total t) as (next & -> & Hnext & _).
  destruct (sequentialLoop_total t totalGames maxOffsets
              (Z.to_nat (totalGames - next)) [] next)
    as (added & Heq & Hall & Hsorted & Hlen); [lia|].
  simpl. rewrite Heq. simpl. exists added. split_and!; [done| |done|done].
  eapply Forall_impl; [exact Hall|]. simpl. intros o [? ?].
  split; [done|lia].
Qed.

Lemma StronglySorted_lt_NoDup (l : list Z) : StronglySorted Z.lt l → NoDup l.
Proof.
  induction 1 as [|x l _ IH Hall]; constructor; [|done].
  intros Hx. rewrite Forall_forall in Hall. specialize (Hall x Hx). lia.
Qed.

(** ** What [getNextOffsets] returns *)

(** C4. [getNextOffsets] returns, with at most [maxOffsets] offsets, none of
    which was in the completed set, in the in-progress set, or in the
    failed set with its retries used up, when it was called. *)
Theorem getNextOffsets_bounded_and_fetchable (t : OffsetTracker)
    (currentGames totalGames maxOffsets : Z) :
  0 ≤ maxOffsets →
  ∃ t' offsets,
    getNextOffsets t currentGames totalGames maxOffsets = Some (t', offsets)
    ∧ Z.of_nat (length offsets) ≤ maxOffsets
    ∧ ∀ o, o ∈ offsets →
        isCompleted t o = false
        ∧ ¬ (isFailed t o = true ∧ MAX_RETRIES CONFIG ≤ retriesOf t o)
        ∧ isInProgress t o = false.
Proof.
  intros Hmax.
  destruct (getNextOffsets_total t currentGames totalGames maxOffsets)
    as (offsets & Heq & Hall & _ & Hlen).
  exists t, offsets. split_and!; [done| |].
  - destruct Hlen as [->|?]; [simpl; lia|done].
  - intros o Ho. rewrite Forall_forall in Hall.
    destruct (Hall o Ho) as [Hcan _]. apply canFetch_true in Hcan.
    destruct Hcan as (Hc & Hf & Hp).
    unfold isCompleted, isFailed, isInProgress.
    rewrite !has_false, has_true. tauto.
Qed.

(** C9. For a provider of 100 games and a tracker with no offset completed,
    failed or in progress, the first batch is the offsets 0, 39, 78,
    requested with the limits 39, 39, 22. *)
Theorem first_batch_of_100 (name slug outputDir : string)
    (counts : gmap Z Z) (currentGames : Z) :
  let provider := {| name := name; slug := slug; totalGames := 100;
                     outputDir := outputDir |} in
  let t := {| completed := []; failed := []; inProgress := [];
              retryCount := counts |} in
  getNextOffsets t currentGames (totalGames provider)
      (MAX_CONCURRENT_REQUESTS CONFIG)
    = Some (t, [0; 39; 78])
  ∧ requestLimit provider <$> [0; 39; 78] = [39; 39; 22].
Proof. split; reflexivity. Qed.

(** C3. A failed offset with retries left is passed over. The tracker
    restored from a checkpoint that lists offset 39 as failed after 5 of 20
    attempts has 39 in its failed set; for 100 games in total the batch is
    0 and 78, and 39 stays in the failed set. *)
Theorem getNextOffsets_passes_over_retryable :
  failed (restoreTracker oldFiles []) = [39]
  ∧ (retriesOf (restoreTracker oldFiles []) 39 <? MAX_RETRIES CONFIG) = true
  ∧ getNextOffsets (restoreTracker oldFiles []) 0 100
        (MAX_CONCURRENT_REQUESTS CONFIG)
      = Some (restoreTracker oldFiles [], [0; 78]).
Proof. split_and!; vm_compute; reflexivity. Qed.

(** An offset that failed with retries left and is in no set is fetched
    again by the sequential scan, in its numeric place: after a first
    failure of offset 39 the batch is 0, 39, 78. *)
Remark getNextOffsets_retries_in_sequence :
  getNextOffsets (failTimes 1 (markInProgress newTracker 39) 39) 0 100
      (MAX_CONCURRENT_REQUESTS CONFIG)
    = Some (failTimes 1 (markInProgress newTracker 39) 39, [0; 39; 78]).
Proof. vm_compute. reflexivity. Qed.

(** No call of [getNextOffsets] returns a member of the failed set,
    whatever its retry count. *)
Lemma getNextOffsets_never_failed (t t' : OffsetTracker)
    (currentGames totalGames maxOffsets : Z) (offsets : list Z) :
  getNextOffsets t currentGames totalGames maxOffsets = Some (t', offsets) →
  t' = t ∧ ∀ o, o ∈ offsets → o ∉ failed t.
Proof.
  intros Heq.
  destruct (getNextOffsets_total t currentGames totalGames maxOffsets)
    as (offsets' & Heq' & Hall & _ & _).
  rewrite Heq' in Heq. injection Heq as <- <-. split; [done|].
  intros o Ho. rewrite Forall_forall in Hall.
  destruct (Hall o Ho) as [Hcan _]. apply canFetch_true in Hcan. tauto.
Qed.

(** ** One state per offset *)

Lemma elem_of_foldl_add (s l : list Z) (x : Z) :
  x ∈ foldl JsSet.add s l ↔ x ∈ s ∨ x ∈ l.
Proof.
  revert s. induction l as [|y l IH]; intros s; cbn [foldl].
  - rewrite elem_of_nil. tauto.
  - rewrite IH, elem_of_add, elem_of_cons. tauto.
Qed.

Lemma markFailed_sets (t : OffsetTracker) (o x : Z) :
  completed (markFailed t o).1 = completed t
  ∧ inProgress (markFailed t o).1 = JsSet.delete (inProgress t) o
  ∧ (x ∈ failed (markFailed t o).1 → x ∈ failed t ∨ x = o)
  ∧ (x ∈ failed t → x ∈ failed (markFailed t o).1).
Proof.
  unfold markFailed.
  destruct (MAX_RETRIES CONFIG <=? retriesOf t o + 1); cbn [fst completed
    inProgress failed]; split_and!; try done.
  - intros Hx. by apply elem_of_add in Hx.
  - intros Hx. apply elem_of_add. by left.
  - by left.
Qed.

Lemma exclusive_new : exclusive newTracker.
Proof. repeat split; intros x Hx; by apply elem_of_nil in Hx. Qed.

Lemma trackerStep_exclusive (t t' : OffsetTracker) :
  trackerStep t t' → exclusive t → exclusive t'.
Proof.
  intros Hstep (Hcf & Hcp & Hfp).
  destruct Hstep as [t o Hc Hf|t o n Hf|t o Hc|t c total m t' offs Heq
                    |t ckpt Hc Hp].
  - unfold markInProgress. repeat split; cbn; [done| |];
      intros x H1 H2; apply elem_of_add in H2 as [H2| ->]; eauto.
  - unfold markCompleted. repeat split; cbn; intros x H1 H2.
    + apply elem_of_add in H1 as [H1| ->]; eauto.
    + apply elem_of_delete in H2 as [H2 Hne].
      apply elem_of_add in H1 as [H1| ->]; eauto.
    + apply elem_of_delete in H2 as [H2 Hne]. eauto.
  - repeat split; intros x H1 H2.
    + destruct (markFailed_sets t o x) as (E1 & _ & Hin & _).
      rewrite E1 in H1. destruct (Hin H2) as [?| ->]; eauto.
    + destruct (markFailed_sets t o x) as (E1 & E2 & _).
      rewrite E1 in H1. rewrite E2 in H2.
      apply elem_of_delete in H2 as [H2 _]. eauto.
    + destruct (markFailed_sets t o x) as (_ & E2 & Hin & _).
      rewrite E2 in H2. apply elem_of_delete in H2 as [H2 Hne].
      destruct (Hin H1) as [?| ->]; eauto.
  - apply getNextOffsets_never_failed in Heq as [-> _]. done.
  - unfold restoreCheckpoint. repeat split; cbn; intros x H1 H2.
    + apply elem_of_foldl_add in H2 as [H2|H2]; [eauto|]. exact (Hc x H2 H1).
    + eauto.
    + apply elem_of_foldl_add in H1 as [H1|H1]; [eauto|]. exact (Hp x H1 H2).
Qed.

Lemma exclusive_statesOf (t : OffsetTracker) (o : Z) :
  exclusive t → length (statesOf t o) = 1%nat.
Proof.
  intros (Hcf & Hcp & Hfp). unfold statesOf, canFetch.
  destruct (isCompleted t o) eqn:Ec, (isFailed t o) eqn:Ef,
    (isInProgress t o) eqn:Ep; cbn; try reflexivity; exfalso;
    unfold isCompleted, isFailed, isInProgress in *;
    rewrite ?has_true in *; eauto.
Qed.

(** C1, as the code has it. From a new tracker, every offset is in exactly
    one state, and the completed, failed and in-progress sets are pairwise
    disjoint, after every sequence of operations in which [markInProgress]
    is applied to offsets that are neither completed nor failed,
    [markCompleted] to offsets that are not failed, [markFailed] to offsets
    that are not completed, and a checkpoint is restored when none of its
    failed offsets is completed or in progress; [getNextOffsets] may be
    called at any point. *)
Theorem reachable_one_state (t : OffsetTracker) :
  reachable t →
  exclusive t ∧ ∀ o, length (statesOf t o) = 1%nat.
Proof.
  intros Hreach.
  assert (exclusive t) as Hex.
  { induction Hreach as [|t t' _ IH Hstep]; [apply exclusive_new|].
    by eapply trackerStep_exclusive. }
  split; [done|]. intros o. by apply exclusive_statesOf.
Qed.

(** C1, as stated, fails: the methods do not guard one another. An offset
    marked completed and then in progress is in both sets, and so is one
    marked in progress, or completed, after it failed for good, one that
    fails for good after it was completed, and one that a restored
    checkpoint lists as failed when it is already completed. *)
Lemma unguarded_operations_overlap :
  statesOf (markInProgress (markCompleted newTracker 0 39) 0) 0
    = [InProgress; Completed]
  ∧ ¬ exclusive (markInProgress (markCompleted newTracker 0 39) 0)
  ∧ statesOf (markInProgress (failTimes 20 newTracker 0) 0) 0
      = [InProgress; Failed]
  ∧ statesOf (markCompleted (failTimes 20 newTracker 0) 0 39) 0
      = [Completed; Failed]
  ∧ statesOf (failTimes 20 (markCompleted newTracker 0 39) 0) 0
      = [Completed; Failed]
  ∧ statesOf (restoreCheckpoint (markCompleted newTracker 39 39)
                oldCheckpoint) 39
      = [Completed; Failed].
Proof.
  split_and!; try (vm_compute; reflexivity).
  intros (_ & Hdis & _).
  apply (Hdis 0); cbn; apply list_elem_of_singleton; reflexivity.
Qed.

(** ** The parser and the driver *)

Section PipelineProperties.

Context {number : Type} (numberTruthy : number → bool) (zero : number)
        (JSON_parse : list N → Result (@jsvalue number))
        (parseWithRegex : list N → @ParseResult number).

Local Abbreviation parse :=
  (parseStakeResponse numberTruthy zero JSON_parse parseWithRegex).

(** C10. An input whose trimmed length is below 50 is rejected, whatever it
    holds: the result has [success = false] and no games. *)
Theorem short_input_rejected (responseData : list N) :
  Z.of_nat (length (trim responseData)) < 50 →
  parse responseData
    = {| success := false;
         error := Some (InvalidResponse (trim responseData));
         games := [] |}.
Proof.
  intros Hshort. unfold parseStakeResponse.
  destruct (Z.ltb_spec (Z.of_nat (length (trim responseData))) 50); [|lia].
  by rewrite orb_true_r.
Qed.



(** A direct JSON payload of a provider without games is a success without
    games. *)
Lemma empty_payload_accepted (responseData : list N) :
  trim responseData ≠ lit "error" →
  50 ≤ Z.of_nat (length (trim responseData)) →
  includes responseData resultContainerTag = false →
  includes responseData (lit "<div>") = false →
  JSON_parse responseData = Ok emptyProviderPayload →
  parse responseData = {| success := true; error := None; games := [] |}.
Proof.
  intros Hne Hlen Htag Hdiv Hjson. unfold parseStakeResponse.
  rewrite bool_decide_eq_false_2 by done.
  destruct (Z.ltb_spec (Z.of_nat (length (trim responseData))) 50); [lia|].
  rewrite Htag, Hdiv, Hjson. reflexivity.
Qed.

Section Driver.

Context (fetch : Z → Z → Z → FetchOutcome).

Local Abbreviation lambda :=
  (requestLambda numberTruthy zero JSON_parse parseWithRegex fetch).
Local Abbreviation body :=
  (loopBody numberTruthy zero JSON_parse parseWithRegex fetch).
Local Abbreviation loop :=
  (driverLoop numberTruthy zero JSON_parse parseWithRegex fetch).

(** What the request lambda does with a response that the parser rejects:
    the offset is marked completed with no games, the empty-response
    counter goes up, and the retry counts are left alone. *)
Lemma rejected_response_marked_completed (provider : Provider)
    (tr : OffsetTracker) (requests empties offset : Z)
    (responseData : list N) :
  fetch offset (requestLimit provider offset) (requests + 1)
    = ResponseFile responseData →
  success (parse responseData) = false →
  lambda provider (tr, requests, empties) offset
    = ((markCompleted tr offset 0, requests + 1, empties + 1),
       Fulfilled {| offset_of := offset; offset_games := [];
                    offset_success := true |}).
Proof.
  intros Hfetch Hfail. unfold requestLambda, executeSingleRequest.
  rewrite Hfetch. cbn [result_success result_games]. rewrite Hfail.
  reflexivity.
Qed.

Lemma loopBody_three_failures (provider : Provider) (st : DriverState) :
  3 ≤ JsSet.size (failed (tracker st)) →
  body provider st = Some (st, Break).
Proof.
  intros Hfailed. unfold loopBody.
  destruct (Z.leb_spec 3 (JsSet.size (failed (tracker st)))); [done|lia].
Qed.

(** C5. Once three offsets are in the failed set the loop ends where it
    stands: its body breaks before asking for a batch, and the state, with
    its count of requests made, is returned as it was. *)
Theorem three_failures_end_the_run (provider : Provider) (st : DriverState)
    (fuel : nat) :
  3 ≤ JsSet.size (failed (tracker st)) →
  body provider st = Some (st, Break)
  ∧ loop (S fuel) provider st = Some st.
Proof.
  intros Hfailed. split; [by apply loopBody_three_failures|].
  cbn [driverLoop]. rewrite loopBody_three_failures by done.
  by destruct (_ && _).
Qed.

(** *** The driver keeps to the conditions of [trackerStep] *)

Lemma markInProgress_batch (offsets : list Z) (t : OffsetTracker) :
  reachable t →
  (∀ o, o ∈ offsets → (o ∉ completed t) ∧ (o ∉ failed t)) →
  reachable (foldl markInProgress t offsets)
  ∧ completed (foldl markInProgress t offsets) = completed t
  ∧ failed (foldl markInProgress t offsets) = failed t.
Proof.
  revert t. induction offsets as [|o offsets IH]; intros t Hreach Hfree;
    [done|].
  cbn [foldl]. destruct (Hfree o) as [Hc Hf]; [apply elem_of_cons; by left|].
  destruct (IH (markInProgress t o)) as (Hr & Hc' & Hf').
  - eapply reachable_step; [done|]. by apply step_markInProgress.
  - intros o' Ho'. cbn. apply Hfree, elem_of_cons. by right.
  - by rewrite Hc', Hf'.
Qed.

Lemma requestLambda_step (provider : Provider) (tr : OffsetTracker)
    (requests empties o : Z) :
  o ∉ completed tr → o ∉ failed tr →
  let tr' := (lambda provider (tr, requests, empties) o).1.1.1 in
  trackerStep tr tr'
  ∧ (∀ x, x ∈ completed tr' → x ∈ completed tr ∨ x = o)
  ∧ (∀ x, x ∈ failed tr' → x ∈ failed tr ∨ x = o).
Proof.
  intros Hc Hf. unfold requestLambda.
  assert (∀ n, trackerStep tr (markCompleted tr o n)
               ∧ (∀ x, x ∈ completed (markCompleted tr o n) →
                       x ∈ completed tr ∨ x = o)
               ∧ (∀ x, x ∈ failed (markCompleted tr o n) →
                       x ∈ failed tr ∨ x = o)) as Hcompleted.
  { intros n. split_and!; [by apply step_markCompleted| |by left].
    intros x Hx. by apply elem_of_add in Hx. }
  assert (trackerStep tr (markFailed tr o).1
          ∧ (∀ x, x ∈ completed (markFailed tr o).1 →
                  x ∈ completed tr ∨ x = o)
          ∧ (∀ x, x ∈ failed (markFailed tr o).1 →
                  x ∈ failed tr ∨ x = o)) as Hfailed.
  { split_and!; [by apply step_markFailed| |].
    - intros x Hx. destruct (markFailed_sets tr o x) as (E & _).
      rewrite E in Hx. by left.
    - intros x Hx. by destruct (markFailed_sets tr o x) as (_ & _ & H & _);
        apply H. }
  destruct (executeSingleRequest _ _ _ _ _ _ _ _) as [result|];
    [|exact Hfailed].
  destruct (result_success result
            && (0 <? Z.of_nat (length (result_games result))));
    [apply Hcompleted|].
  cbn [SKIP_MISSING_GAMES CONFIG]. apply Hcompleted.
Qed.

Lemma runRequests_reachable (provider : Provider) (offsets : list Z)
    (tr : OffsetTracker) (requests empties : Z) :
  reachable tr → NoDup offsets →
  (∀ o, o ∈ offsets → (o ∉ completed tr) ∧ (o ∉ failed tr)) →
  reachable (runRequests numberTruthy zero JSON_parse parseWithRegex fetch
               provider (tr, requests, empties) offsets).1.1.1.
Proof.
  revert tr requests empties.
  induction offsets as [|o offsets IH];
    intros tr requests empties Hreach Hnodup Hfree; [done|].
  apply NoDup_cons in Hnodup as [Ho Hnodup].
  destruct (Hfree o) as [Hc Hf]; [apply elem_of_cons; by left|].
  pose proof (requestLambda_step provider tr requests empties o Hc Hf)
    as (Hstep & Hc' & Hf').
  cbn [runRequests].
  destruct (lambda provider (tr, requests, empties) o)
    as [[[tr1 requests1] empties1] r] eqn:Hlambda.
  cbn [fst] in Hstep, Hc', Hf'.
  specialize (IH tr1 requests1 empties1).
  destruct (runRequests _ _ _ _ _ _ (tr1, requests1, empties1) offsets)
    as [[[tr2 requests2] empties2] rs].
  cbn [fst] in *. apply IH; [by eapply reachable_step|done|].
  intros o' Ho'. destruct (Hfree o') as [? ?]; [apply elem_of_cons; by right|].
  split; intros Hin.
  - destruct (Hc' o' Hin) as [?| ->]; done.
  - destruct (Hf' o' Hin) as [?| ->]; done.
Qed.

(** One turn of the driver's loop takes the tracker from a reachable state
    to a reachable state. *)
Lemma loopBody_reachable (provider : Provider) (st st' : DriverState)
    (control : LoopControl) :
  reachable (tracker st) →
  body provider st = Some (st', control) →
  reachable (tracker st').
Proof.
  intros Hreach. unfold loopBody.
  destruct (3 <=? JsSet.size (failed (tracker st)));
    [by intros [= <- _]|].
  destruct (getNextOffsets_total (tracker st) (totalExistingGames st)
              (totalGames provider) (MAX_CONCURRENT_REQUESTS CONFIG))
    as (offsets & -> & Hall & Hsorted & _).
  cbn [mbind option_bind].
  destruct (bool_decide (length offsets = 0%nat)).
  { destruct (hasRetryableFailures (tracker st));
      [by intros [= <- _]|].
    destruct (0 <? JsSet.size (inProgress (tracker st)));
      by intros [= <- _]. }
  assert (∀ o, o ∈ offsets →
               (o ∉ completed (tracker st)) ∧ (o ∉ failed (tracker st)))
    as Hfree.
  { intros o Ho. rewrite Forall_forall in Hall.
    destruct (Hall o Ho) as [Hcan _]. apply canFetch_true in Hcan. tauto. }
  destruct (markInProgress_batch offsets (tracker st) Hreach Hfree)
    as (Hreach2 & Hc2 & Hf2).
  pose proof (runRequests_reachable provider offsets
                (foldl markInProgress (tracker st) offsets)
                (requestCount st) (emptyResponseCount st) Hreach2
                (StronglySorted_lt_NoDup _ Hsorted)) as Hreach3.
  rewrite Hc2, Hf2 in Hreach3. specialize (Hreach3 Hfree).
  destruct (runRequests _ _ _ _ _ _ _ offsets)
    as [[[t3 requests] empties] results].
  cbn [fst] in Hreach3.
  destruct (processResults _ _ _ _) as [[byOffset newGamesAdded] empties'].
  destruct (0 <? newGamesAdded); by intros [= <- _].
Qed.

Lemma driverLoop_reachable (fuel : nat) (provider : Provider)
    (st st' : DriverState) :
  reachable (tracker st) →
  loop fuel provider st = Some st' →
  reachable (tracker st').
Proof.
  revert st. induction fuel as [|fuel IH]; intros st Hreach; cbn [driverLoop];
    destruct (_ && _); try (by intros [= <-]).
  destruct (body provider st) as [[st1 [|]]|] eqn:Hbody; [| |done].
  - apply IH. by eapply loopBody_reachable.
  - intros [= <-]. by eapply loopBody_reachable.
Qed.

End Driver.

(** C6. When a result for an offset that the merge step records (a
    successful one with at least one game) comes after another one for the
    same offset, whether in a later batch or in the same one, the map holds
    the games of the second result for that offset, and it is the map that
    recording the second result alone would have given. *)
Theorem merge_overwrites (byOffset : gmap Z (list Game)) (offset e1 e2 : Z)
    (first second : @OffsetResult number) :
  recorded second = true →
  let merged1 := (processResults byOffset e1 [offset] [Fulfilled first]).1.1 in
  let merged2 := (processResults merged1 e2 [offset] [Fulfilled second]).1.1 in
  let batch := (processResults byOffset e1 [offset; offset]
                  [Fulfilled first; Fulfilled second]).1.1 in
  merged2 !! offset = Some (offset_games second)
  ∧ merged2 = <[offset := offset_games second]> byOffset
  ∧ merged2 = (processResults byOffset e2 [offset] [Fulfilled second]).1.1
  ∧ batch = merged2.
Proof.
  unfold recorded. intros Hrec. cbn. rewrite Hrec.
  destruct (offset_success first
            && (0 <? Z.of_nat (length (offset_games first)))); cbn;
    rewrite ?Hrec; cbn; rewrite ?insert_insert_eq, ?lookup_insert_eq; done.
Qed.

(** A result that is not recorded leaves the map alone. *)
Lemma merge_skips_unrecorded (byOffset : gmap Z (list Game)) (offset e : Z)
    (r : @OffsetResult number) :
  recorded r = false →
  (processResults byOffset e [offset] [Fulfilled r]).1.1 = byOffset.
Proof. unfold recorded. intros Hrec. cbn. by rewrite Hrec. Qed.

(** ** Saving and restoring *)

Lemma pagesFrom_total (existingGames : list (@Game number)) (fuel : nat)
    (i : Z) :
  Z.of_nat (length existingGames) - i ≤ Z.of_nat fuel →
  ∃ entries,
    pagesFrom fuel existingGames i = Some entries
    ∧ ∀ o, o ∈ entries.*1 ↔
        ∃ k, 0 ≤ k ∧ o = i + 39 * k ∧ o < Z.of_nat (length existingGames).
Proof.
  revert i. induction fuel as [|fuel IH]; intros i Hfuel; cbn [pagesFrom];
    destruct (Z.ltb_spec i (Z.of_nat (length existingGames))) as [Hlt|Hge];
    try lia.
  - exists []. split; [done|]. intros o. cbn. rewrite elem_of_nil.
    split; [done|]. intros (k & ? & ? & ?). lia.
  - destruct (IH (i + GAMES_PER_REQUEST CONFIG)) as (rest & -> & Hrest);
      [cbn; lia|].
    eexists. split; [reflexivity|]. intros o. cbn [fmap list_fmap fst].
    rewrite elem_of_cons, Hrest. cbn. split.
    + intros [->|(k & ? & ? & ?)]; [exists 0; lia|exists (k + 1); lia].
    + intros (k & Hk & -> & Hlen).
      destruct (decide (k = 0)) as [->|]; [left; lia|].
      right. exists (k - 1). lia.
  - exists []. split; [done|]. intros o. cbn. rewrite elem_of_nil.
    split; [done|]. intros (k & ? & ? & ?). lia.
Qed.

Lemma foldl_insert_lookup (entries : list (Z * Z)) (counts : gmap Z Z)
    (k : Z) :
  NoDup entries.*1 →
  foldl (λ m entry, <[entry.1 := entry.2]> m) counts entries !! k
    = match (list_to_map entries : gmap Z Z) !! k with
      | Some v => Some v
      | None => counts !! k
      end.
Proof.
  revert counts. induction entries as [|[k0 v0] entries IH];
    intros counts Hnodup; [done|].
  apply NoDup_cons in Hnodup as [Hk0 Hnodup].
  cbn [foldl fst snd]. rewrite IH by done. rewrite list_to_map_cons.
  destruct (decide (k = k0)) as [->|Hne].
  - rewrite (not_elem_of_list_to_map_1 entries k0 Hk0).
    by rewrite !lookup_insert_eq.
  - by rewrite !lookup_insert_ne.
Qed.

Lemma restoreCheckpoint_new (checkpointData : CheckpointData) :
  let t := restoreCheckpoint newTracker checkpointData in
  completed t = [] ∧ inProgress t = []
  ∧ (∀ o, o ∈ failed t ↔ o ∈ failed_offsets checkpointData)
  ∧ retryCount t = retry_counts checkpointData.
Proof.
  cbn. split_and!; [done|done| |].
  - intros o. rewrite elem_of_foldl_add, elem_of_nil. tauto.
  - apply map_eq. intros k.
    rewrite foldl_insert_lookup by apply NoDup_fst_map_to_list.
    rewrite list_to_map_to_list, lookup_empty.
    by destruct (retry_counts checkpointData !! k).
Qed.

Lemma markCompleted_pages (entries : list (Z * list (@Game number)))
    (t : OffsetTracker) :
  let t' := foldl (λ t entry,
                     markCompleted t entry.1 (Z.of_nat (length entry.2)))
              t entries in
  failed t' = failed t ∧ retryCount t' = retryCount t
  ∧ (∀ o, o ∈ completed t' ↔ o ∈ completed t ∨ o ∈ entries.*1)
  ∧ (∀ o, o ∈ inProgress t' → o ∈ inProgress t).
Proof.
  revert t. induction entries as [|[o0 page] entries IH]; intros t.
  - cbn. split_and!; try done. intros o. rewrite elem_of_nil. tauto.
  - cbn [foldl fst snd fmap list_fmap].
    destruct (IH (markCompleted t o0 (Z.of_nat (length page))))
      as (Hf & Hr & Hc & Hp).
    cbn zeta in *. rewrite Hf, Hr. split_and!; [done|done| |].
    + intros o. rewrite Hc, elem_of_cons. cbn. rewrite elem_of_add. tauto.
    + intros o Ho. apply Hp in Ho. cbn in Ho.
      by apply elem_of_delete in Ho as [Ho _].
Qed.

Lemma elem_of_sortAscending (l : list Z) (x : Z) :
  x ∈ sortAscending l ↔ x ∈ l.
Proof. unfold sortAscending. by rewrite merge_sort_Permutation. Qed.

(** The tracker that a run starts from is reachable when no failed offset
    of the checkpoint is the offset of a loaded page. *)
Lemma restoreTracker_reachable (fs : Files)
    (entries : list (Z * list (@Game number))) :
  (∀ checkpointData, checkpointFile fs = Some checkpointData →
     disjointSets (failed_offsets checkpointData) entries.*1) →
  reachable (restoreTracker fs entries).
Proof.
  intros Hguard. unfold restoreTracker.
  set (restored := match checkpointFile fs with
                   | Some c => restoreCheckpoint newTracker c
                   | None => newTracker
                   end).
  assert (reachable restored ∧ ∀ o, o ∈ entries.*1 → o ∉ failed restored)
    as [Hreach Hfree].
  { subst restored. destruct (checkpointFile fs) as [c|].
    - split.
      + eapply reachable_step; [apply reachable_new|].
        apply step_restoreCheckpoint; intros x _ Hx; by apply elem_of_nil in Hx.
      + intros o Ho Hf.
        destruct (restoreCheckpoint_new c) as (_ & _ & Hfailed & _).
        apply Hfailed in Hf. exact (Hguard c eq_refl o Hf Ho).
    - split; [apply reachable_new|]. intros o _. apply not_elem_of_nil. }
  clearbody restored. clear Hguard. revert restored Hreach Hfree.
  induction entries as [|[o page] entries IH]; intros t Hreach Hfree; [done|].
  cbn [foldl fst snd]. apply IH.
  - eapply reachable_step; [done|]. apply step_markCompleted.
    apply Hfree. cbn. apply elem_of_cons. by left.
  - intros o' Ho'. cbn. apply Hfree. cbn. apply elem_of_cons. by right.
Qed.

(** A run that starts with three failed offsets in its checkpoint returns
    without a single request. *)
Lemma run_with_three_failures (fetch : Z → Z → Z → FetchOutcome)
    (fuel : nat) (provider : Provider) (fs : Files) :
  ∃ entries,
    loadExistingGames fs = Some entries
    ∧ (3 ≤ JsSet.size (failed (restoreTracker fs entries)) →
       ∃ result fs',
         completeProviderParallel numberTruthy zero JSON_parse parseWithRegex
           fetch (S fuel) provider fs = Some (result, fs')
         ∧ requestsMade result = 0).
Proof.
  assert (∃ entries, loadExistingGames fs = Some entries) as [entries Hload].
  { unfold loadExistingGames. destruct (gamesFile fs) as [data|]; [|eauto].
    destruct (pagesFrom_total (games_games data) (length (games_games data)) 0)
      as (entries & -> & _); [lia|eauto]. }
  exists entries. split; [done|]. intros Hfailed.
  unfold completeProviderParallel. rewrite Hload. cbn [mbind option_bind].
  destruct (totalGames provider <=? _); [eauto|].
  match goal with
  | |- context [driverLoop _ _ _ _ _ (S fuel) provider ?st] =>
      assert (driverLoop numberTruthy zero JSON_parse parseWithRegex fetch
                (S fuel) provider st = Some st) as ->
  end.
  { cbn [driverLoop]. rewrite loopBody_three_failures by done.
    by destruct (_ && _). }
  cbn. eauto.
Qed.

(** C7, as the code has it. After [saveProviderData], the tracker that the
    next run builds has the failed offsets and the retry counts of the
    checkpoint, which are those of the saved tracker. Its completed offsets
    are not read from the checkpoint: they are the multiples of 39 below
    the number of saved games. *)
Theorem checkpoint_roundtrip (provider : Provider)
    (allGames : list (@Game number)) (t : OffsetTracker) (fs : Files) :
  let saved := (saveProviderData provider allGames t fs).1 in
  ∃ checkpointData entries,
    checkpointFile saved = Some checkpointData
    ∧ loadExistingGames saved = Some entries
    ∧ let restored := restoreTracker saved entries in
      (∀ o, o ∈ failed restored ↔ o ∈ failed_offsets checkpointData)
      ∧ (∀ o, o ∈ failed restored ↔ o ∈ failed t)
      ∧ retryCount restored = retry_counts checkpointData
      ∧ retryCount restored = retryCount t
      ∧ (∀ o, o ∈ completed restored ↔
           ∃ k, 0 ≤ k ∧ o = 39 * k ∧ o < Z.of_nat (length allGames)).
Proof.
  cbn zeta. unfold saveProviderData, loadExistingGames, restoreTracker.
  cbn [fst gamesFile checkpointFile games_games].
  destruct (pagesFrom_total allGames (length allGames) 0)
    as (entries & -> & Hentries); [lia|].
  eexists _, entries. split; [reflexivity|]. split; [reflexivity|].
  match goal with
  | |- context [restoreCheckpoint newTracker ?c] =>
      destruct (restoreCheckpoint_new c) as (Hc0 & _ & Hf0 & Hr0);
      destruct (markCompleted_pages entries (restoreCheckpoint newTracker c))
        as (Hf & Hr & Hc & _)
  end.
  cbn zeta in *. rewrite Hf, Hr, Hr0. cbn [failed_offsets retry_counts] in *.
  split_and!; try done.
  - intros o. rewrite Hf0. cbn. by rewrite elem_of_sortAscending.
  - intros o. rewrite Hc, Hc0, Hentries, elem_of_nil.
    split; [intros [[]|H]|intros H; right]; destruct H as (k & ? & ? & ?);
      exists k; split_and!; try done; lia.
Qed.

(** C7, as stated, fails for the completed offsets: a tracker in which
    offset 0 was completed without games is saved with
    [completed_offsets = [0]], and restored with no completed offset. *)
Lemma roundtrip_loses_completed_offsets :
  completed_offsets <$> checkpointFile emptyRunFiles = Some [0]
  ∧ (λ entries, completed (restoreTracker emptyRunFiles entries))
      <$> loadExistingGames emptyRunFiles = Some [].
Proof. split; reflexivity. Qed.

End PipelineProperties.

(** ** The defects, at concrete inputs *)

(** C2. A response that the parser rejects is not a failed attempt for the
    driver: when the fetched file holds [error], the request lambda marks
    the offset completed without games and counts an empty response; the
    retry counts stay as they were. *)
Theorem error_response_marked_completed {number : Type}
    (numberTruthy : number → bool) (zero : number)
    (JSON_parse : list N → Result (@jsvalue number))
    (parseWithRegex : list N → @ParseResult number)
    (provider : Provider) (tr : OffsetTracker) (requests empties offset : Z) :
  let fetch := λ _ _ _ : Z, ResponseFile (lit "error") in
  success (parseStakeResponse numberTruthy zero JSON_parse parseWithRegex
             (lit "error")) = false
  ∧ requestLambda numberTruthy zero JSON_parse parseWithRegex fetch
      provider (tr, requests, empties) offset
    = ((markCompleted tr offset 0, requests + 1, empties + 1),
       Fulfilled {| offset_of := offset; offset_games := [];
                    offset_success := true |})
  ∧ retryCount (markCompleted tr offset 0) = retryCount tr
  ∧ isCompleted (markCompleted tr offset 0) offset = true.
Proof.
  split_and!; try reflexivity.
  apply has_true, elem_of_add. by right.
Qed.

(** A fetch that fails outright is a failed attempt, by contrast. *)
Lemma timeout_marked_failed {number : Type}
    (numberTruthy : number → bool) (zero : number)
    (JSON_parse : list N → Result (@jsvalue number))
    (parseWithRegex : list N → @ParseResult number)
    (provider : Provider) (tr : OffsetTracker) (requests empties offset : Z) :
  requestLambda numberTruthy zero JSON_parse parseWithRegex alwaysTimeout
      provider (tr, requests, empties) offset
    = (((markFailed tr offset).1, requests + 1, empties),
       Fulfilled {| offset_of := offset; offset_games := [];
                    offset_success := false |}).
Proof. reflexivity. Qed.

(** Restoring marks a page completed even when the checkpoint lists its
    offset as failed: after pages 0 and 78 were fetched (39 and 22 games)
    and offset 39 had failed for good, the 61 saved games are read back as
    the pages 0 and 39, and offset 39 is both completed and failed. *)
Remark restore_completes_a_failed_offset :
  let t := {| completed := [0; 78]; failed := [39]; inProgress := [];
              retryCount := {[ 39 := 20 ]} |} in
  let saved :=
    (saveProviderData testProvider (replicate 61 (sampleGame "a")) t
       noFiles).1 in
  (λ entries, statesOf (restoreTracker saved entries) 39)
    <$> loadExistingGames saved = Some [Completed; Failed].
Proof. vm_compute. reflexivity. Qed.

(** With a retryable offset in the failed set and nothing else to fetch,
    the loop waits for a retry that [getNextOffsets] never grants: no
    amount of fuel brings it to an end. *)
Remark retryable_failure_waits_for_ever (fetch : Z → Z → Z → FetchOutcome)
    (fuel : nat) :
  driverLoop intTruthy 0 parseAnything regexFindsNothing fetch fuel
    testProvider waitingState = None.
Proof.
  induction fuel as [|fuel IH]; [reflexivity|].
  cbn [driverLoop].
  replace (loopBody intTruthy 0 parseAnything regexFindsNothing fetch
             testProvider waitingState)
    with (Some (waitingState, Continue)) by (vm_compute; reflexivity).
  exact IH.
Qed.

(** C6, as stated, fails for a second result without games: the merge
    step writes nothing for it, and the games of the first result stay in
    the map. *)
Lemma empty_second_result_keeps_first :
  offset_games emptyResult ≠ offset_games firstResult
  ∧ recorded emptyResult = false
  ∧ (processResults
       (processResults ∅ 0 [39] [Fulfilled firstResult]).1.1
       0 [39] [Fulfilled emptyResult]).1.1 !! 39
    = Some [sampleGame "a"]
  ∧ (processResults ∅ 0 [39; 39]
       [Fulfilled firstResult; Fulfilled emptyResult]).1.1 !! 39
    = Some [sampleGame "a"].
Proof. split_and!; [discriminate|reflexivity..]. Qed.


(** ** The theorems at concrete inputs *)

Lemma reachable_one_state_witness :
  reachable (markCompleted (markInProgress newTracker 0) 0 39)
  ∧ exclusive (markCompleted (markInProgress newTracker 0) 0 39)
  ∧ ∀ o, length (statesOf (markCompleted (markInProgress newTracker 0) 0 39) o)
         = 1%nat.
Proof.
  assert (reachable (markCompleted (markInProgress newTracker 0) 0 39)) as H.
  { eapply reachable_step; [eapply reachable_step; [apply reachable_new|]|].
    - apply step_markInProgress; apply not_elem_of_nil.
    - apply step_markCompleted. apply not_elem_of_nil. }
  split; [exact H|exact (reachable_one_state _ H)].
Defined.

Lemma getNextOffsets_bounded_and_fetchable_witness :
  0 ≤ 3
  ∧ ∃ t' offsets,
      getNextOffsets newTracker 0 100 3 = Some (t', offsets)
      ∧ Z.of_nat (length offsets) ≤ 3
      ∧ ∀ o, o ∈ offsets →
          isCompleted newTracker o = false
          ∧ ¬ (isFailed newTracker o = true
               ∧ MAX_RETRIES CONFIG ≤ retriesOf newTracker o)
          ∧ isInProgress newTracker o = false.
Proof.
  split; [lia|].
  apply (getNextOffsets_bounded_and_fetchable newTracker 0 100 3). lia.
Defined.

Lemma short_input_rejected_witness :
  Z.of_nat (length (trim shortPayload)) < 50
  ∧ parseStakeResponse intTruthy 0 parseAnything regexFindsNothing
      shortPayload
    = {| success := false;
         error := Some (InvalidResponse (trim shortPayload));
         games := [] |}.
Proof.
  split; [reflexivity|].
  apply (short_input_rejected intTruthy 0 parseAnything regexFindsNothing
           shortPayload).
  reflexivity.
Defined.


Lemma three_failures_end_the_run_witness :
  3 ≤ JsSet.size (failed (tracker threeFailures))
  ∧ loopBody intTruthy 0 parseAnything regexFindsNothing alwaysTimeout
      testProvider threeFailures = Some (threeFailures, Break)
  ∧ driverLoop intTruthy 0 parseAnything regexFindsNothing alwaysTimeout
      1 testProvider threeFailures = Some threeFailures.
Proof.
  split; [reflexivity|].
  apply (three_failures_end_the_run intTruthy 0 parseAnything
           regexFindsNothing alwaysTimeout testProvider threeFailures 0).
  reflexivity.
Defined.

Lemma merge_overwrites_witness :
  recorded secondResult = true
  ∧ (processResults
       (processResults ∅ 0 [39] [Fulfilled firstResult]).1.1
       0 [39] [Fulfilled secondResult]).1.1 !! 39
    = Some [sampleGame "b"; sampleGame "c"].
Proof.
  split; [reflexivity|].
  refine (proj1 (merge_overwrites ∅ 39 0 0 firstResult secondResult _)).
  reflexivity.
Defined.

(** * Further properties of the tracker *)

Lemma nextSequentialFrom_least (t : OffsetTracker) (fuel : nat) (offset : Z) :
  (length (above (completed t) offset) ≤ fuel)%nat →
  ∃ k, 0 ≤ k
       ∧ nextSequentialFrom fuel t offset = Some (offset + 39 * k)
       ∧ isCompleted t (offset + 39 * k) = false
       ∧ ∀ j, 0 ≤ j < k → isCompleted t (offset + 39 * j) = true.
Proof.
  revert offset. induction fuel as [|fuel IH]; intros offset Hfuel;
    cbn [nextSequentialFrom]; destruct (isCompleted t offset) eqn:E.
  - apply has_true in E.
    assert (offset ∈ above (completed t) offset) as Hin
      by (apply list_elem_of_filter; split; [lia|done]).
    destruct (above (completed t) offset); [by apply elem_of_nil in Hin|].
    simpl in Hfuel. lia.
  - exists 0. rewrite Z.mul_0_r, Z.add_0_r. split_and!; try done. lia.
  - pose proof E as Hin. apply has_true in Hin.
    pose proof (above_step _ _ _ GAMES_PER_REQUEST_pos Hin) as Hlt.
    destruct (IH (offset + GAMES_PER_REQUEST CONFIG)) as (k & Hk & Heq & Hnot & Hall);
      [lia|].
    change (GAMES_PER_REQUEST CONFIG) with 39 in *.
    exists (k + 1).
    replace (offset + 39 * (k + 1)) with (offset + 39 + 39 * k) by lia.
    split_and!; [lia|done|done|].
    intros j Hj. destruct (decide (j = 0)) as [->|Hne].
    + by rewrite Z.mul_0_r, Z.add_0_r.
    + replace (offset + 39 * j) with (offset + 39 + 39 * (j - 1)) by lia.
      apply Hall. lia.
  - exists 0. rewrite Z.mul_0_r, Z.add_0_r. split_and!; try done. lia.
Qed.

(** X1. [getNextSequentialOffset] returns the least multiple of 39, from 0
    on, that is not completed: every multiple below it is completed. *)
Theorem getNextSequentialOffset_least (t : OffsetTracker) :
  ∃ k, 0 ≤ k
       ∧ getNextSequentialOffset t = Some (39 * k)
       ∧ isCompleted t (39 * k) = false
       ∧ ∀ j, 0 ≤ j < k → isCompleted t (39 * j) = true.
Proof.
  destruct (nextSequentialFrom_least t (length (completed t)) 0)
    as (k & Hk & Heq & Hnot & Hall).
  { unfold above. apply length_filter. }
  exists k. rewrite Z.add_0_l in Heq, Hnot.
  split_and!; try done;
    intros j Hj; specialize (Hall j Hj); by rewrite Z.add_0_l in Hall.
Qed.

(** What the second loop of [getNextOffsets] takes and what it leaves. *)
Lemma sequentialLoop_no_gap (t : OffsetTracker) (totalGames maxOffsets : Z)
    (fuel : nat) (offsets : list Z) (offset : Z) :
  totalGames - offset ≤ Z.of_nat fuel →
  ∃ added,
    sequentialLoop fuel t totalGames maxOffsets offsets offset
      = Some (offsets ++ added)
    ∧ (∀ o, o ∈ added → ∃ j, 0 ≤ j ∧ o = offset + 39 * j)
    ∧ ∀ j, 0 ≤ j → offset + 39 * j < totalGames →
        canFetch t (offset + 39 * j) = true →
        offset + 39 * j ∈ added
        ∨ (maxOffsets ≤ Z.of_nat (length (offsets ++ added))
           ∧ ∀ x, x ∈ added → x < offset + 39 * j).
Proof.
  revert offsets offset.
  induction fuel as [|fuel IH]; intros offsets offset Hfuel;
    cbn [sequentialLoop];
    destruct (Z.ltb_spec (Z.of_nat (length offsets)) maxOffsets) as [Hlen|Hlen],
      (Z.ltb_spec offset totalGames) as [Hoff|Hoff]; cbn [andb]; try lia;
    try (exists []; rewrite app_nil_r; split_and!;
         [done|by intros o Ho; apply elem_of_nil in Ho|];
         intros j Hj Hlt Hcan; first [lia|right; split; [lia|];
           by intros x Hx; apply elem_of_nil in Hx]).
  change (GAMES_PER_REQUEST CONFIG) with 39.
  destruct (canFetch t offset) eqn:Hcan0.
  - destruct (IH (offsets ++ [offset]) (offset + 39))
      as (added & Heq & Hshape & Hgap); [lia|].
    exists (offset :: added). rewrite Heq, <- app_assoc. split_and!; [done| |].
    + intros o Ho. apply elem_of_cons in Ho as [->|Ho]; [exists 0; lia|].
      destruct (Hshape o Ho) as (j & Hj & ->). exists (j + 1). lia.
    + intros j Hj Hlt Hcan. destruct (decide (j = 0)) as [->|Hne].
      { left. rewrite Z.mul_0_r, Z.add_0_r. apply elem_of_cons. by left. }
      replace (offset + 39 * j) with (offset + 39 + 39 * (j - 1)) in * by lia.
      destruct (Hgap (j - 1)) as [Hin|[Hfull Hbelow]]; [lia|done|done| |].
      * left. apply elem_of_cons. by right.
      * right. rewrite <- app_assoc in Hfull. split; [done|].
        intros x Hx. apply elem_of_cons in Hx as [->|Hx]; [lia|by apply Hbelow].
  - destruct (IH offsets (offset + 39)) as (added & Heq & Hshape & Hgap); [lia|].
    exists added. split_and!; [done| |].
    + intros o Ho. destruct (Hshape o Ho) as (j & Hj & ->). exists (j + 1). lia.
    + intros j Hj Hlt Hcan. destruct (decide (j = 0)) as [->|Hne].
      { rewrite Z.mul_0_r, Z.add_0_r in Hcan. congruence. }
      replace (offset + 39 * j) with (offset + 39 + 39 * (j - 1)) in * by lia.
      apply Hgap; [lia|done|done].
Qed.

(** X2. [getNextOffsets] leaves the tracker as it is and returns page
    offsets (multiples of 39 from 0 and below [totalGames]) that can be
    fetched, in strictly ascending order, and it skips none: a page offset
    below [totalGames] that can be fetched is in the batch, unless the
    batch is full and ends before it. *)
Theorem getNextOffsets_ascending_without_gaps (t : OffsetTracker)
    (currentGames totalGames maxOffsets : Z) :
  ∃ offsets,
    getNextOffsets t currentGames totalGames maxOffsets = Some (t, offsets)
    ∧ StronglySorted Z.lt offsets
    ∧ (∀ o, o ∈ offsets →
         canFetch t o = true ∧ o < totalGames ∧ ∃ k, 0 ≤ k ∧ o = 39 * k)
    ∧ ∀ k, 0 ≤ k → 39 * k < totalGames → canFetch t (39 * k) = true →
        39 * k ∈ offsets
        ∨ (maxOffsets ≤ Z.of_nat (length offsets)
           ∧ ∀ x, x ∈ offsets → x < 39 * k).
Proof.
  destruct (getNextOffsets_total t currentGames totalGames maxOffsets)
    as (offsets & Heq & Hall & Hsorted & _).
  exists offsets. split; [done|]. split; [done|].
  rewrite getNextOffsets_unfold in Heq.
  destruct (nextSequentialFrom_least t (length (completed t)) 0)
    as (k0 & Hk0 & Hnext & _ & Hbelow0).
  { unfold above. apply length_filter. }
  rewrite Z.add_0_l in Hnext.
  change (getNextSequentialOffset t = Some (39 * k0)) in Hnext.
  assert (∀ j, 0 ≤ j < k0 → isCompleted t (39 * j) = true) as Hbelow.
  { intros j Hj. specialize (Hbelow0 j Hj). by rewrite Z.add_0_l in Hbelow0. }
  rewrite Hnext in Heq. cbn [mbind option_bind] in Heq.
  destruct (sequentialLoop_no_gap t totalGames maxOffsets
              (Z.to_nat (totalGames - 39 * k0)) [] (39 * k0))
    as (added & Hloop & Hshape & Hgap); [lia|].
  rewrite Hloop in Heq. cbn in Heq. injection Heq as <-. split.
  - intros o Ho. rewrite Forall_forall in Hall.
    destruct (Hall o Ho) as [Hcan [_ Hlt]]. split_and!; [done|done|].
    destruct (Hshape o Ho) as (j & Hj & ->). exists (k0 + j). lia.
  - intros k Hk Hlt Hcan.
    destruct (Z.lt_ge_cases k k0) as [Hlow|Hhigh].
    { specialize (Hbelow k (conj Hk Hlow)).
      apply canFetch_true in Hcan as [Hc _]. apply has_true in Hbelow. done. }
    replace (39 * k) with (39 * k0 + 39 * (k - k0)) in * by lia.
    apply Hgap; [lia|done|done].
Qed.

Lemma markFailed_effect (t : OffsetTracker) (o : Z) :
  retriesOf (markFailed t o).1 o = retriesOf t o + 1
  ∧ (∀ x, x ≠ o → retriesOf (markFailed t o).1 x = retriesOf t x)
  ∧ (markFailed t o).2 = (retriesOf t o + 1 <? MAX_RETRIES CONFIG)
  ∧ isFailed (markFailed t o).1 o
      = isFailed t o || (MAX_RETRIES CONFIG <=? retriesOf t o + 1)
  ∧ isInProgress (markFailed t o).1 o = false.
Proof.
  unfold markFailed, retriesOf, isFailed, isInProgress.
  destruct (Z.leb_spec (MAX_RETRIES CONFIG) (default 0 (retryCount t !! o) + 1))
    as [Hmax|Hmax]; cbn [fst snd retryCount failed inProgress].
  - split_and!.
    + by rewrite lookup_insert_eq.
    + intros x Hx. by rewrite lookup_insert_ne.
    + symmetry. apply Z.ltb_ge. done.
    + rewrite orb_true_r. apply has_true, elem_of_add. by right.
    + apply has_false. intros Hin. by apply elem_of_delete in Hin as [_ ?].
  - split_and!.
    + by rewrite lookup_insert_eq.
    + intros x Hx. by rewrite lookup_insert_ne.
    + symmetry. apply Z.ltb_lt. done.
    + by rewrite orb_false_r.
    + apply has_false. intros Hin. by apply elem_of_delete in Hin as [_ ?].
Qed.

(** [markFailed] adds one to the retry count of its offset and leaves
    the other counts alone; it answers whether the new count is still below
    [MAX_RETRIES], and the offset joins the failed set exactly when it is
    not. The offset is no longer in progress. *)
Theorem markFailed_counts (t : OffsetTracker) (o : Z) :
  retriesOf (markFailed t o).1 o = retriesOf t o + 1
  ∧ (∀ x, x ≠ o → retriesOf (markFailed t o).1 x = retriesOf t x)
  ∧ (markFailed t o).2 = (retriesOf t o + 1 <? MAX_RETRIES CONFIG)
  ∧ isFailed (markFailed t o).1 o
      = isFailed t o || (MAX_RETRIES CONFIG <=? retriesOf t o + 1)
  ∧ isInProgress (markFailed t o).1 o = false.
Proof. apply markFailed_effect. Qed.

(** X3. After [n] failures in a row of an offset, its retry count is [n]
    higher, and it is in the failed set if it was there before or if there
    was a failure and the count has reached 20. *)
Theorem failures_in_a_row (n : nat) (t : OffsetTracker) (o : Z) :
  retriesOf (failTimes n t o) o = retriesOf t o + Z.of_nat n
  ∧ isFailed (failTimes n t o) o
    = isFailed t o || ((0 <? Z.of_nat n) && (20 <=? retriesOf t o + Z.of_nat n)).
Proof.
  induction n as [|n [IHr IHf]].
  { cbn. split; [lia|]. by rewrite orb_false_r. }
  change (failTimes (S n) t o) with (markFailed (failTimes n t o) o).1.
  destruct (markFailed_effect (failTimes n t o) o) as (Hr & _ & _ & Hf & _).
  rewrite Hr, Hf, IHr, IHf. split; [lia|].
  change (MAX_RETRIES CONFIG) with 20.
  destruct (isFailed t o); [done|]. cbn [orb].
  destruct (Z.ltb_spec 0 (Z.of_nat n)), (Z.ltb_spec 0 (Z.of_nat (S n))),
    (Z.leb_spec 20 (retriesOf t o + Z.of_nat n)),
    (Z.leb_spec 20 (retriesOf t o + Z.of_nat n + 1)),
    (Z.leb_spec 20 (retriesOf t o + Z.of_nat (S n))); cbn; try reflexivity; lia.
Qed.

(** X4. Completed is final. Whatever is done to the tracker next, in any
    order and with any arguments, a completed offset stays completed, and
    [getNextOffsets] does not return it. *)
Theorem completed_is_final (t : OffsetTracker) (x : Z) :
  isCompleted t x = true →
  (∀ o, isCompleted (markInProgress t o) x = true)
  ∧ (∀ o gameCount, isCompleted (markCompleted t o gameCount) x = true)
  ∧ (∀ o, isCompleted (markFailed t o).1 x = true)
  ∧ (∀ checkpointData, isCompleted (restoreCheckpoint t checkpointData) x = true)
  ∧ ∀ currentGames totalGames maxOffsets t' offsets,
      getNextOffsets t currentGames totalGames maxOffsets = Some (t', offsets) →
      isCompleted t' x = true ∧ x ∉ offsets.
Proof.
  intros Hx. split_and!.
  - done.
  - intros o n. apply has_true, elem_of_add. left. by apply has_true.
  - intros o. destruct (markFailed_sets t o x) as (E & _).
    unfold isCompleted. by rewrite E.
  - done.
  - intros c total m t' offsets Heq.
    destruct (getNextOffsets_total t c total m) as (offsets' & Heq' & Hall & _).
    rewrite Heq' in Heq. injection Heq as <- <-. split; [done|].
    intros Hin. rewrite Forall_forall in Hall.
    destruct (Hall x Hin) as [Hcan _]. apply canFetch_true in Hcan as [Hc _].
    by apply has_true in Hx.
Qed.

(** * Further properties of the driver *)

Section FurtherDriverProperties.

Context {number : Type} (numberTruthy : number → bool) (zero : number)
        (JSON_parse : list N → Result (@jsvalue number))
        (parseWithRegex : list N → @ParseResult number)
        (fetch : Z → Z → Z → FetchOutcome).

Local Abbreviation lambda' :=
  (requestLambda numberTruthy zero JSON_parse parseWithRegex fetch).
Local Abbreviation requests' :=
  (runRequests numberTruthy zero JSON_parse parseWithRegex fetch).
Local Abbreviation body' :=
  (loopBody numberTruthy zero JSON_parse parseWithRegex fetch).
Local Abbreviation loop' :=
  (driverLoop numberTruthy zero JSON_parse parseWithRegex fetch).

(** What one request lambda does to the tracker and the counters. *)
Lemma requestLambda_effect (provider : Provider) (tr : OffsetTracker)
    (requests empties o : Z) :
  ∃ tr' empties' res,
    lambda' provider (tr, requests, empties) o
      = ((tr', requests + 1, empties'), Fulfilled res)
    ∧ inProgress tr' = JsSet.delete (inProgress tr) o
    ∧ (∀ x, x ∈ completed tr → x ∈ completed tr')
    ∧ (∀ x, x ∈ failed tr → x ∈ failed tr')
    ∧ (recorded res = true → o ∈ completed tr' ∧ empties' = empties)
    ∧ (recorded res = false →
       (o ∈ completed tr' ∧ retryCount tr' = retryCount tr
        ∧ empties' = empties + 1)
       ∨ (retriesOf tr' o = retriesOf tr o + 1 ∧ empties' = empties)).
Proof.
  unfold requestLambda.
  destruct (executeSingleRequest _ _ _ _ _ _ _ _) as [result|].
  - destruct (result_success result
              && (0 <? Z.of_nat (length (result_games result)))) eqn:Hrec.
    + eexists _, _, _. split; [reflexivity|]. cbn. split_and!; try done.
      * intros x Hx. apply elem_of_add. by left.
      * intros _. split; [|done]. apply elem_of_add. by right.
      * intros Hfalse. unfold recorded in Hfalse. cbn in Hfalse.
        apply andb_true_iff in Hrec as [_ Hpos]. congruence.
    + cbn [SKIP_MISSING_GAMES CONFIG].
      eexists _, _, _. split; [reflexivity|]. cbn. split_and!; try done.
      * intros x Hx. apply elem_of_add. by left.
      * intros _. left. split_and!; try done. apply elem_of_add. by right.
  - destruct (markFailed_sets tr o o) as (Hc & Hp & _ & _).
    destruct (markFailed_effect tr o) as (Hr & _).
    eexists _, _, _. split; [reflexivity|]. split_and!; try done.
    + intros x Hx. by rewrite Hc.
    + intros x Hx. by apply (markFailed_sets tr o x).
    + intros _. by right.
Qed.

(** What a batch of requests does to the tracker and the counters. *)
Lemma runRequests_effect (provider : Provider) (offsets : list Z)
    (tr : OffsetTracker) (requests empties : Z) :
  ∃ tr' empties' results,
    requests' provider (tr, requests, empties) offsets
      = ((tr', requests + Z.of_nat (length offsets), empties'), results)
    ∧ length results = length offsets
    ∧ (∀ x, x ∈ inProgress tr' → x ∈ inProgress tr ∧ x ∉ offsets)
    ∧ (∀ x, x ∈ completed tr → x ∈ completed tr')
    ∧ (∀ x, x ∈ failed tr → x ∈ failed tr')
    ∧ empties ≤ empties' ≤ empties + Z.of_nat (length offsets)
    ∧ ∀ o r, (o, r) ∈ zip offsets results →
        ∃ res, r = Fulfilled res ∧ (recorded res = true → o ∈ completed tr').
Proof.
  revert tr requests empties.
  induction offsets as [|o offsets IH]; intros tr requests empties.
  - exists tr, empties, []. cbn. rewrite Z.add_0_r. split_and!; try done; try lia.
    + intros x Hx. split; [done|apply not_elem_of_nil].
    + intros o r Hin. by apply elem_of_nil in Hin.
  - destruct (requestLambda_effect provider tr requests empties o)
      as (tr1 & empties1 & res & Hlambda & Hp1 & Hc1 & Hf1 & Hrec1 & Hnot1).
    destruct (IH tr1 (requests + 1) empties1)
      as (tr2 & empties2 & results & Hrun & Hlen & Hp2 & Hc2 & Hf2 & He2 & Hres2).
    exists tr2, empties2, (Fulfilled res :: results).
    assert (empties ≤ empties1 ≤ empties + 1) as He1.
    { destruct (recorded res) eqn:E.
      - destruct (Hrec1 eq_refl) as [_ ->]. lia.
      - destruct (Hnot1 eq_refl) as [(_ & _ & ->)|[_ ->]]; lia. }
    cbn [runRequests]. rewrite Hlambda, Hrun.
    split_and!; try (cbn [length]; lia).
    + replace (requests + Z.of_nat (length (o :: offsets)))
        with (requests + 1 + Z.of_nat (length offsets))
        by (cbn [length]; lia).
      done.
    + intros x Hx. destruct (Hp2 x Hx) as [Hin Hnotin]. rewrite Hp1 in Hin.
      apply elem_of_delete in Hin as [Hin Hne]. split; [done|].
      intros Hmem. apply elem_of_cons in Hmem as [->|?]; done.
    + auto.
    + auto.
    + intros o' r Hin. cbn [zip zip_with] in Hin.
      apply elem_of_cons in Hin as [[= -> ->]|Hin].
      * exists res. split; [done|]. intros E. apply Hc2. by apply Hrec1.
      * by apply Hres2.
Qed.

(** What the merge step does to the map and to [newGamesAdded]. *)
Lemma processResults_effect (entries : list (Z * Settled (@OffsetResult number)))
    (byOffset : gmap Z (list Game)) (added empties : Z) :
  ∃ byOffset' added' empties',
    foldl processResult (byOffset, added, empties) entries
      = (byOffset', added', empties')
    ∧ added ≤ added'
    ∧ (added' = added → byOffset' = byOffset ∧ empties' = empties)
    ∧ (added < added' → empties' = 0)
    ∧ ∀ o, byOffset' !! o = byOffset !! o
           ∨ ∃ res, (o, Fulfilled res) ∈ entries ∧ recorded res = true
                    ∧ byOffset' !! o = Some (offset_games res).
Proof.
  revert byOffset added empties.
  induction entries as [|[o r] entries IH]; intros byOffset added empties.
  - exists byOffset, added, empties. split_and!; try done; try lia. by left.
  - cbn [foldl processResult].
    destruct r as [res|]; [|destruct (IH byOffset added empties)
      as (m' & a' & e' & Heq & Hle & Hsame & Hreset & Hlook);
      exists m', a', e'; split_and!; try done;
      intros x; destruct (Hlook x) as [?|(res' & ? & ? & ?)]; [by left|];
      right; exists res'; split_and!; try done; apply elem_of_cons; by right].
    destruct (offset_success res
              && (0 <? Z.of_nat (length (offset_games res)))) eqn:Hrec.
    + destruct (IH (<[o := offset_games res]> byOffset)
                  (added + Z.of_nat (length (offset_games res))) 0)
        as (m' & a' & e' & Heq & Hle & Hsame & Hreset & Hlook).
      apply andb_true_iff in Hrec as Hrec'. destruct Hrec' as [_ Hpos].
      apply Z.ltb_lt in Hpos.
      exists m', a', e'. split_and!; [done|lia|lia| |].
      * intros _. destruct (decide (a' = added + Z.of_nat (length (offset_games res))))
          as [E|E]; [by apply Hsame|apply Hreset; lia].
      * intros x. destruct (Hlook x) as [Hx|(res' & ? & ? & ?)].
        -- destruct (decide (x = o)) as [->|Hne].
           ++ right. exists res. rewrite Hx, lookup_insert_eq.
              split_and!; try done. apply elem_of_cons. by left.
           ++ left. by rewrite Hx, lookup_insert_ne.
        -- right. exists res'. split_and!; try done. apply elem_of_cons. by right.
    + destruct (IH byOffset added empties)
        as (m' & a' & e' & Heq & Hle & Hsame & Hreset & Hlook).
      exists m', a', e'. split_and!; try done.
      intros x. destruct (Hlook x) as [?|(res' & ? & ? & ?)]; [by left|].
      right. exists res'. split_and!; try done. apply elem_of_cons. by right.
Qed.

Lemma markInProgress_batch_sets (offsets : list Z) (t : OffsetTracker) :
  completed (foldl markInProgress t offsets) = completed t
  ∧ failed (foldl markInProgress t offsets) = failed t
  ∧ retryCount (foldl markInProgress t offsets) = retryCount t
  ∧ ∀ x, x ∈ inProgress (foldl markInProgress t offsets) →
         x ∈ inProgress t ∨ x ∈ offsets.
Proof.
  revert t. induction offsets as [|o offsets IH]; intros t.
  { split_and!; try done. by left. }
  cbn [foldl]. destruct (IH (markInProgress t o)) as (Hc & Hf & Hr & Hp).
  rewrite Hc, Hf, Hr. split_and!; try done.
  intros x Hx. destruct (Hp x Hx) as [Hin|Hin].
  - cbn in Hin. apply elem_of_add in Hin as [?| ->]; [by left|].
    right. apply elem_of_cons. by left.
  - right. apply elem_of_cons. by right.
Qed.

(** Every pass through the loop body, in full: the batch, the state after
    it, and what became of the tracker, the map and the counters. *)
Lemma loopBody_effect (provider : Provider) (st : DriverState) :
  ∃ st' control,
    body' provider st = Some (st', control)
    ∧ requestCount st ≤ requestCount st' ≤ requestCount st + 3
    ∧ (∀ x, x ∈ inProgress (tracker st') → x ∈ inProgress (tracker st))
    ∧ (∀ x, x ∈ completed (tracker st) → x ∈ completed (tracker st'))
    ∧ (∀ x, x ∈ failed (tracker st) → x ∈ failed (tracker st'))
    ∧ (∀ o, gamesByOffset st' !! o = gamesByOffset st !! o
            ∨ ((o ∉ completed (tracker st)) ∧ o ∈ completed (tracker st')
               ∧ ∃ page, gamesByOffset st' !! o = Some page ∧ page ≠ []))
    ∧ (totalExistingGames st = countGames (gamesByOffset st) →
       totalExistingGames st' = countGames (gamesByOffset st')).
Proof.
  unfold loopBody.
  destruct (3 <=? JsSet.size (failed (tracker st))).
  { exists st, Break. split_and!; try done; try lia. by left. }
  destruct (getNextOffsets_total (tracker st) (totalExistingGames st)
              (totalGames provider) (MAX_CONCURRENT_REQUESTS CONFIG))
    as (offsets & -> & Hall & Hsorted & Hlen).
  cbn [mbind option_bind].
  destruct (bool_decide (length offsets = 0%nat)).
  { destruct (hasRetryableFailures (tracker st));
      [|destruct (0 <? JsSet.size (inProgress (tracker st)))];
      eexists _, _; (split; [reflexivity|]); cbn;
      split_and!; try done; try lia; by left. }
  assert (Z.of_nat (length offsets) ≤ 3) as Hbatch.
  { destruct Hlen as [->|Hlen]; [cbn; lia|exact Hlen]. }
  destruct (markInProgress_batch_sets offsets (tracker st))
    as (Hc2 & Hf2 & _ & Hp2).
  destruct (runRequests_effect provider offsets
              (foldl markInProgress (tracker st) offsets)
              (requestCount st) (emptyResponseCount st))
    as (t3 & empties & results & -> & Hres_len & Hp3 & Hc3 & Hf3 & _ & Hres).
  unfold processResults.
  destruct (processResults_effect (zip offsets results) (gamesByOffset st) 0
              empties)
    as (byOffset & added & empties' & -> & Hadded & Hsame & _ & Hlook).
  assert (∀ o, byOffset !! o = gamesByOffset st !! o
               ∨ ((o ∉ completed (tracker st)) ∧ o ∈ completed t3
                  ∧ ∃ page, byOffset !! o = Some page ∧ page ≠ [])) as Hmap.
  { intros o. destruct (Hlook o) as [?|(res & Hin & Hrec & Hpage)]; [by left|].
    right. destruct (Hres _ _ Hin) as (res' & [= <-] & Hdone).
    assert (o ∈ offsets) as Ho.
    { apply list_elem_of_lookup in Hin as [i Hi].
      apply lookup_zip_with_Some in Hi as (? & ? & [= <- <-] & Hi & _).
      by eapply list_elem_of_lookup_2. }
    rewrite Forall_forall in Hall. destruct (Hall o Ho) as [Hcan _].
    apply canFetch_true in Hcan as [Hnc _].
    split_and!; [done|by apply Hdone|]. exists (offset_games res).
    split; [done|]. intros E. unfold recorded in Hrec. rewrite E in Hrec.
    by rewrite andb_false_r in Hrec. }
  assert (∀ x, x ∈ inProgress t3 → x ∈ inProgress (tracker st)) as Hprog.
  { intros x Hx. destruct (Hp3 x Hx) as [Hin Hnot].
    by destruct (Hp2 x Hin). }
  rewrite Hc2 in Hc3. rewrite Hf2 in Hf3.
  destruct (Z.ltb_spec 0 added); eexists _, _; (split; [reflexivity|]); cbn;
    split_and!; try done; try lia.
  intros Htotal. by destruct Hsame as [-> _]; [lia|].
Qed.

(** *** The games held and their count *)

Lemma length_concat_pages (g : Z → list (@Game number)) (ks : list Z) :
  length (concat (g <$> ks)) = sum_list_with (λ o, length (g o)) ks.
Proof.
  induction ks as [|k ks IH]; [done|].
  cbn. rewrite length_app, IH. done.
Qed.

Lemma countGames_gamesInOrder (byOffset : gmap Z (list (@Game number))) :
  countGames byOffset = Z.of_nat (length (gamesInOrder byOffset)).
Proof.
  unfold countGames, gamesInOrder, sortAscending.
  rewrite map_fold_foldr, length_concat_pages, merge_sort_Permutation.
  assert (∀ l : list (Z * list (@Game number)),
            (∀ kv, kv ∈ l → byOffset !! kv.1 = Some kv.2) →
            foldr (uncurry (λ (_ : Z) (games : list Game) (total : Z),
                              total + Z.of_nat (length games))) 0 l
            = Z.of_nat (sum_list_with
                          (λ o, length (default [] (byOffset !! o))) l.*1))
    as Hsum.
  { induction l as [|[k v] l IH]; intros Hin; [done|].
    pose proof (Hin (k, v) ltac:(apply elem_of_cons; by left)) as Hk.
    cbn in Hk. cbn.
    rewrite IH by (intros kv Hkv; apply Hin, elem_of_cons; by right).
    rewrite Hk. cbn. lia. }
  apply Hsum. intros [k v] Hkv. by apply elem_of_map_to_list in Hkv.
Qed.

(** What the pages cut from the saved games are. *)
Lemma pagesFrom_pages (existingGames : list (@Game number)) (fuel : nat)
    (i : Z) :
  0 ≤ i → Z.of_nat (length existingGames) - i ≤ Z.of_nat fuel →
  ∃ entries,
    pagesFrom fuel existingGames i = Some entries
    ∧ concat entries.*2 = drop (Z.to_nat i) existingGames
    ∧ StronglySorted Z.lt entries.*1
    ∧ Forall (λ entry, i ≤ entry.1
                       ∧ (0 < length entry.2 ≤ 39)%nat) entries.
Proof.
  revert i. induction fuel as [|fuel IH]; intros i Hi Hfuel; cbn [pagesFrom];
    destruct (Z.ltb_spec i (Z.of_nat (length existingGames))) as [Hlt|Hge];
    try lia;
    try (exists []; split_and!; try done; try constructor;
         cbn; symmetry; apply drop_ge; lia).
  change (GAMES_PER_REQUEST CONFIG) with 39.
  destruct (IH (i + 39)) as (rest & -> & Hconcat & Hsorted & Hall); [lia|lia|].
  eexists. split; [reflexivity|]. cbn [fmap list_fmap fst snd concat].
  split_and!.
  - rewrite Hconcat.
    replace (Z.to_nat (i + 39)) with (Z.to_nat i + 39)%nat by lia.
    rewrite <- drop_drop. apply take_drop.
  - constructor; [done|]. rewrite Forall_fmap.
    eapply Forall_impl; [exact Hall|]. cbn. intros entry [? _]. lia.
  - constructor.
    + cbn. split; [lia|]. rewrite length_take, length_drop. lia.
    + eapply Forall_impl; [exact Hall|]. cbn. intros entry [? ?].
      split; [lia|done].
Qed.

Lemma foldl_insert_pages (entries : list (Z * list (@Game number)))
    (byOffset : gmap Z (list Game)) (k : Z) :
  NoDup entries.*1 →
  foldl (λ m entry, <[entry.1 := entry.2]> m) byOffset entries !! k
    = match (list_to_map entries : gmap Z (list Game)) !! k with
      | Some v => Some v
      | None => byOffset !! k
      end.
Proof.
  revert byOffset. induction entries as [|[k0 v0] entries IH];
    intros byOffset Hnodup; [done|].
  apply NoDup_cons in Hnodup as [Hk0 Hnodup].
  cbn [foldl fst snd]. rewrite IH by done. rewrite list_to_map_cons.
  destruct (decide (k = k0)) as [->|Hne].
  - rewrite (not_elem_of_list_to_map_1 entries k0 Hk0).
    by rewrite !lookup_insert_eq.
  - by rewrite !lookup_insert_ne.
Qed.

Lemma StronglySorted_lt_le (l : list Z) :
  StronglySorted Z.lt l → StronglySorted Z.le l.
Proof.
  induction 1 as [|x l _ IH Hall]; constructor; [done|].
  eapply Forall_impl; [exact Hall|]. cbn. intros y. lia.
Qed.

(** The map built from pages in ascending order hands the pages back in
    that order. *)
Lemma gamesInOrder_pages (entries : list (Z * list (@Game number))) :
  StronglySorted Z.lt entries.*1 →
  gamesInOrder (foldl (λ m entry, <[entry.1 := entry.2]> m) ∅ entries)
    = concat entries.*2.
Proof.
  intros Hsorted. pose proof (StronglySorted_lt_NoDup _ Hsorted) as Hnodup.
  set (m := foldl (λ m entry, <[entry.1 := entry.2]> m) ∅ entries).
  assert (m = list_to_map entries) as Hm.
  { apply map_eq. intros k. subst m. rewrite foldl_insert_pages by done.
    rewrite lookup_empty. by destruct (list_to_map entries !! k). }
  unfold gamesInOrder, sortAscending.
  assert (merge_sort Z.le (map_to_list m).*1 = entries.*1) as ->.
  { apply (Sorted_unique Z.le (AntiSymm0 := λ x y, Z.le_antisymm x y)).
    - apply (Sorted_merge_sort Z.le).
    - by apply StronglySorted_Sorted, StronglySorted_lt_le.
    - rewrite merge_sort_Permutation, Hm.
      by rewrite map_to_list_to_map. }
  f_equal. rewrite Hm. clear m Hm Hsorted.
  induction entries as [|[k v] entries IH]; [done|].
  apply NoDup_cons in Hnodup as [Hk Hnodup].
  cbn [fmap list_fmap fst snd]. rewrite list_to_map_cons, lookup_insert_eq.
  cbn. f_equal. rewrite <- IH by done.
  apply list_fmap_ext. intros i k' Hk'.
  rewrite lookup_insert_ne; [done|]. intros ->.
  apply Hk. by eapply list_elem_of_lookup_2.
Qed.

(** *** Turns and runs *)

Lemma driverLoop_invariant (P : DriverState → Prop) (provider : Provider) :
  (∀ st st' control,
     P st → body' provider st = Some (st', control) → P st') →
  ∀ fuel st st', P st → loop' fuel provider st = Some st' → P st'.
Proof.
  intros Hstep fuel. induction fuel as [|fuel IH]; intros st st' HP;
    cbn [driverLoop]; destruct (_ && _); try (by intros [= <-]).
  destruct (body' provider st) as [[st1 [|]]|] eqn:Hbody; [| |done].
  - apply IH. by eapply Hstep.
  - intros [= <-]. by eapply Hstep.
Qed.

(** X5. A turn of the driver's loop always comes to an end, and it makes
    at most three requests. *)
Theorem turn_makes_at_most_three_requests (provider : Provider)
    (st : DriverState) :
  ∃ st' control,
    body' provider st = Some (st', control)
    ∧ requestCount st ≤ requestCount st' ≤ requestCount st + 3.
Proof.
  destruct (loopBody_effect provider st) as (st' & control & Hbody & Hreq & _).
  by exists st', control.
Qed.

(** X6. No offset is left in progress: when the loop is entered with an
    empty in-progress set, the set is empty when the loop ends. *)
Theorem loop_leaves_nothing_in_progress (provider : Provider) (fuel : nat)
    (st st' : DriverState) :
  inProgress (tracker st) = [] →
  loop' fuel provider st = Some st' →
  inProgress (tracker st') = [].
Proof.
  apply (driverLoop_invariant (λ st, inProgress (tracker st) = [])).
  clear. intros st st' control Hempty Hbody.
  destruct (loopBody_effect provider st)
    as (st1 & control1 & Hbody1 & _ & Hprog & _).
  rewrite Hbody in Hbody1. injection Hbody1 as <- <-.
  apply elem_of_nil_inv. intros x Hx. apply Hprog in Hx.
  rewrite Hempty in Hx. by apply elem_of_nil in Hx.
Qed.

(** X7. The loop keeps what it holds. When every offset with a page in the
    map is completed on entry, every page of the map is still there,
    unchanged, when the loop ends; the pages added belong to offsets that
    were not completed, and every offset with a page is completed. *)
Theorem loop_keeps_pages (provider : Provider) (fuel : nat)
    (st st' : DriverState) :
  (∀ o, is_Some (gamesByOffset st !! o) → o ∈ completed (tracker st)) →
  loop' fuel provider st = Some st' →
  (∀ o page, gamesByOffset st !! o = Some page →
             gamesByOffset st' !! o = Some page)
  ∧ (∀ o, is_Some (gamesByOffset st' !! o) → o ∈ completed (tracker st')).
Proof.
  intros Hdom.
  apply (driverLoop_invariant
           (λ s, (∀ o page, gamesByOffset st !! o = Some page →
                            gamesByOffset s !! o = Some page)
                 ∧ (∀ o, is_Some (gamesByOffset s !! o) →
                         o ∈ completed (tracker s)))); [|done].
  clear st' fuel. intros s s' control [Hkept Hdom_s] Hbody.
  destruct (loopBody_effect provider s)
    as (s1 & control1 & Hbody1 & _ & _ & Hcompleted & _ & Hmap & _).
  rewrite Hbody in Hbody1. injection Hbody1 as <- <-. split.
  - intros o page Hpage. specialize (Hkept o page Hpage).
    destruct (Hmap o) as [->|(Hnot & _)]; [done|].
    destruct Hnot. apply Hdom_s. by rewrite Hkept.
  - intros o Ho. destruct (Hmap o) as [Heq|(_ & Hin & _)]; [|done].
    rewrite Heq in Ho. by apply Hcompleted, Hdom_s.
Qed.

(** X8. The running total is the number of games held: when
    [totalExistingGames] counts the games of the map on entry, it does so
    when the loop ends, and it is the length of the list the driver then
    saves. *)
Theorem loop_total_is_count (provider : Provider) (fuel : nat)
    (st st' : DriverState) :
  totalExistingGames st = countGames (gamesByOffset st) →
  loop' fuel provider st = Some st' →
  totalExistingGames st' = Z.of_nat (length (gamesInOrder (gamesByOffset st'))).
Proof.
  intros Htotal Hloop. rewrite <- countGames_gamesInOrder. revert Htotal Hloop.
  apply (driverLoop_invariant
           (λ s, totalExistingGames s = countGames (gamesByOffset s))).
  clear. intros st st' control Htotal Hbody.
  destruct (loopBody_effect provider st)
    as (st1 & control1 & Hbody1 & _ & _ & _ & _ & _ & Hcount).
  rewrite Hbody in Hbody1. injection Hbody1 as <- <-. by apply Hcount.
Qed.

(** X9. Every request settles its offset. The lambda's promise is
    fulfilled whatever the fetch did; one more request is counted; the
    offset is no longer in progress, and either it is completed or its
    retry count went up by one. *)
Theorem request_settles_offset (provider : Provider) (tr : OffsetTracker)
    (requests empties o : Z) :
  ∃ tr' empties' res,
    lambda' provider (tr, requests, empties) o
      = ((tr', requests + 1, empties'), Fulfilled res)
    ∧ isInProgress tr' o = false
    ∧ (isCompleted tr' o = true ∨ retriesOf tr' o = retriesOf tr o + 1).
Proof.
  destruct (requestLambda_effect provider tr requests empties o)
    as (tr' & empties' & res & Heq & Hprog & _ & _ & Hrec & Hnot).
  exists tr', empties', res. split_and!; [done| |].
  - apply has_false. rewrite Hprog. intros Hin.
    by apply elem_of_delete in Hin as [_ ?].
  - destruct (recorded res) eqn:E.
    + left. apply has_true. by apply Hrec.
    + destruct (Hnot eq_refl) as [(Hin & _)|[Hretry _]];
        [left; by apply has_true|by right].
Qed.

End FurtherDriverProperties.

(** * Further properties of saving and of a whole run *)

Lemma foldr_max_spec (l : list Z) :
  -1 ≤ foldr Z.max (-1) l
  ∧ (∀ x, x ∈ l → x ≤ foldr Z.max (-1) l)
  ∧ (foldr Z.max (-1) l = -1 ∨ foldr Z.max (-1) l ∈ l).
Proof.
  induction l as [|y l (Hlow & Hmax & Hmem)]; cbn.
  - split_and!; [lia| |by left]. intros x Hx. by apply elem_of_nil in Hx.
  - split_and!; [lia| |].
    + intros x Hx. apply elem_of_cons in Hx as [->|Hx]; [lia|].
      specialize (Hmax x Hx). lia.
    + destruct (Z.max_spec y (foldr Z.max (-1) l)) as [[_ ->]|[_ ->]].
      * destruct Hmem as [->|Hin]; [by left|]. right. apply elem_of_cons.
        by right.
      * right. apply elem_of_cons. by left.
Qed.

Section FurtherRunProperties.

Context {number : Type} (numberTruthy : number → bool) (zero : number)
        (JSON_parse : list N → Result (@jsvalue number))
        (parseWithRegex : list N → @ParseResult number)
        (fetch : Z → Z → Z → FetchOutcome).

(** X10. The fields of a saved checkpoint agree with one another and with
    what was saved: the games file holds the games, both files count them,
    completeness is decided by the provider's total and told three times
    alike, the completed offsets are listed in ascending order, and the
    last successful offset is the greatest completed offset, or -1 when no
    offset at or above -1 is completed. *)
Theorem saved_checkpoint_consistent (provider : Provider)
    (allGames : list (@Game number)) (t : OffsetTracker) (fs : Files) :
  ∃ data checkpointData,
    gamesFile (saveProviderData provider allGames t fs).1 = Some data
    ∧ checkpointFile (saveProviderData provider allGames t fs).1
        = Some checkpointData
    ∧ games_games data = allGames
    ∧ games_games_fetched data = Z.of_nat (length allGames)
    ∧ games_fetched checkpointData = Z.of_nat (length allGames)
    ∧ total_games checkpointData = totalGames provider
    ∧ is_complete checkpointData
        = (totalGames provider <=? Z.of_nat (length allGames))
    ∧ needs_pagination checkpointData = negb (is_complete checkpointData)
    ∧ (status checkpointData = StatusCompleted
       ↔ is_complete checkpointData = true)
    ∧ Sorted Z.le (completed_offsets checkpointData)
    ∧ completed_offsets checkpointData ≡ₚ completed t
    ∧ (∀ x, x ∈ completed t → x ≤ last_successful_offset checkpointData)
    ∧ (last_successful_offset checkpointData = -1
       ∨ last_successful_offset checkpointData ∈ completed t).
Proof.
  eexists _, _. split; [reflexivity|]. split; [reflexivity|].
  cbn -[Z.leb Z.ltb].
  destruct (foldr_max_spec (sortAscending (completed t)))
    as (_ & Hmax & Hmem).
  split_and!; try done.
  - apply Z.ltb_antisym.
  - by destruct (_ <=? _).
  - apply (Sorted_merge_sort Z.le).
  - apply merge_sort_Permutation.
  - intros x Hx. apply Hmax. by apply elem_of_sortAscending.
  - destruct Hmem as [?|Hin]; [by left|right].
    by apply elem_of_sortAscending.
Qed.

(** X11. Saved games come back as they were. What [saveProviderData]
    writes is cut, at the next start, into pages of at most 39 games, none
    empty, at ascending offsets; put in the map and read in order they are
    the saved games, in the saved order, and they count as many. *)
Theorem saved_games_reload_in_order (provider : Provider)
    (allGames : list (@Game number)) (t : OffsetTracker) (fs : Files) :
  ∃ entries,
    loadExistingGames (saveProviderData provider allGames t fs).1
      = Some entries
    ∧ StronglySorted Z.lt entries.*1
    ∧ Forall (λ entry, (0 < length entry.2 ≤ 39)%nat) entries
    ∧ gamesInOrder (foldl (λ m entry, <[entry.1 := entry.2]> m) ∅ entries)
      = allGames
    ∧ countGames (foldl (λ m entry, <[entry.1 := entry.2]> m) ∅ entries)
      = Z.of_nat (length allGames).
Proof.
  unfold loadExistingGames. cbn [saveProviderData fst gamesFile games_games].
  destruct (pagesFrom_pages allGames (length allGames) 0)
    as (entries & Hpages & Hconcat & Hsorted & Hall); [lia|lia|].
  exists entries. split; [done|]. split; [done|].
  assert (gamesInOrder
            (foldl (λ m entry, <[entry.1 := entry.2]> m) ∅ entries)
          = allGames) as Horder.
  { rewrite gamesInOrder_pages by done. by rewrite Hconcat. }
  split_and!; [|done|].
  - eapply Forall_impl; [exact Hall|]. cbn. tauto.
  - by rewrite countGames_gamesInOrder, Horder.
Qed.

(** X12. A provider whose saved games already reach its total is left
    alone: the run makes no request, touches no file and reports it
    complete, with the number of saved games. *)
Theorem complete_provider_makes_no_request (fuel : nat) (provider : Provider)
    (fs : Files) (data : GamesData) :
  gamesFile fs = Some data →
  totalGames provider ≤ Z.of_nat (length (games_games data)) →
  completeProviderParallel numberTruthy zero JSON_parse parseWithRegex fetch
    fuel provider fs
  = Some ({| completion_totalGames := Z.of_nat (length (games_games data));
             requestsMade := 0;
             isComplete := true |}, fs).
Proof.
  intros Hfile Htotal. unfold completeProviderParallel, loadExistingGames.
  rewrite Hfile.
  destruct (pagesFrom_pages (games_games data) (length (games_games data)) 0)
    as (entries & -> & Hconcat & Hsorted & _); [lia|lia|].
  cbn [mbind option_bind].
  rewrite countGames_gamesInOrder, gamesInOrder_pages, Hconcat by done.
  replace (drop (Z.to_nat 0) (games_games data)) with (games_games data)
    by done.
  destruct (Z.leb_spec (totalGames provider)
              (Z.of_nat (length (games_games data)))); [done|lia].
Qed.

End FurtherRunProperties.

(** * The budget of empty responses *)

Section EmptyResponses.

Context {number : Type} (numberTruthy : number → bool) (zero : number)
        (JSON_parse : list N → Result (@jsvalue number))
        (parseWithRegex : list N → @ParseResult number)
        (fetch : Z → Z → Z → FetchOutcome).

Hypothesis Hnothing :
  nothingToFetch numberTruthy zero JSON_parse parseWithRegex fetch.

Lemma runRequests_nothing (provider : Provider) (offsets : list Z)
    (tr : OffsetTracker) (requests empties : Z) :
  runRequests numberTruthy zero JSON_parse parseWithRegex fetch provider
    (tr, requests, empties) offsets
  = ((foldl (λ t o, markCompleted t o 0) tr offsets,
      requests + Z.of_nat (length offsets),
      empties + Z.of_nat (length offsets)),
     (λ o, Fulfilled {| offset_of := o; offset_games := [];
                        offset_success := true |}) <$> offsets).
Proof.
  revert tr requests empties.
  induction offsets as [|o offsets IH]; intros tr requests empties.
  { cbn. by rewrite !Z.add_0_r. }
  cbn [runRequests]. unfold requestLambda at 1, executeSingleRequest.
  destruct (Hnothing o (requestLimit provider o) (requests + 1))
    as (responseData & -> & Hempty).
  cbn [result_success result_games]. rewrite Hempty.
  cbn [SKIP_MISSING_GAMES CONFIG]. rewrite IH. cbn [foldl fmap list_fmap].
  replace (Z.of_nat (length (o :: offsets)))
    with (1 + Z.of_nat (length offsets)) by (cbn [length]; lia).
  by rewrite !Z.add_assoc.
Qed.

Lemma processResults_nothing (byOffset : gmap Z (list (@Game number)))
    (added empties : Z) (offsets : list Z) :
  foldl processResult (byOffset, added, empties)
    (zip offsets
       ((λ o, Fulfilled {| offset_of := o; offset_games := [];
                           offset_success := true |}) <$> offsets))
  = (byOffset, added, empties).
Proof. induction offsets as [|o offsets IH]; [done|]. cbn. exact IH. Qed.

Lemma markCompleted_batch_sets (offsets : list Z) (t : OffsetTracker) :
  failed (foldl (λ t o, markCompleted t o 0) t offsets) = failed t
  ∧ retryCount (foldl (λ t o, markCompleted t o 0) t offsets) = retryCount t.
Proof.
  revert t. induction offsets as [|o offsets IH]; intros t; [done|].
  cbn [foldl]. destruct (IH (markCompleted t o 0)) as [-> ->]. done.
Qed.

Lemma hasRetryableFailures_ext (t t' : OffsetTracker) :
  failed t' = failed t → retryCount t' = retryCount t →
  hasRetryableFailures t' = hasRetryableFailures t.
Proof.
  intros Hf Hr. unfold hasRetryableFailures, retriesOf. by rewrite Hf, Hr.
Qed.

(** A turn of the loop when there is nothing to fetch: it ends the loop,
    or it spends one unit of the budget for each request it makes. *)
Lemma loopBody_nothing (provider : Provider) (st : DriverState) :
  hasRetryableFailures (tracker st) = false →
  inProgress (tracker st) = [] →
  ∃ st' control,
    loopBody numberTruthy zero JSON_parse parseWithRegex fetch provider st
      = Some (st', control)
    ∧ hasRetryableFailures (tracker st') = false
    ∧ inProgress (tracker st') = []
    ∧ gamesByOffset st' = gamesByOffset st
    ∧ failed (tracker st') = failed (tracker st)
    ∧ totalExistingGames st' = totalExistingGames st
    ∧ ((control = Break ∧ emptyResponseCount st' = emptyResponseCount st
        ∧ requestCount st' = requestCount st)
       ∨ ∃ k, 1 ≤ k ≤ 3
              ∧ emptyResponseCount st' = emptyResponseCount st + k
              ∧ requestCount st' = requestCount st + k).
Proof.
  intros Hretry Hprog.
  destruct (loopBody_effect numberTruthy zero JSON_parse parseWithRegex fetch
              provider st) as (st1 & control1 & Hbody & _ & Hprog1 & _).
  assert (inProgress (tracker st1) = []) as Hprog1'.
  { apply elem_of_nil_inv. intros x Hx. apply Hprog1 in Hx.
    rewrite Hprog in Hx. by apply elem_of_nil in Hx. }
  exists st1, control1. split; [done|]. revert Hbody. unfold loopBody.
  destruct (3 <=? JsSet.size (failed (tracker st))).
  { intros [= <- <-]. split_and!; try done. by left. }
  destruct (getNextOffsets_total (tracker st) (totalExistingGames st)
              (totalGames provider) (MAX_CONCURRENT_REQUESTS CONFIG))
    as (offsets & -> & _ & _ & Hlen).
  cbn [mbind option_bind].
  destruct (bool_decide (length offsets = 0%nat)) eqn:Hnil.
  { rewrite Hretry, Hprog. cbn. intros [= <- <-]. split_and!; try done.
    by left. }
  apply bool_decide_eq_false in Hnil.
  rewrite runRequests_nothing. unfold processResults.
  rewrite processResults_nothing. cbn [Z.ltb Z.compare].
  intros [= <- <-]. cbn.
  destruct (markCompleted_batch_sets offsets
              (foldl markInProgress (tracker st) offsets)) as [Hf Hr].
  destruct (markInProgress_batch_sets offsets (tracker st))
    as (_ & Hf' & Hr' & _).
  split_and!; try done.
  - rewrite <- Hretry. apply hasRetryableFailures_ext; congruence.
  - congruence.
  - right. exists (Z.of_nat (length offsets)). split_and!; try done;
      destruct Hlen as [->|Hlen]; cbn in *; lia.
Qed.

Lemma driverLoop_nothing (provider : Provider) (fuel : nat)
    (st : DriverState) :
  hasRetryableFailures (tracker st) = false →
  inProgress (tracker st) = [] →
  MAX_EMPTY_ATTEMPTS CONFIG - emptyResponseCount st ≤ Z.of_nat fuel →
  ∃ st',
    driverLoop numberTruthy zero JSON_parse parseWithRegex fetch fuel
      provider st = Some st'
    ∧ gamesByOffset st' = gamesByOffset st
    ∧ failed (tracker st') = failed (tracker st)
    ∧ requestCount st' - requestCount st
      = emptyResponseCount st' - emptyResponseCount st
    ∧ emptyResponseCount st ≤ emptyResponseCount st'
    ∧ emptyResponseCount st' ≤ Z.max (emptyResponseCount st) 12.
Proof.
  change (MAX_EMPTY_ATTEMPTS CONFIG) with 10.
  revert st. induction fuel as [|fuel IH]; intros st Hretry Hprog Hfuel;
    cbn [driverLoop]; change (MAX_EMPTY_ATTEMPTS CONFIG) with 10;
    destruct (Z.ltb_spec (emptyResponseCount st) 10) as [Hbudget|Hbudget];
    rewrite ?andb_false_r; try lia;
    try (exists st; split_and!; try done; lia).
  destruct (totalExistingGames st <? totalGames provider); cbn [andb];
    [|exists st; split_and!; try done; lia].
  destruct (loopBody_nothing provider st Hretry Hprog)
    as (st1 & control & -> & Hretry1 & Hprog1 & Hmap & Hfailed & _ & Hcount).
  destruct Hcount as [(-> & He & Hr)|(k & Hk & He & Hr)].
  { exists st1. split_and!; try done; lia. }
  destruct control.
  - destruct (IH st1 Hretry1 Hprog1) as (st' & -> & Hmap' & Hfailed' & ?);
      [lia|].
    exists st'. split_and!; try congruence; lia.
  - exists st1. split_and!; try done; lia.
Qed.

(** X13. When every fetch brings a response without games, the budget of
    empty responses ends the loop: entered with nothing in progress and no
    retryable failure, it returns within ten turns, after at most twelve
    requests, and the map and the failed set are as they were. *)
Theorem empty_responses_end_the_loop (provider : Provider) (fuel : nat)
    (st : DriverState) :
  hasRetryableFailures (tracker st) = false →
  inProgress (tracker st) = [] →
  0 ≤ emptyResponseCount st →
  (10 ≤ fuel)%nat →
  ∃ st',
    driverLoop numberTruthy zero JSON_parse parseWithRegex fetch fuel
      provider st = Some st'
    ∧ requestCount st' ≤ requestCount st + 12
    ∧ gamesByOffset st' = gamesByOffset st
    ∧ failed (tracker st') = failed (tracker st).
Proof.
  intros Hretry Hprog Hempties Hfuel.
  destruct (driverLoop_nothing provider fuel st Hretry Hprog)
    as (st' & Hloop & Hmap & Hfailed & Hcount & ? & ?).
  { change (MAX_EMPTY_ATTEMPTS CONFIG) with 10. lia. }
  exists st'. split_and!; try done. lia.
Qed.

End EmptyResponses.

(** * The provider table *)

Lemma elem_of_foldl_addString (s l : list (list N)) (x : list N) :
  x ∈ foldl addString s l ↔ x ∈ s ∨ x ∈ l.
Proof.
  revert s. induction l as [|y l IH]; intros s; cbn [foldl].
  - rewrite elem_of_nil. tauto.
  - rewrite IH, elem_of_cons. unfold addString. case_bool_decide as Hy.
    + split; [tauto|]. intros [H|[->|H]]; auto.
    + rewrite elem_of_app, list_elem_of_singleton. tauto.
Qed.

Lemma isRealProvider_spec (slug : list N) :
  isRealProvider slug = true ↔ ∃ p, p ∈ STAKE_PROVIDERS ∧ entry_slug p = slug.
Proof.
  unfold isRealProvider, REAL_PROVIDER_SLUGS.
  rewrite bool_decide_eq_true, elem_of_foldl_addString, elem_of_nil,
    list_elem_of_fmap.
  split.
  - intros [[]|(p & -> & Hp)]. by exists p.
  - intros (p & Hp & <-). right. by exists p.
Qed.

Lemma name_map_lookup_other (entries : list ProviderEntry)
    (m : gmap (list N) (list N)) (slug : list N) :
  slug ∉ entry_slug <$> entries →
  foldl (λ m p, <[entry_slug p := entry_name p]> m) m entries !! slug
  = m !! slug.
Proof.
  revert m. induction entries as [|p entries IH]; intros m Hnot; [done|].
  cbn [foldl]. rewrite fmap_cons, not_elem_of_cons in Hnot.
  destruct Hnot as [Hp Hnot]. rewrite IH by done.
  by rewrite lookup_insert_ne.
Qed.

Lemma table_names_computed :
  forallb (λ p, bool_decide (getProviderName (entry_slug p)
                             = Some (entry_name p))) STAKE_PROVIDERS = true.
Proof. vm_compute. reflexivity. Qed.

Lemma table_names :
  Forall (λ p, getProviderName (entry_slug p) = Some (entry_name p))
    STAKE_PROVIDERS.
Proof.
  apply Forall_forall. intros p Hp. apply list_elem_of_In in Hp.
  pose proof table_names_computed as Hall.
  rewrite forallb_forall in Hall.
  apply Hall in Hp. apply bool_decide_eq_true in Hp. exact Hp.
Qed.

Lemma categories_computed :
  forallb (λ c, negb (isRealProvider c)) GAME_CATEGORIES = true.
Proof. vm_compute. reflexivity. Qed.

Lemma categories_are_no_providers :
  Forall (λ c, isRealProvider c = false) GAME_CATEGORIES.
Proof.
  apply Forall_forall. intros c Hc. apply list_elem_of_In in Hc.
  pose proof categories_computed as Hall.
  rewrite forallb_forall in Hall.
  apply Hall in Hc. apply negb_true_iff in Hc. exact Hc.
Qed.

(** X14. [validateProvider] accepts exactly the slugs of the table, and
    for those [getProviderName] returns the name of the table's entry; it
    rejects every game category; and [getProviderName] returns [null]
    exactly for the slugs that [isRealProvider] rejects. *)
Theorem validateProvider_is_the_table (slug : list N) :
  (validateProvider slug = true
   ↔ ∃ p, p ∈ STAKE_PROVIDERS ∧ entry_slug p = slug
          ∧ getProviderName slug = Some (entry_name p))
  ∧ (isGameCategory slug = true → validateProvider slug = false)
  ∧ (getProviderName slug = None ↔ isRealProvider slug = false).
Proof.
  assert (validateProvider slug = isRealProvider slug) as Hvalid.
  { unfold validateProvider. by repeat case_match. }
  assert (isRealProvider slug = true →
          ∃ p, p ∈ STAKE_PROVIDERS ∧ entry_slug p = slug
               ∧ getProviderName slug = Some (entry_name p)) as Hname.
  { intros (p & Hp & <-)%isRealProvider_spec. exists p.
    split_and!; [done..|].
    by apply (proj1 (Forall_forall _ _) table_names). }
  split_and!.
  - rewrite Hvalid. split; [done|].
    intros (p & Hp & Hslug & _).
    apply (proj2 (isRealProvider_spec slug)). exists p.
    split; [exact Hp|exact Hslug].
  - rewrite Hvalid. unfold isGameCategory. rewrite bool_decide_eq_true.
    apply (proj1 (Forall_forall _ _) categories_are_no_providers).
  - split.
    + intros Hnone. destruct (isRealProvider slug) eqn:Hreal; [|done].
      destruct (Hname eq_refl) as (p & _ & _ & Hsome). congruence.
    + intros Hreal. unfold getProviderName, PROVIDER_NAME_MAP.
      rewrite name_map_lookup_other; [done|].
      intros (p & -> & Hp)%list_elem_of_fmap.
      assert (isRealProvider (entry_slug p) = true) as Htrue
        by (apply (proj2 (isRealProvider_spec (entry_slug p))); exists p;
            split; [exact Hp|reflexivity]).
      congruence.
Qed.

(** * Scanning the checkpoints and ordering the runs *)

Lemma lit_app (a b : string) : lit (a ++ b) = lit a ++ lit b.
Proof.
  unfold lit. induction a as [|c a IH]; [done|].
  change (String c a +:+ b) with (String c (a +:+ b)).
  cbn [String.list_ascii_of_string fmap list_fmap app]. f_equal. exact IH.
Qed.

Lemma startsWith_app (a b : list N) : startsWith (a ++ b) a = true.
Proof.
  induction a as [|c a IH]; [by destruct b|].
  cbn. rewrite IH. by rewrite bool_decide_eq_true_2.
Qed.

Lemma isCheckpointFile_name (provider : Provider) :
  isCheckpointFile (checkpointFileName provider) = true.
Proof.
  unfold isCheckpointFile, checkpointFileName, endsWith.
  apply andb_true_iff. split.
  - rewrite lit_app. apply startsWith_app.
  - change "_initial.json"%string with ("_initial" ++ ".json")%string.
    rewrite !lit_app, !app_assoc, reverse_app. apply startsWith_app.
Qed.

Section Scan.

Context {number : Type}.

(** X15. A checkpoint written by the parallel [saveProviderData] is found
    by [scanAllProviders]: the file name passes the filter, and the
    scanned entry carries the provider that was saved (slug, name,
    totalGames and outputDir), the number of games saved, and a positive
    [remainingGames] exactly when [needsCompletion] is set, so that the
    parallel and the sequential scripts select it alike. *)
Theorem scan_finds_saved_checkpoint (provider : Provider)
    (allGames : list (@Game number)) (t : OffsetTracker)
    (fs : @Files number) :
  ∃ entry,
    scanAllProviders
      (Some [(checkpointFileName provider,
              storedCheckpoint provider
                <$> checkpointFile (saveProviderData provider allGames t fs).1)])
    = [entry]
    ∧ scanned entry = provider
    ∧ fetchedGames entry = Z.of_nat (length allGames)
    ∧ remainingGames entry = totalGames provider - Z.of_nat (length allGames)
    ∧ needsCompletion entry = (0 <? remainingGames entry)
    ∧ scanned_isComplete entry = negb (needsCompletion entry)
    ∧ incompleteProviders [entry] = providersNeedingCompletion [entry]
    ∧ scanned_checkpointFile entry
      = pathJoin "checkpoints" (checkpointFileName provider).
Proof.
  eexists. split.
  { unfold scanAllProviders. rewrite filter_cons_True
      by (cbn [fst]; apply isCheckpointFile_name).
    rewrite filter_nil. cbn. reflexivity. }
  assert ((totalGames provider <=? Z.of_nat (length allGames))
          = negb (0 <? totalGames provider - Z.of_nat (length allGames)))
    as Hle by lia.
  assert ((Z.of_nat (length allGames) <? totalGames provider)
          = (0 <? totalGames provider - Z.of_nat (length allGames)))
    as Hlt by lia.
  split_and!; cbn.
  - by destruct provider.
  - reflexivity.
  - reflexivity.
  - rewrite Hle, Hlt. by destruct (0 <? _).
  - rewrite Hle, Hlt. by destruct (0 <? _).
  - unfold incompleteProviders, providersNeedingCompletion.
    cbn [needsCompletion remainingGames scanFile checkpoint_fields
         total_games games_fetched is_complete needs_pagination].
    rewrite Hle, Hlt.
    destruct (Z.ltb_spec 0 (totalGames provider - Z.of_nat (length allGames)));
      repeat case_decide; try done; lia.
  - reflexivity.
Qed.

End Scan.

Lemma insertByRemaining_perm (p : ScannedProvider) (l : list ScannedProvider) :
  insertByRemaining p l ≡ₚ p :: l.
Proof.
  induction l as [|q l IH]; [done|].
  cbn. case_match; [done|]. rewrite IH. apply Permutation_swap.
Qed.

Lemma sortByRemaining_perm (l : list ScannedProvider) :
  sortByRemaining l ≡ₚ l.
Proof.
  induction l as [|p l IH]; [done|].
  cbn. by rewrite insertByRemaining_perm, IH.
Qed.

Lemma insertByRemaining_sorted (p : ScannedProvider) (l : list ScannedProvider) :
  StronglySorted (λ a b, remainingGames a ≤ remainingGames b) l →
  StronglySorted (λ a b, remainingGames a ≤ remainingGames b)
    (insertByRemaining p l).
Proof.
  induction 1 as [|q l Hsorted IH Hq]; cbn.
  { repeat constructor. }
  destruct (Z.leb_spec (remainingGames p) (remainingGames q)) as [Hle|Hgt].
  - constructor; [by constructor|]. constructor; [done|].
    eapply Forall_impl; [exact Hq|]. cbn. intros; lia.
  - constructor; [done|]. rewrite insertByRemaining_perm.
    constructor; [lia|done].
Qed.

Lemma insertByRemaining_stable (p : ScannedProvider)
    (l : list ScannedProvider) (r : Z) :
  StronglySorted (λ a b, remainingGames a ≤ remainingGames b) l →
  filter (λ q, remainingGames q = r) (insertByRemaining p l)
  = filter (λ q, remainingGames q = r) (p :: l).
Proof.
  induction 1 as [|q l Hsorted IH Hq]; [done|]. cbn [insertByRemaining].
  destruct (Z.leb_spec (remainingGames p) (remainingGames q)) as [Hle|Hgt];
    [done|].
  destruct (decide (remainingGames q = r)) as [Hqr|Hqr].
  - rewrite (filter_cons_True _ q) by done. rewrite IH.
    rewrite (filter_cons_False _ p) by lia.
    rewrite (filter_cons_False _ p) by lia.
    by rewrite (filter_cons_True _ q).
  - rewrite (filter_cons_False _ q) by done. rewrite IH.
    destruct (decide (remainingGames p = r)).
    + rewrite !(filter_cons_True _ p) by done.
      by rewrite (filter_cons_False _ q).
    + rewrite !(filter_cons_False _ p) by done.
      by rewrite (filter_cons_False _ q).
Qed.

Lemma sortByRemaining_sorted (l : list ScannedProvider) :
  StronglySorted (λ a b, remainingGames a ≤ remainingGames b)
    (sortByRemaining l).
Proof.
  induction l as [|p l IH]; [constructor|].
  cbn. by apply insertByRemaining_sorted.
Qed.

(** X16. [completeAllProvidersParallel] runs exactly the scanned
    providers with a positive [remainingGames], each as often as the scan
    lists it, by ascending [remainingGames]; providers with the same
    number of remaining games keep the order of the scan. *)
Theorem incompleteProviders_order (allProviders : list ScannedProvider) :
  StronglySorted (λ a b, remainingGames a ≤ remainingGames b)
    (incompleteProviders allProviders)
  ∧ incompleteProviders allProviders
    ≡ₚ filter (λ p, 0 < remainingGames p) allProviders
  ∧ ∀ r, filter (λ p, remainingGames p = r) (incompleteProviders allProviders)
         = if bool_decide (0 < r)
           then filter (λ p, remainingGames p = r) allProviders
           else [].
Proof.
  unfold incompleteProviders. split_and!.
  - apply sortByRemaining_sorted.
  - apply sortByRemaining_perm.
  - intros r.
    induction allProviders as [|p l IH]; [by case_bool_decide|].
    destruct (decide (0 < remainingGames p)) as [Hpos|Hpos].
    + rewrite (filter_cons_True _ p) by done. cbn [sortByRemaining foldr].
      rewrite insertByRemaining_stable by apply sortByRemaining_sorted.
      destruct (decide (remainingGames p = r)) as [Hr|Hr].
      * rewrite !(filter_cons_True _ p) by done.
        unfold sortByRemaining in IH. rewrite IH.
        rewrite !bool_decide_eq_true_2 by lia. done.
      * rewrite !(filter_cons_False _ p) by done.
        unfold sortByRemaining in IH. rewrite IH. done.
    + rewrite (filter_cons_False _ p) by done. rewrite IH.
      case_bool_decide; [|done].
      by rewrite (filter_cons_False _ p) by lia.
Qed.

(** * The GraphQL fetcher *)

Section FetcherProperties.

Context {number : Type} (numberTruthy : number → bool) (zero : number)
        (env_PROVIDER_SLUG env_PROVIDER_NAME : option (list N)).

Local Abbreviation validate := (validateGraphQLResponse numberTruthy).
Local Abbreviation extract :=
  (extractGameData numberTruthy zero env_PROVIDER_SLUG env_PROVIDER_NAME).
Local Abbreviation extractOne :=
  (extractGame numberTruthy zero env_PROVIDER_SLUG env_PROVIDER_NAME).
Local Abbreviation handle :=
  (handleResponse numberTruthy zero env_PROVIDER_SLUG env_PROVIDER_NAME).

Lemma getProp_truthy (v : @jsvalue number) (key : string) :
  truthy numberTruthy v = true → ∃ w, getProp v key = Ok w.
Proof. destruct v; cbn; try done; eauto. Qed.

Lemma getProp_object (v w : @jsvalue number) (key : string) :
  getProp v key = Ok w → truthy numberTruthy w = true →
  ∃ fields, v = JObject fields ∧ lookupField fields (lit key) = w.
Proof.
  destruct v; cbn [getProp]; intros [= <-]; try done. eauto.
Qed.

Lemma validated_shape (response : @jsvalue number) :
  validate response = true →
  ∃ fields dataFields groupFields items,
    response = JObject fields
    ∧ lookupField fields (lit "data") = JObject dataFields
    ∧ lookupField dataFields (lit "slugKuratorGroup") = JObject groupFields
    ∧ lookupField groupFields (lit "groupGamesList") = JArray items.
Proof.
  unfold validateGraphQLResponse.
  destruct (negb (truthy numberTruthy response) || negb (isObjectType response))
    eqn:Hresponse; [done|].
  destruct (getProp response "data") as [data|] eqn:Hdata; [|done].
  cbn [mbind Result_bind].
  destruct (truthy numberTruthy data) eqn:Htdata; [|done]. cbn [negb].
  destruct (getProp data "slugKuratorGroup") as [group|] eqn:Hgroup; [|done].
  cbn [mbind Result_bind].
  destruct (truthy numberTruthy group) eqn:Htgroup; [|done]. cbn [negb].
  destruct (getProp group "groupGamesList") as [gamesList|] eqn:Hlist;
    [|done].
  cbn [mbind Result_bind].
  destruct gamesList as [| | | | |items|]; cbn [truthy isArray negb];
    rewrite ?orb_true_r; try done.
  intros _.
  destruct (getProp_object _ _ _ Hdata Htdata) as (fields & -> & Hf).
  destruct (getProp_object _ _ _ Hgroup Htgroup) as (dataFields & -> & Hd).
  destruct (getProp_object _ _ _ Hlist eq_refl) as (groupFields & -> & Hg).
  by exists fields, dataFields, groupFields, items.
Qed.

(** X17. [validateGraphQLResponse] accepts exactly the objects whose
    [data.slugKuratorGroup.groupGamesList] is an array, reached through
    objects. *)
Theorem validateGraphQLResponse_shape (response : @jsvalue number) :
  validate response = true
  ↔ ∃ fields dataFields groupFields items,
      response = JObject fields
      ∧ lookupField fields (lit "data") = JObject dataFields
      ∧ lookupField dataFields (lit "slugKuratorGroup") = JObject groupFields
      ∧ lookupField groupFields (lit "groupGamesList") = JArray items.
Proof.
  split; [apply validated_shape|].
  intros (fields & dataFields & groupFields & items & -> & Hf & Hd & Hg).
  unfold validateGraphQLResponse.
  cbn [truthy isObjectType negb orb getProp mbind Result_bind].
  rewrite Hf. cbn [truthy isObjectType negb orb getProp mbind Result_bind].
  rewrite Hd. cbn [truthy isObjectType negb orb getProp mbind Result_bind].
  rewrite Hg. reflexivity.
Qed.

Lemma truthy_envOr (value : option (list N)) (fallback : string) :
  fallback ≠ ""%string → truthy numberTruthy (JString (envOr value fallback)) = true.
Proof.
  intros Hfallback. cbn. apply negb_true_iff, bool_decide_eq_false.
  unfold envOr. destruct value as [s|].
  - case_bool_decide; [|done]. by destruct fallback.
  - by destruct fallback.
Qed.

Lemma truthy_orElse (a b : @jsvalue number) :
  truthy numberTruthy b = true → truthy numberTruthy (orElse numberTruthy a b) = true.
Proof. unfold orElse. by destruct (truthy numberTruthy a) eqn:Ha. Qed.

Lemma providerOf_truthy (groups : list (@jsvalue number))
    (provider providerSlug provider' providerSlug' : @jsvalue number) :
  truthy numberTruthy provider = true →
  truthy numberTruthy providerSlug = true →
  providerOf numberTruthy groups provider providerSlug
  = Ok (provider', providerSlug') →
  truthy numberTruthy provider' = true
  ∧ truthy numberTruthy providerSlug' = true.
Proof.
  intros Hp Hs. induction groups as [|group rest IH]; cbn [providerOf].
  { by intros [= <- <-]. }
  destruct (getProp group "group") as [g|]; [|done].
  cbn [mbind Result_bind].
  destruct (truthy numberTruthy g); [|exact IH].
  destruct (getProp g "type") as [gtype|]; [|done]. cbn [mbind Result_bind].
  destruct (isString gtype "provider"); [|exact IH].
  destruct (getProp g "translation") as [translation|]; [|done].
  cbn [mbind Result_bind].
  destruct (getProp g "slug") as [gslug|]; [|done]. cbn [mbind Result_bind].
  intros [= <- <-]. split; by apply truthy_orElse.
Qed.

Lemma extractGame_invariants (item : @jsvalue number) (d : GameData) :
  extractOne item = Ok (Some d) →
  truthy numberTruthy (is_widget_enabled d) = true
  ∧ truthy numberTruthy (game_provider d) = true
  ∧ truthy numberTruthy (game_provider_slug d) = true.
Proof.
  unfold extractGame.
  destruct (getProp item "game") as [game|]; [|done]. cbn [mbind Result_bind].
  destruct (truthy numberTruthy game); [|done]. cbn [negb].
  destruct (getProp game "groupGames") as [groupGames|]; [|done].
  cbn [mbind Result_bind].
  destruct (providerOf _ _ _ _) as [[provider providerSlug]|] eqn:Hprovider;
    [|done].
  cbn [mbind Result_bind].
  apply providerOf_truthy in Hprovider as [Hp Hs];
    [|by apply truthy_envOr..].
  destruct (categoriesAndThemes _ _ _ _) as [[categories themes]|]; [|done].
  cbn [mbind Result_bind].
  destruct (getProp game "id"); cbn [mbind Result_bind]; [|done].
  destruct (getProp game "name"); cbn [mbind Result_bind]; [|done].
  destruct (getProp game "slug"); cbn [mbind Result_bind]; [|done].
  destruct (getProp game "thumbnailUrl"); cbn [mbind Result_bind]; [|done].
  destruct (getProp game "thumbnailBlurHash"); cbn [mbind Result_bind];
    [|done].
  destruct (getProp game "playerCount"); cbn [mbind Result_bind]; [|done].
  destruct (getProp game "isBlocked"); cbn [mbind Result_bind]; [|done].
  destruct (getProp game "isWidgetEnabled"); cbn [mbind Result_bind]; [|done].
  intros [= <-]. cbn. split_and!; [|done..]. by apply truthy_orElse.
Qed.

(** X18. Every game that [extractGameData] returns has a truthy
    [is_widget_enabled], whatever [isWidgetEnabled] was in the response
    ([game.isWidgetEnabled || true]), and a truthy [provider] and
    [provider_slug]; and there are at most as many games as items. *)
Theorem extracted_games_invariants (gamesList : list (@jsvalue number)) :
  Forall (λ d, truthy numberTruthy (is_widget_enabled d) = true
               ∧ truthy numberTruthy (game_provider d) = true
               ∧ truthy numberTruthy (game_provider_slug d) = true)
    (extract gamesList)
  ∧ (length (extract gamesList) ≤ length gamesList)%nat.
Proof.
  induction gamesList as [|item rest [IHall IHlen]]; [by split|].
  cbn [extractGameData].
  destruct (extractOne item) as [[d|]|] eqn:Hitem; cbn [length].
  - split; [|lia]. constructor; [|done]. by eapply extractGame_invariants.
  - split; [done|lia].
  - split; [done|lia].
Qed.

(** *** The fetcher and the parser on the same response *)

Lemma groups_of_parser (groupGames : @jsvalue number)
    (ggs : list (@jsvalue number)) :
  arrayItems (orElse numberTruthy groupGames (JArray [])) = Ok ggs →
  match groupGames with
  | JArray groups => groups
  | _ => []
  end = ggs.
Proof.
  unfold orElse. destruct groupGames; cbn; try congruence;
    repeat case_match; cbn; congruence.
Qed.

Lemma parsed_group_has_group (gg : @jsvalue number)
    (group : @GroupGame number) :
  parseGroupGame gg = Ok group → ∃ g, getProp gg "group" = Ok g.
Proof.
  unfold parseGroupGame. destruct (getProp gg "group") as [g|]; [eauto|done].
Qed.

Lemma parsed_groups_have_group (ggs : list (@jsvalue number))
    (groups : list (@GroupGame number)) :
  mapM parseGroupGame ggs = Ok groups →
  Forall (λ gg, ∃ g, getProp gg "group" = Ok g) ggs.
Proof.
  revert groups. induction ggs as [|gg ggs IH]; intros groups; [done|].
  cbn [mapM].
  destruct (parseGroupGame gg) as [group|] eqn:Hgroup; [|done].
  cbn [mbind Result_bind].
  destruct (mapM parseGroupGame ggs) as [groups'|] eqn:Hrest; [|done].
  intros _. constructor; [by eapply parsed_group_has_group|by eapply IH].
Qed.

Lemma providerOf_returns (ggs : list (@jsvalue number))
    (provider providerSlug : @jsvalue number) :
  Forall (λ gg, ∃ g, getProp gg "group" = Ok g) ggs →
  ∃ found, providerOf numberTruthy ggs provider providerSlug = Ok found.
Proof.
  induction 1 as [|gg ggs [g Hg] _ IH]; cbn [providerOf]; [eauto|].
  rewrite Hg. cbn [mbind Result_bind].
  destruct (truthy numberTruthy g) eqn:Htruthy; [|exact IH].
  destruct (getProp_truthy g "type" Htruthy) as [gtype ->].
  destruct (getProp_truthy g "translation" Htruthy) as [translation ->].
  destruct (getProp_truthy g "slug" Htruthy) as [gslug ->].
  cbn [mbind Result_bind]. destruct (isString gtype "provider"); eauto.
Qed.

Lemma categoriesAndThemes_returns (ggs : list (@jsvalue number))
    (categories themes : list (@jsvalue number)) :
  Forall (λ gg, ∃ g, getProp gg "group" = Ok g) ggs →
  ∃ found, categoriesAndThemes numberTruthy ggs categories themes = Ok found.
Proof.
  intros Hall. revert categories themes.
  induction Hall as [|gg ggs [g Hg] _ IH]; intros categories themes;
    cbn [categoriesAndThemes]; [eauto|].
  rewrite Hg. cbn [mbind Result_bind].
  destruct (truthy numberTruthy g) eqn:Htruthy; [|apply IH].
  destruct (getProp_truthy g "type" Htruthy) as [gtype ->].
  destruct (getProp_truthy g "translation" Htruthy) as [translation ->].
  cbn [mbind Result_bind].
  destruct (isString gtype "category"); [apply IH|].
  destruct (isString gtype "theme"); apply IH.
Qed.

Lemma parsed_item_is_extracted (item : @jsvalue number)
    (parsed : option (@Game number)) :
  parseGameItem numberTruthy zero item = Ok parsed →
  match parsed with
  | Some g => ∃ d, extractOne item = Ok (Some d) ∧ sameGame g d
  | None => extractOne item = Ok None
  end.
Proof.
  unfold parseGameItem, extractGame.
  destruct (getProp item "game") as [game|]; [|done]. cbn [mbind Result_bind].
  destruct (truthy numberTruthy game) eqn:Htruthy; cbn [negb];
    [|by intros [= <-]].
  destruct (getProp_truthy game "id" Htruthy) as [gid ->].
  destruct (getProp_truthy game "name" Htruthy) as [gname ->].
  destruct (getProp_truthy game "slug" Htruthy) as [gslug ->].
  destruct (getProp_truthy game "thumbnailUrl" Htruthy) as [gurl ->].
  destruct (getProp_truthy game "thumbnailBlurHash" Htruthy) as [ghash ->].
  destruct (getProp_truthy game "isBlocked" Htruthy) as [gblocked ->].
  destruct (getProp_truthy game "isWidgetEnabled" Htruthy) as [gwidget ->].
  destruct (getProp_truthy game "playerCount" Htruthy) as [gcount ->].
  destruct (getProp_truthy game "groupGames" Htruthy) as [groupGames ->].
  cbn [mbind Result_bind].
  destruct (arrayItems _) as [ggs|] eqn:Hitems; [|done].
  cbn [mbind Result_bind].
  destruct (mapM parseGroupGame ggs) as [groups|] eqn:Hgroups; [|done].
  cbn [mbind Result_bind mret Result_ret]. intros [= <-].
  rewrite (groups_of_parser _ _ Hitems).
  apply parsed_groups_have_group in Hgroups.
  destruct (providerOf_returns ggs (JString (PROVIDER_NAME env_PROVIDER_NAME))
              (JString (PROVIDER_SLUG env_PROVIDER_SLUG)) Hgroups)
    as [[provider providerSlug] ->].
  destruct (categoriesAndThemes_returns ggs [] [] Hgroups)
    as [[categories themes] ->].
  cbn [mbind Result_bind]. eexists. split; [reflexivity|].
  by repeat split.
Qed.

Lemma parsed_items_are_extracted (items : list (@jsvalue number))
    (parsed : list (@Game number)) :
  parseGameItems numberTruthy zero items = Ok parsed →
  Forall2 sameGame parsed (extract items).
Proof.
  revert parsed. induction items as [|item rest IH]; intros parsed.
  { intros [= <-]. constructor. }
  cbn [parseGameItems extractGameData].
  destruct (parseGameItem numberTruthy zero item) as [first|] eqn:Hitem;
    [|done].
  cbn [mbind Result_bind].
  destruct (parseGameItems numberTruthy zero rest) as [others|]; [|done].
  cbn [mbind Result_bind mret Result_ret]. intros [= <-].
  apply parsed_item_is_extracted in Hitem. destruct first as [g|].
  - destruct Hitem as (d & -> & Hsame). constructor; [done|]. by apply IH.
  - rewrite Hitem. by apply IH.
Qed.

(** X19. On a response that the fetcher validates and the parser parses,
    the fetcher extracts a game from exactly the items from which the
    parser does, in the same order and with the same id, name, slug,
    thumbnail and player count, and reports as many games fetched as the
    parser returns. *)
Theorem fetcher_agrees_with_parser (response : @jsvalue number)
    (r : @ParseResult number) (limit offset : Z) :
  validate response = true →
  extractDataFromJson numberTruthy zero response = Ok r →
  ∃ fetched,
    handle limit offset response = Ok fetched
    ∧ Forall2 sameGame (games r) (fetch_games fetched)
    ∧ fetch_games_fetched fetched = Z.of_nat (length (games r)).
Proof.
  intros Hvalid Hparsed. unfold handleResponse. rewrite Hvalid.
  apply validated_shape in Hvalid
    as (fields & dataFields & groupFields & items & -> & Hf & Hd & Hg).
  revert Hparsed. unfold extractDataFromJson.
  cbn [negb getProp getPropOpt mbind Result_bind truthy].
  rewrite Hf. cbn [negb getProp getPropOpt mbind Result_bind truthy].
  rewrite Hd. cbn [negb getProp getPropOpt mbind Result_bind truthy].
  rewrite Hg. cbn [orElse truthy arrayItems mbind Result_bind].
  destruct (parseGameItems numberTruthy zero items) as [parsed|] eqn:Hitems;
    [|done].
  cbn [mbind Result_bind]. case_match; [|done].
  cbn [mret Result_ret]. intros [= <-]. cbn [games].
  eexists. split; [reflexivity|]. cbn [fetch_games fetch_games_fetched].
  apply parsed_items_are_extracted in Hitems.
  split; [done|]. by rewrite (Forall2_length _ _ _ Hitems).
Qed.

(** *** The attempts of [fetchGamesWithGraphQL] *)

Context (post : Z → Result (@jsvalue number)).

Local Abbreviation attempts :=
  (attemptsFrom numberTruthy zero env_PROVIDER_SLUG env_PROVIDER_NAME post).

Lemma attemptsFrom_spec (limit offset maxRetries : Z) (remaining : nat)
    (attempt : Z) :
  Z.of_nat remaining = maxRetries - attempt + 1 →
  (0 < remaining)%nat →
  match attempts remaining attempt limit offset maxRetries with
  | Ok (Some result) =>
      ∃ k, attempt ≤ k ≤ maxRetries
           ∧ post k ≫= handle limit offset = Ok result
           ∧ ∀ j, attempt ≤ j < k →
                  ∃ e, post j ≫= handle limit offset = Throw e
  | Ok None => False
  | Throw e =>
      post maxRetries ≫= handle limit offset = Throw e
      ∧ ∀ j, attempt ≤ j < maxRetries →
             ∃ e', post j ≫= handle limit offset = Throw e'
  end.
Proof.
  revert attempt. induction remaining as [|remaining IH]; intros attempt Hn Hpos;
    [lia|].
  cbn [attemptsFrom].
  destruct (post attempt ≫= handle limit offset) as [result|e] eqn:Hattempt.
  { exists attempt. split_and!; [lia..|done|intros; lia]. }
  case_bool_decide as Hlast.
  { subst attempt. split; [done|intros; lia]. }
  assert (0 < remaining)%nat as Hpos' by lia.
  specialize (IH (attempt + 1) ltac:(lia) Hpos').
  destruct (attempts remaining (attempt + 1) limit offset maxRetries)
    as [[result|]|e'].
  - destruct IH as (k & Hk & Hresult & Hbefore). exists k.
    split_and!; [lia..|done|]. intros j Hj.
    destruct (decide (j = attempt)) as [->|]; [eauto|]. apply Hbefore. lia.
  - done.
  - destruct IH as [Hthrow Hbefore]. split; [done|]. intros j Hj.
    destruct (decide (j = attempt)) as [->|]; [eauto|]. apply Hbefore. lia.
Qed.

(** X20. With [maxRetries] at least 1, [fetchGamesWithGraphQL] returns
    the result of the first attempt, among at most [maxRetries], whose
    response is obtained and validated, every earlier attempt having
    thrown; if it throws, every attempt threw and the exception is that
    of the last one. It never returns [undefined]. *)
Theorem fetch_returns_first_success (limit offset maxRetries : Z) :
  1 ≤ maxRetries →
  match fetchGamesWithGraphQL numberTruthy zero env_PROVIDER_SLUG
          env_PROVIDER_NAME post limit offset maxRetries with
  | Ok (Some result) =>
      ∃ k, 1 ≤ k ≤ maxRetries
           ∧ post k ≫= handle limit offset = Ok result
           ∧ ∀ j, 1 ≤ j < k → ∃ e, post j ≫= handle limit offset = Throw e
  | Ok None => False
  | Throw e =>
      post maxRetries ≫= handle limit offset = Throw e
      ∧ ∀ j, 1 ≤ j < maxRetries →
             ∃ e', post j ≫= handle limit offset = Throw e'
  end.
Proof.
  intros Hmax. unfold fetchGamesWithGraphQL.
  apply attemptsFrom_spec; lia.
Qed.

End FetcherProperties.

(** * The shape of a parse result *)

Section ParseResultShape.

Context {number : Type} (numberTruthy : number → bool) (zero : number)
        (JSON_parse : list N → Result (@jsvalue number))
        (parseWithRegex : list N → @ParseResult number).

Lemma extractDataFromJson_success (jsonData : @jsvalue number)
    (r : @ParseResult number) :
  extractDataFromJson numberTruthy zero jsonData = Ok r →
  success r = true ∧ error r = None.
Proof.
  unfold extractDataFromJson.
  destruct (getProp jsonData "data") as [data|]; [|done].
  cbn [mbind Result_bind].
  destruct (getPropOpt data "slugKuratorGroup") as [providerData|]; [|done].
  cbn [mbind Result_bind]. case_match; [done|].
  destruct (getProp providerData "groupGamesList") as [groupGamesList|];
    [|done].
  cbn [mbind Result_bind]. destruct (arrayItems _) as [gamesList|]; [|done].
  cbn [mbind Result_bind].
  destruct (parseGameItems numberTruthy zero gamesList) as [parsed|]; [|done].
  cbn [mbind Result_bind].
  destruct (getProp providerData "translation"); [|done].
  cbn [mbind Result_bind].
  destruct (getProp providerData "gameCount"); [|done].
  cbn [mbind Result_bind]. case_match; [|done].
  by intros [= <-].
Qed.

(** X21. A response without the two HTML markers takes the direct JSON
    path, and its result has one of two shapes: [success] with no error,
    or no [success], an error and an empty [games] array. A failure never
    carries games to the drivers. *)
Theorem direct_json_result_shape (responseData : list N) :
  includes responseData resultContainerTag = false →
  includes responseData (lit "<div>") = false →
  (success (parseStakeResponse numberTruthy zero JSON_parse parseWithRegex
              responseData) = true
   ∧ error (parseStakeResponse numberTruthy zero JSON_parse parseWithRegex
              responseData) = None)
  ∨ (success (parseStakeResponse numberTruthy zero JSON_parse parseWithRegex
                responseData) = false
     ∧ games (parseStakeResponse numberTruthy zero JSON_parse parseWithRegex
                responseData) = []
     ∧ ∃ e, error (parseStakeResponse numberTruthy zero JSON_parse
                     parseWithRegex responseData) = Some e).
Proof.
  intros Hcontainer Hdiv. unfold parseStakeResponse.
  rewrite Hcontainer, Hdiv. cbn [orb].
  case_match; [right; cbn; eauto|].
  destruct (JSON_parse responseData ≫= extractDataFromJson numberTruthy zero)
    as [result|e] eqn:Hparsed; [|right; cbn; eauto].
  left. destruct (JSON_parse responseData) as [jsonData|]; [|done].
  by apply (extractDataFromJson_success jsonData).
Qed.

End ParseResultShape.

(** * The sequential driver *)

Section SequentialProperties.

Context {number : Type} (numberTruthy : number → bool) (zero : number)
        (JSON_parse : list N → Result (@jsvalue number))
        (parseWithRegex : list N → @ParseResult number)
        (sameNumber : number → number → bool)
        (fetch : Z → Z → Z → FetchOutcome).

Local Abbreviation request :=
  (Sequential.executeSingleRequest numberTruthy zero JSON_parse parseWithRegex
     fetch).
Local Abbreviation retries :=
  (Sequential.retryLoop numberTruthy zero JSON_parse parseWithRegex sameNumber
     fetch).
Local Abbreviation requests :=
  (Sequential.requestLoop numberTruthy zero JSON_parse parseWithRegex
     sameNumber fetch).
Local Abbreviation fresh :=
  (λ existing g,
     Sequential.hasId sameNumber (gameId <$> existing) (gameId g) = false).

Lemma loadExistingGames_saved (provider : ScannedProvider)
    (allGames : list (@Game number)) (currentOffset : Z)
    (fs : Sequential.Files) :
  Sequential.loadExistingGames
    (Sequential.saveProviderData provider allGames currentOffset fs).1
  = allGames.
Proof.
  unfold Sequential.saveProviderData, Sequential.loadExistingGames.
  by destruct (Sequential.checkpoint fs).
Qed.

Lemma fresh_app (existing added : list (@Game number)) (g : @Game number) :
  fresh (existing ++ added) g → fresh existing g.
Proof.
  unfold Sequential.hasId. rewrite fmap_app, existsb_app.
  by intros [? _]%orb_false_iff.
Qed.

(** One request, with its retries. *)
Lemma retryLoop_effect (provider : ScannedProvider) (gamesThisRequest : Z)
    (remaining : nat) (attempt : Z) (st : Sequential.State) :
  Sequential.requestCount
    (retries remaining attempt provider gamesThisRequest st)
  = Sequential.requestCount st
  ∧ Sequential.calls st
    ≤ Sequential.calls (retries remaining attempt provider gamesThisRequest st)
    ≤ Sequential.calls st + Z.of_nat remaining
  ∧ Sequential.currentOffset st
    ≤ Sequential.currentOffset
        (retries remaining attempt provider gamesThisRequest st)
  ∧ (∃ added,
       Sequential.allGames
         (retries remaining attempt provider gamesThisRequest st)
       = Sequential.allGames st ++ added
       ∧ Forall (fresh (Sequential.allGames st)) added)
  ∧ (Sequential.loadExistingGames (Sequential.files st)
     = Sequential.allGames st →
     Sequential.loadExistingGames
       (Sequential.files
          (retries remaining attempt provider gamesThisRequest st))
     = Sequential.allGames
         (retries remaining attempt provider gamesThisRequest st)).
Proof.
  revert attempt st. induction remaining as [|remaining IH]; intros attempt st.
  { cbn [Sequential.retryLoop]. split_and!; try lia; [|done].
    exists []. by rewrite app_nil_r. }
  assert (∀ caught,
            (caught
             = {| Sequential.allGames := Sequential.allGames st;
                  Sequential.currentOffset :=
                    Sequential.currentOffset st
                    + Sequential.GAMES_PER_REQUEST Sequential.CONFIG;
                  Sequential.requestCount := Sequential.requestCount st;
                  Sequential.calls := Sequential.calls st + 1;
                  Sequential.files := Sequential.files st |}
             ∨ caught
               = retries remaining (attempt + 1) provider gamesThisRequest
                   {| Sequential.allGames := Sequential.allGames st;
                      Sequential.currentOffset := Sequential.currentOffset st;
                      Sequential.requestCount := Sequential.requestCount st;
                      Sequential.calls := Sequential.calls st + 1;
                      Sequential.files := Sequential.files st |}) →
            Sequential.requestCount caught = Sequential.requestCount st
            ∧ Sequential.calls st ≤ Sequential.calls caught
              ≤ Sequential.calls st + Z.of_nat (S remaining)
            ∧ Sequential.currentOffset st ≤ Sequential.currentOffset caught
            ∧ (∃ added,
                 Sequential.allGames caught = Sequential.allGames st ++ added
                 ∧ Forall (fresh (Sequential.allGames st)) added)
            ∧ (Sequential.loadExistingGames (Sequential.files st)
               = Sequential.allGames st →
               Sequential.loadExistingGames (Sequential.files caught)
               = Sequential.allGames caught)) as Hcaught.
  { intros caught [->| ->].
    - cbn. split_and!; try lia; [|done]. exists []. by rewrite app_nil_r.
    - destruct (IH (attempt + 1)
                  {| Sequential.allGames := Sequential.allGames st;
                     Sequential.currentOffset := Sequential.currentOffset st;
                     Sequential.requestCount := Sequential.requestCount st;
                     Sequential.calls := Sequential.calls st + 1;
                     Sequential.files := Sequential.files st |})
        as (Hcount & Hcalls & Hoffset & Hadded & Hfiles).
      cbn in Hcount, Hcalls, Hoffset, Hadded, Hfiles.
      split_and!; try done; lia. }
  cbn [Sequential.retryLoop].
  destruct (request (Sequential.currentOffset st) gamesThisRequest
              (Sequential.calls st + 1)) as [result|];
    [|apply Hcaught; case_bool_decide; auto].
  destruct (success result && (0 <? Z.of_nat (length (games result))));
    [|apply Hcaught; case_bool_decide; auto].
  case_match.
  - cbn. split_and!; try lia.
    + eexists. split; [reflexivity|].
      apply Forall_forall. by intros g [Hg _]%list_elem_of_filter.
    + intros _. apply loadExistingGames_saved.
  - cbn. split_and!; try lia; [|done]. exists []. by rewrite app_nil_r.
Qed.

(** With the whole budget of attempts, the offset moves on. *)
Lemma retryLoop_moves_on (provider : ScannedProvider) (gamesThisRequest : Z)
    (remaining : nat) (attempt : Z) (st : Sequential.State) :
  (0 < remaining)%nat →
  attempt + Z.of_nat remaining
  = Sequential.MAX_RETRIES Sequential.CONFIG →
  Sequential.currentOffset st
  < Sequential.currentOffset
      (retries remaining attempt provider gamesThisRequest st).
Proof.
  revert attempt st. induction remaining as [|remaining IH];
    intros attempt st Hpos Hbudget; [lia|].
  cbn [Sequential.retryLoop].
  assert (Sequential.currentOffset st
          < Sequential.currentOffset
              (if bool_decide (attempt + 1
                               = Sequential.MAX_RETRIES Sequential.CONFIG)
               then
                 {| Sequential.allGames := Sequential.allGames st;
                    Sequential.currentOffset :=
                      Sequential.currentOffset st
                      + Sequential.GAMES_PER_REQUEST Sequential.CONFIG;
                    Sequential.requestCount := Sequential.requestCount st;
                    Sequential.calls := Sequential.calls st + 1;
                    Sequential.files := Sequential.files st |}
               else
                 retries remaining (attempt + 1) provider gamesThisRequest
                   {| Sequential.allGames := Sequential.allGames st;
                      Sequential.currentOffset := Sequential.currentOffset st;
                      Sequential.requestCount := Sequential.requestCount st;
                      Sequential.calls := Sequential.calls st + 1;
                      Sequential.files := Sequential.files st |})) as Hcaught.
  { case_bool_decide as Hlast; [cbn; lia|].
    apply (IH (attempt + 1)
             {| Sequential.allGames := Sequential.allGames st;
                Sequential.currentOffset := Sequential.currentOffset st;
                Sequential.requestCount := Sequential.requestCount st;
                Sequential.calls := Sequential.calls st + 1;
                Sequential.files := Sequential.files st |}); lia. }
  destruct (request (Sequential.currentOffset st) gamesThisRequest
              (Sequential.calls st + 1)) as [result|]; [|exact Hcaught].
  destruct (success result && (0 <? Z.of_nat (length (games result))))
    eqn:Hgames; [|exact Hcaught].
  apply andb_true_iff in Hgames as [_ Hgames%Z.ltb_lt].
  destruct (0 <? Z.of_nat (length (filter _ (games result)))); cbn; lia.
Qed.

Lemma requestLoop_effect (provider : ScannedProvider) (maxRequests : Z)
    (fuel : nat) (st : Sequential.State) :
  (Z.to_nat (maxRequests * 2 - Sequential.requestCount st) + 1 ≤ fuel)%nat →
  ∃ st',
    requests fuel provider maxRequests st = Some st'
    ∧ Sequential.requestCount st ≤ Sequential.requestCount st'
      ≤ Z.max (Sequential.requestCount st + 1) (maxRequests * 2 + 1)
    ∧ 0 ≤ Sequential.calls st' - Sequential.calls st
      ≤ 6 * (Sequential.requestCount st' - Sequential.requestCount st)
    ∧ (Z.of_nat (length (Sequential.allGames st'))
       < totalGames (scanned provider) →
       maxRequests * 2 < Sequential.requestCount st')
    ∧ Sequential.currentOffset st
      + (Sequential.requestCount st' - Sequential.requestCount st)
      ≤ Sequential.currentOffset st'.
Proof.
  revert st. induction fuel as [|fuel IH]; intros st Hfuel; [lia|].
  cbn [Sequential.requestLoop].
  destruct (Z.ltb_spec (Z.of_nat (length (Sequential.allGames st)))
              (totalGames (scanned provider))) as [Hless|Hdone].
  2: { exists st. split_and!; try done; lia. }
  set (gamesThisRequest :=
         Z.min (Sequential.GAMES_PER_REQUEST Sequential.CONFIG)
           (totalGames (scanned provider)
            - Z.of_nat (length (Sequential.allGames st)))).
  set (st0 := {| Sequential.allGames := Sequential.allGames st;
                 Sequential.currentOffset := Sequential.currentOffset st;
                 Sequential.requestCount := Sequential.requestCount st + 1;
                 Sequential.calls := Sequential.calls st;
                 Sequential.files := Sequential.files st |}).
  destruct (retryLoop_effect provider gamesThisRequest
              (Z.to_nat (Sequential.MAX_RETRIES Sequential.CONFIG)) 0 st0)
    as (Hcount & Hcalls & _ & _ & _).
  pose proof (retryLoop_moves_on provider gamesThisRequest
                (Z.to_nat (Sequential.MAX_RETRIES Sequential.CONFIG)) 0 st0
                ltac:(cbn; lia) ltac:(cbn; lia)) as Hoffset.
  set (st1 := retries (Z.to_nat (Sequential.MAX_RETRIES Sequential.CONFIG)) 0
                provider gamesThisRequest st0) in *.
  cbn in Hcount, Hcalls, Hoffset.
  destruct (Z.ltb_spec (maxRequests * 2) (Sequential.requestCount st1))
    as [Hlimit|Hgoon].
  { exists st1. split_and!; try done; lia. }
  destruct (IH st1 ltac:(lia)) as (st' & -> & Hc & Hk & Hexit & Ho).
  exists st'. split_and!; try done; lia.
Qed.

(** X22. The sequential run always comes to an end. It makes at most
    [max(1, 2 * maxRequests + 1)] requests, each of at most 6 calls of
    the fetcher, and each request moves the offset forward; and it stops
    short of the provider's total only at the safety limit
    [requestCount > maxRequests * 2]. *)
Theorem sequential_run_is_bounded (provider : ScannedProvider)
    (fs : Sequential.Files) (fuel : nat) :
  (Z.to_nat (Sequential.maxRequestsOf provider * 2) + 1 ≤ fuel)%nat →
  ∃ st,
    requests fuel provider (Sequential.maxRequestsOf provider)
      (Sequential.initialState fs) = Some st
    ∧ Sequential.completeProvider numberTruthy zero JSON_parse parseWithRegex
        sameNumber fetch fuel provider fs
      = Some ({| completion_totalGames :=
                   Z.of_nat (length (Sequential.allGames st));
                 requestsMade := Sequential.requestCount st;
                 isComplete :=
                   totalGames (scanned provider)
                   <=? Z.of_nat (length (Sequential.allGames st)) |},
              (Sequential.saveProviderData provider (Sequential.allGames st)
                 (Sequential.currentOffset st) (Sequential.files st)).1)
    ∧ 0 ≤ Sequential.requestCount st
      ≤ Z.max 1 (Sequential.maxRequestsOf provider * 2 + 1)
    ∧ 0 ≤ Sequential.calls st ≤ 6 * Sequential.requestCount st
    ∧ Z.of_nat (length (Sequential.loadExistingGames fs))
      + Sequential.requestCount st ≤ Sequential.currentOffset st
    ∧ (Z.of_nat (length (Sequential.allGames st))
       < totalGames (scanned provider) →
       Sequential.maxRequestsOf provider * 2 < Sequential.requestCount st).
Proof.
  intros Hfuel.
  destruct (requestLoop_effect provider (Sequential.maxRequestsOf provider)
              fuel (Sequential.initialState fs))
    as (st & Hrun & Hcount & Hcalls & Hexit & Hoffset).
  { cbn. by rewrite Z.sub_0_r. }
  cbn in Hcount, Hcalls, Hoffset.
  exists st. unfold Sequential.completeProvider. rewrite Hrun.
  split_and!; try done; lia.
Qed.

Lemma requestLoop_games (provider : ScannedProvider) (maxRequests : Z)
    (fuel : nat) (st st' : Sequential.State) :
  requests fuel provider maxRequests st = Some st' →
  (∃ added,
     Sequential.allGames st' = Sequential.allGames st ++ added
     ∧ Forall (fresh (Sequential.allGames st)) added)
  ∧ (Sequential.loadExistingGames (Sequential.files st)
     = Sequential.allGames st →
     Sequential.loadExistingGames (Sequential.files st')
     = Sequential.allGames st').
Proof.
  revert st. induction fuel as [|fuel IH]; intros st; cbn [Sequential.requestLoop].
  { case_match; [done|]. intros [= <-]. split; [|done].
    exists []. by rewrite app_nil_r. }
  case_match.
  2: { intros [= <-]. split; [|done]. exists []. by rewrite app_nil_r. }
  set (gamesThisRequest :=
         Z.min (Sequential.GAMES_PER_REQUEST Sequential.CONFIG)
           (totalGames (scanned provider)
            - Z.of_nat (length (Sequential.allGames st)))).
  set (st0 := {| Sequential.allGames := Sequential.allGames st;
                 Sequential.currentOffset := Sequential.currentOffset st;
                 Sequential.requestCount := Sequential.requestCount st + 1;
                 Sequential.calls := Sequential.calls st;
                 Sequential.files := Sequential.files st |}).
  destruct (retryLoop_effect provider gamesThisRequest
              (Z.to_nat (Sequential.MAX_RETRIES Sequential.CONFIG)) 0 st0)
    as (_ & _ & _ & (added & Hadded & Hfresh) & Hfiles).
  set (st1 := retries (Z.to_nat (Sequential.MAX_RETRIES Sequential.CONFIG)) 0
                provider gamesThisRequest st0) in *.
  cbn in Hadded, Hfresh, Hfiles.
  case_match.
  { intros [= <-]. split; [by exists added|done]. }
  intros Hrest. destruct (IH st1 Hrest) as ((added' & Hadded' & Hfresh') & Hfiles').
  split; [|auto].
  exists (added ++ added'). rewrite Hadded', Hadded, app_assoc.
  split; [done|]. apply Forall_app. split; [done|].
  eapply Forall_impl; [exact Hfresh'|]. intros g Hg. cbn in Hg.
  rewrite Hadded in Hg. by apply fresh_app in Hg.
Qed.

(** X23. What a sequential run leaves in the games file is what the file
    held before, in the same order, followed by the games added; no
    added game has the id (by SameValueZero) of a game that the file
    held; and the result reports the number of games in the file and
    [isComplete] by that number. *)
Theorem sequential_run_extends_saved_games (provider : ScannedProvider)
    (fs fs' : Sequential.Files) (fuel : nat) (result : CompletionResult) :
  Sequential.completeProvider numberTruthy zero JSON_parse parseWithRegex
    sameNumber fetch fuel provider fs = Some (result, fs') →
  (∃ added,
     Sequential.loadExistingGames fs'
     = Sequential.loadExistingGames fs ++ added
     ∧ Forall (fresh (Sequential.loadExistingGames fs)) added)
  ∧ completion_totalGames result
    = Z.of_nat (length (Sequential.loadExistingGames fs'))
  ∧ isComplete result
    = (totalGames (scanned provider)
       <=? Z.of_nat (length (Sequential.loadExistingGames fs'))).
Proof.
  unfold Sequential.completeProvider.
  destruct (requests fuel provider (Sequential.maxRequestsOf provider)
              (Sequential.initialState fs)) as [st|] eqn:Hrun; [|done].
  cbn [mbind option_bind]. intros [= <- <-].
  rewrite loadExistingGames_saved. cbn.
  by destruct (requestLoop_games _ _ _ _ _ Hrun) as [Hadded _].
Qed.

(** *** When no response brings a game *)

Hypothesis Hnothing :
  nothingToFetch numberTruthy zero JSON_parse parseWithRegex fetch.

Lemma request_rejected (offset limit call : Z) :
  request offset limit call = Rejected.
Proof.
  unfold Sequential.executeSingleRequest.
  destruct (Hnothing offset limit call) as (responseData & -> & Hempty).
  by rewrite Hempty.
Qed.

Lemma retryLoop_nothing (provider : ScannedProvider) (gamesThisRequest : Z)
    (remaining : nat) (attempt : Z) (st : Sequential.State) :
  (0 < remaining)%nat →
  attempt + Z.of_nat remaining = Sequential.MAX_RETRIES Sequential.CONFIG →
  retries remaining attempt provider gamesThisRequest st
  = {| Sequential.allGames := Sequential.allGames st;
       Sequential.currentOffset := Sequential.currentOffset st + 39;
       Sequential.requestCount := Sequential.requestCount st;
       Sequential.calls := Sequential.calls st + Z.of_nat remaining;
       Sequential.files := Sequential.files st |}.
Proof.
  revert attempt st. induction remaining as [|remaining IH];
    intros attempt st Hpos Hbudget; [lia|].
  cbn [Sequential.retryLoop]. rewrite request_rejected.
  case_bool_decide as Hlast.
  - assert (remaining = 0%nat) as -> by lia. reflexivity.
  - rewrite IH by lia. cbn. f_equal. lia.
Qed.

(** X24. When every fetch brings a response in which the parser finds no
    game (the text [error], say), a request of the sequential driver
    counts as failed: it calls the fetcher 6 times, adds no game, writes
    no file and moves the offset on by 39. *)
Theorem sequential_request_without_games (provider : ScannedProvider)
    (gamesThisRequest : Z) (st : Sequential.State) :
  retries (Z.to_nat (Sequential.MAX_RETRIES Sequential.CONFIG)) 0 provider
    gamesThisRequest st
  = {| Sequential.allGames := Sequential.allGames st;
       Sequential.currentOffset := Sequential.currentOffset st + 39;
       Sequential.requestCount := Sequential.requestCount st;
       Sequential.calls := Sequential.calls st + 6;
       Sequential.files := Sequential.files st |}.
Proof. by rewrite retryLoop_nothing by (cbn; lia). Qed.

End SequentialProperties.

(** * The further theorems at concrete inputs *)

Lemma completed_is_final_witness :
  isCompleted (markCompleted newTracker 39 39) 39 = true
  ∧ (∀ o, isCompleted (markInProgress (markCompleted newTracker 39 39) o) 39
          = true)
  ∧ (∀ o gameCount,
       isCompleted (markCompleted (markCompleted newTracker 39 39) o gameCount)
         39 = true)
  ∧ (∀ o, isCompleted (markFailed (markCompleted newTracker 39 39) o).1 39
          = true)
  ∧ (∀ checkpointData,
       isCompleted (restoreCheckpoint (markCompleted newTracker 39 39)
                      checkpointData) 39 = true)
  ∧ ∀ currentGames totalGames maxOffsets t' offsets,
      getNextOffsets (markCompleted newTracker 39 39) currentGames totalGames
        maxOffsets = Some (t', offsets) →
      isCompleted t' 39 = true ∧ 39 ∉ offsets.
Proof.
  split; [reflexivity|].
  apply (completed_is_final (markCompleted newTracker 39 39) 39).
  reflexivity.
Defined.

Lemma loop_leaves_nothing_in_progress_witness :
  inProgress (tracker freshState) = []
  ∧ driverLoop intTruthy 0 parseAnything regexFindsNothing alwaysTimeout 21
      testProvider freshState = Some threeFailures
  ∧ inProgress (tracker threeFailures) = [].
Proof.
  split; [reflexivity|]. split; [vm_compute; reflexivity|].
  apply (loop_leaves_nothing_in_progress intTruthy 0 parseAnything
           regexFindsNothing alwaysTimeout testProvider 21 freshState
           threeFailures).
  - reflexivity.
  - vm_compute. reflexivity.
Defined.

Lemma loop_keeps_pages_witness :
  (∀ o, is_Some (gamesByOffset firstPageState !! o) →
        o ∈ completed (tracker firstPageState))
  ∧ driverLoop intTruthy 0 parseAnything regexFindsNothing alwaysError 10
      testProvider firstPageState = Some firstPageEnd
  ∧ (∀ o page, gamesByOffset firstPageState !! o = Some page →
               gamesByOffset firstPageEnd !! o = Some page)
  ∧ (∀ o, is_Some (gamesByOffset firstPageEnd !! o) →
          o ∈ completed (tracker firstPageEnd)).
Proof.
  assert (∀ o, is_Some (gamesByOffset firstPageState !! o) →
               o ∈ completed (tracker firstPageState)) as Hpages.
  { intros o [page Hpage]. cbn in Hpage.
    apply lookup_singleton_Some in Hpage as [<- _]. cbn. set_solver. }
  split; [exact Hpages|]. split; [vm_compute; reflexivity|].
  apply (loop_keeps_pages intTruthy 0 parseAnything regexFindsNothing
           alwaysError testProvider 10 firstPageState firstPageEnd Hpages).
  vm_compute. reflexivity.
Defined.

Lemma loop_total_is_count_witness :
  totalExistingGames firstPageState = countGames (gamesByOffset firstPageState)
  ∧ driverLoop intTruthy 0 parseAnything regexFindsNothing alwaysError 10
      testProvider firstPageState = Some firstPageEnd
  ∧ totalExistingGames firstPageEnd
    = Z.of_nat (length (gamesInOrder (gamesByOffset firstPageEnd))).
Proof.
  split; [vm_compute; reflexivity|]. split; [vm_compute; reflexivity|].
  apply (loop_total_is_count intTruthy 0 parseAnything regexFindsNothing
           alwaysError testProvider 10 firstPageState firstPageEnd).
  - vm_compute. reflexivity.
  - vm_compute. reflexivity.
Defined.

Lemma complete_provider_makes_no_request_witness :
  gamesFile fullFiles = Some fullGamesData
  ∧ totalGames testProvider ≤ Z.of_nat (length (games_games fullGamesData))
  ∧ completeProviderParallel intTruthy 0 parseAnything regexFindsNothing
      alwaysTimeout 0 testProvider fullFiles
    = Some ({| completion_totalGames :=
                 Z.of_nat (length (games_games fullGamesData));
               requestsMade := 0;
               isComplete := true |}, fullFiles).
Proof.
  split; [reflexivity|]. split; [vm_compute; discriminate|].
  apply (complete_provider_makes_no_request intTruthy 0 parseAnything
           regexFindsNothing alwaysTimeout 0 testProvider fullFiles
           fullGamesData).
  - reflexivity.
  - vm_compute. discriminate.
Defined.

Lemma nothingToFetch_alwaysError :
  nothingToFetch intTruthy 0 parseAnything regexFindsNothing alwaysError.
Proof. intros offset limit requestId. eexists. split; reflexivity. Defined.

Lemma empty_responses_end_the_loop_witness :
  nothingToFetch intTruthy 0 parseAnything regexFindsNothing alwaysError
  ∧ hasRetryableFailures (tracker freshState) = false
  ∧ inProgress (tracker freshState) = []
  ∧ 0 ≤ emptyResponseCount freshState
  ∧ (10 ≤ 10)%nat
  ∧ ∃ st',
      driverLoop intTruthy 0 parseAnything regexFindsNothing alwaysError 10
        testProvider freshState = Some st'
      ∧ requestCount st' ≤ requestCount freshState + 12
      ∧ gamesByOffset st' = gamesByOffset freshState
      ∧ failed (tracker st') = failed (tracker freshState).
Proof.
  split; [exact nothingToFetch_alwaysError|].
  split; [reflexivity|]. split; [reflexivity|]. split; [cbn; lia|].
  split; [lia|].
  apply (empty_responses_end_the_loop intTruthy 0 parseAnything
           regexFindsNothing alwaysError nothingToFetch_alwaysError
           testProvider 10 freshState).
  - reflexivity.
  - reflexivity.
  - cbn. lia.
  - lia.
Defined.

Lemma fetcher_agrees_with_parser_witness :
  validateGraphQLResponse intTruthy widgetOffPayload = true
  ∧ ∃ r,
      extractDataFromJson intTruthy 0 widgetOffPayload = Ok r
      ∧ ∃ fetched,
          handleResponse intTruthy 0 None None 39 0 widgetOffPayload
          = Ok fetched
          ∧ Forall2 sameGame (games r) (fetch_games fetched)
          ∧ fetch_games_fetched fetched = Z.of_nat (length (games r)).
Proof.
  split; [reflexivity|]. eexists. split; [reflexivity|].
  apply (fetcher_agrees_with_parser intTruthy 0 None None widgetOffPayload
           _ 39 0); reflexivity.
Defined.

Lemma fetch_returns_first_success_witness :
  1 ≤ 3
  ∧ match fetchGamesWithGraphQL intTruthy 0 None None thirdTimeLucky 39 0 3 with
    | Ok (Some result) =>
        ∃ k, 1 ≤ k ≤ 3
             ∧ thirdTimeLucky k ≫= handleResponse intTruthy 0 None None 39 0
               = Ok result
             ∧ ∀ j, 1 ≤ j < k →
                    ∃ e, thirdTimeLucky j
                         ≫= handleResponse intTruthy 0 None None 39 0
                         = Throw e
    | Ok None => False
    | Throw e =>
        thirdTimeLucky 3 ≫= handleResponse intTruthy 0 None None 39 0
        = Throw e
        ∧ ∀ j, 1 ≤ j < 3 →
               ∃ e', thirdTimeLucky j
                     ≫= handleResponse intTruthy 0 None None 39 0
                     = Throw e'
    end.
Proof.
  split; [lia|].
  apply (fetch_returns_first_success intTruthy 0 None None thirdTimeLucky
           39 0 3). lia.
Defined.

Lemma direct_json_result_shape_witness :
  includes (replicate 50 120%N) resultContainerTag = false
  ∧ includes (replicate 50 120%N) (lit "<div>") = false
  ∧ ((success (parseStakeResponse intTruthy 0 parseAnything regexFindsNothing
                 (replicate 50 120%N)) = true
      ∧ error (parseStakeResponse intTruthy 0 parseAnything regexFindsNothing
                 (replicate 50 120%N)) = None)
     ∨ (success (parseStakeResponse intTruthy 0 parseAnything
                   regexFindsNothing (replicate 50 120%N)) = false
        ∧ games (parseStakeResponse intTruthy 0 parseAnything
                   regexFindsNothing (replicate 50 120%N)) = []
        ∧ ∃ e, error (parseStakeResponse intTruthy 0 parseAnything
                        regexFindsNothing (replicate 50 120%N)) = Some e)).
Proof.
  split; [vm_compute; reflexivity|]. split; [vm_compute; reflexivity|].
  apply (direct_json_result_shape intTruthy 0 parseAnything regexFindsNothing
           (replicate 50 120%N)); vm_compute; reflexivity.
Defined.

Lemma sequential_run_is_bounded_witness :
  (Z.to_nat (Sequential.maxRequestsOf scannedTest * 2) + 1 ≤ 7)%nat
  ∧ ∃ st,
      Sequential.requestLoop intTruthy 0 parseWidgetOff regexFindsNothing
        Z.eqb alwaysText 7 scannedTest (Sequential.maxRequestsOf scannedTest)
        (Sequential.initialState noSequentialFiles) = Some st
      ∧ Sequential.completeProvider intTruthy 0 parseWidgetOff
          regexFindsNothing Z.eqb alwaysText 7 scannedTest noSequentialFiles
        = Some ({| completion_totalGames :=
                     Z.of_nat (length (Sequential.allGames st));
                   requestsMade := Sequential.requestCount st;
                   isComplete :=
                     totalGames (scanned scannedTest)
                     <=? Z.of_nat (length (Sequential.allGames st)) |},
                (Sequential.saveProviderData scannedTest
                   (Sequential.allGames st) (Sequential.currentOffset st)
                   (Sequential.files st)).1)
      ∧ 0 ≤ Sequential.requestCount st
        ≤ Z.max 1 (Sequential.maxRequestsOf scannedTest * 2 + 1)
      ∧ 0 ≤ Sequential.calls st ≤ 6 * Sequential.requestCount st
      ∧ Z.of_nat (length (Sequential.loadExistingGames noSequentialFiles))
        + Sequential.requestCount st ≤ Sequential.currentOffset st
      ∧ (Z.of_nat (length (Sequential.allGames st))
         < totalGames (scanned scannedTest) →
         Sequential.maxRequestsOf scannedTest * 2
         < Sequential.requestCount st).
Proof.
  split; [vm_compute; lia|].
  apply (sequential_run_is_bounded intTruthy 0 parseWidgetOff
           regexFindsNothing Z.eqb alwaysText scannedTest noSequentialFiles 7).
  vm_compute. lia.
Defined.

Lemma sequential_run_extends_saved_games_witness :
  ∃ result fs',
    Sequential.completeProvider intTruthy 0 parseWidgetOff regexFindsNothing
      Z.eqb alwaysText 7 scannedTest noSequentialFiles = Some (result, fs')
    ∧ (∃ added,
         Sequential.loadExistingGames fs'
         = Sequential.loadExistingGames noSequentialFiles ++ added
         ∧ Forall (λ g, Sequential.hasId Z.eqb
                          (gameId <$> Sequential.loadExistingGames
                                        noSequentialFiles) (gameId g)
                        = false) added)
    ∧ completion_totalGames result
      = Z.of_nat (length (Sequential.loadExistingGames fs'))
    ∧ isComplete result
      = (totalGames (scanned scannedTest)
         <=? Z.of_nat (length (Sequential.loadExistingGames fs'))).
Proof.
  eexists _, _. split; [vm_compute; reflexivity|].
  apply (sequential_run_extends_saved_games intTruthy 0 parseWidgetOff
           regexFindsNothing Z.eqb alwaysText scannedTest noSequentialFiles
           _ 7 _).
  vm_compute. reflexivity.
Defined.

Lemma sequential_request_without_games_witness :
  nothingToFetch intTruthy 0 parseAnything regexFindsNothing alwaysError
  ∧ Sequential.retryLoop intTruthy 0 parseAnything regexFindsNothing Z.eqb
      alwaysError (Z.to_nat (Sequential.MAX_RETRIES Sequential.CONFIG)) 0
      scannedTest 39 (Sequential.initialState noSequentialFiles)
    = {| Sequential.allGames := [];
         Sequential.currentOffset := 0 + 39;
         Sequential.requestCount := 0;
         Sequential.calls := 0 + 6;
         Sequential.files := noSequentialFiles |}.
Proof.
  split; [exact nothingToFetch_alwaysError|].
  apply (sequential_request_without_games intTruthy 0 parseAnything
           regexFindsNothing Z.eqb alwaysError nothingToFetch_alwaysError
           scannedTest 39 (Sequential.initialState noSequentialFiles)).
Defined.
